(** * RCBoat gateway: the MQTT sniffer [scripts/mqtt_sniffer.py]

    A shallow embedding of the script and the properties of its address
    resolver, topic planner, payload renderer and session driver.

    Python values are embedded as follows.
    - [bytes] is [list byte]; a byte's integer value is [byte_val b].
    - [str] is a list of Unicode code points ([list Z]); [lit] turns a
      literal into its code points.
    - [int] is [Z]; lengths and slice indices are [nat].
    - [float] is a binary64 value of [SpecFloat.spec_float].
    - a call that may raise returns a [result]; code with console output
      and client calls runs in the monad [Py], whose state persists when
      an exception propagates. *)

From Stdlib Require Import ZArith NArith String Ascii List Bool Lia.
From Stdlib Require Import Strings.Byte.
From Stdlib Require Import DecimalString HexadecimalString SpecFloat QArith.
From Stdlib Require Import Permutation HexadecimalPos.
Import ListNotations.
Local Open Scope Z_scope.

(** ** Python strings and bytes *)

Definition str := list Z.

Definition lit (s : string) : str :=
  map (fun c => Z.of_N (N_of_ascii c)) (list_ascii_of_string s).

Definition byte_val (b : byte) : Z := Z.of_N (Byte.to_N b).

(** The line feed, written ["\n"] in the source. *)
Definition NL : str := [10].

Definition str_eqb (a b : str) : bool :=
  if list_eq_dec Z.eq_dec a b then true else false.

(** [s.startswith(prefix)] *)
Fixpoint startswith (s prefix : str) : bool :=
  match prefix, s with
  | [], _ => true
  | _ :: _, [] => false
  | p :: prefix', c :: s' => (c =? p) && startswith s' prefix'
  end.

(** [s.endswith(suffix)] *)
Definition endswith (s suffix : str) : bool :=
  (length suffix <=? length s)%nat &&
  str_eqb (skipn (length s - length suffix) s) suffix.

(** [sub in s] *)
Fixpoint contains (sub s : str) : bool :=
  startswith s sub ||
  match s with
  | [] => false
  | _ :: s' => contains sub s'
  end.

(** [sep.join(parts)] *)
Fixpoint join (sep : str) (parts : list str) : str :=
  match parts with
  | [] => []
  | [p] => p
  | p :: rest => p ++ sep ++ join sep rest
  end.

(** [s.split(sep)] for a one-character separator. *)
Fixpoint split_on (sep : Z) (s : str) : list str :=
  match s with
  | [] => [[]]
  | c :: s' =>
      if c =? sep then [] :: split_on sep s'
      else match split_on sep s' with
           | [] => [[c]]
           | w :: ws => (c :: w) :: ws
           end
  end.

(** [b[i:j]] for [0 <= i]: slices are clamped to the sequence. *)
Definition slice {A} (l : list A) (i j : nat) : list A :=
  firstn (j - i) (skipn i l).

(** [range(0, stop, step)] for a positive [step]. *)
Definition range_step (stop step : nat) : list nat :=
  map (fun k => k * step)%nat (seq 0 ((stop + step - 1) / step)).

(** ** Number formatting *)

(** [str(n)] for an [int]. *)
Definition str_of_int (n : Z) : str :=
  lit (DecimalString.NilZero.string_of_int (Z.to_int n)).

(** [str(b)] for a [bool]. *)
Definition str_of_bool (b : bool) : str :=
  if b then lit "True" else lit "False".

Definition hex_digits (n : N) : str :=
  lit (HexadecimalString.NilZero.string_of_uint (N.to_hex_uint n)).

(** The format [{n:0Wx}] for [n >= 0]: lowercase hexadecimal, padded on
    the left with zeros to at least [W] characters. *)
Definition format_0x (W : nat) (n : N) : str :=
  let d := hex_digits n in
  repeat 48 (W - length d) ++ d.

(** The format [{s:<W}]: padded on the right with spaces to at least
    [W] characters; a longer string is kept whole. *)
Definition format_ljust (W : nat) (s : str) : str :=
  s ++ repeat 32 (W - length s).

(** ** Binary64 arithmetic of Python's [float] *)

Definition prec : Z := 53.
Definition emax : Z := 1024.

(** An [int] as the exact pair mantissa, exponent 0. *)
Definition SF_of_int (z : Z) : spec_float :=
  match z with
  | Z0 => S754_zero false
  | Zpos p => S754_finite false p 0
  | Zneg p => S754_finite true p 0
  end.

(** [a / b] on two ints, [b] nonzero: the float nearest to the exact
    quotient, ties to even. *)
Definition int_truediv (a b : Z) : spec_float :=
  SFdiv prec emax (SF_of_int a) (SF_of_int b).

(** The literal [0.85]: the float nearest to 85/100. *)
Definition float_0_85 : spec_float :=
  S754_finite false 7656119366529843 (-53).

(** [x > y] on floats. *)
Definition float_gt (x y : spec_float) : bool := SFltb y x.

(** ** Payload classification and hex dump *)

Definition is_text_byte (b : byte) : bool :=
  let x := byte_val b in
  ((32 <=? x) && (x <=? 126)) || existsb (Z.eqb x) [9; 10; 13].

(** [sum(1 for b in payload if ...)] *)
Definition count_text (payload : list byte) : Z :=
  fold_left Z.add (map (fun _ => 1) (filter is_text_byte payload)) 0.

Definition len {A} (l : list A) : Z := Z.of_nat (length l).

Definition is_mostly_text (payload : list byte) : bool :=
  match payload with
  | [] => true
  | _ =>
      let printable := count_text payload in
      float_gt (int_truediv printable (Z.max 1 (len payload))) float_0_85
  end.

Definition hex_pair (x : byte) : str := format_0x 2 (Byte.to_N x).

Definition ascii_char (x : byte) : Z :=
  let v := byte_val x in
  if (32 <=? v) && (v <=? 126) then v else 46.

Definition hexdump_line (width i : nat) (chunk : list byte) : str :=
  let hexpart := join (lit " ") (map hex_pair chunk) in
  let asciipart := map ascii_char chunk in
  format_0x 4 (N.of_nat i) ++ lit "  " ++
  format_ljust (width * 3) hexpart ++ lit "  " ++ asciipart.

Definition hexdump_w (width : nat) (b : list byte) : str :=
  let lines :=
    map (fun i => hexdump_line width i (slice b i (i + width)))
        (range_step (length b) width) in
  join NL lines.

(** [hexdump(b)] with the default [width=16], the only call in the script. *)
Definition hexdump (b : list byte) : str := hexdump_w 16 b.

(** ** Topic planner *)

Definition topics_for_boat (boat_id : str) : list str :=
  let base := lit "boats/" ++ boat_id in
  [ base ++ lit "/from_vehicle";
    base ++ lit "/to_vehicle";
    base ++ lit "/status" ].

Definition wildcard_topics : list str :=
  [ lit "boats/+/from_vehicle";
    lit "boats/+/to_vehicle";
    lit "boats/+/status" ].

(** ** Exceptions and results *)

(** The classes derived from [Exception] that can occur here, each with
    the text [str(e)] gives. *)
Inductive error :=
| ValueError (msg : str)
| UnicodeDecodeError (msg : str)
| AttributeError (msg : str)
| OSError (msg : str).

(** [SystemExit] and [KeyboardInterrupt] derive from [BaseException]
    only: [except Exception] does not catch them. *)
Inductive exception :=
| Exception (e : error)
| SystemExit (code : Z)
| KeyboardInterrupt.

Definition error_str (e : error) : str :=
  match e with
  | ValueError msg | UnicodeDecodeError msg | AttributeError msg
  | OSError msg => msg
  end.

Inductive result (A : Type) :=
| Ok (a : A)
| Raise (e : exception).
Arguments Ok {A} a.
Arguments Raise {A} e.

(** ** [bytes.decode("utf-8", errors=...)]

    The decoder of CPython: a malformed sequence is the longest prefix
    of a well-formed one, or a single byte when even the first byte is
    wrong; under [errors="strict"] it raises, under [errors="replace"]
    it yields one U+FFFD and decoding goes on behind it. *)

Inductive errors_mode := Strict | Replace.

Definition REPLACEMENT_CHARACTER : Z := 65533.

Definition is_continuation (c : Z) : bool := (128 <=? c) && (c <=? 191).

(** The bounds on the second byte after the lead byte [c0] of a
    three-byte or four-byte sequence. *)
Definition second_byte_ok (c0 c1 : Z) : bool :=
  if c0 =? 224 then (160 <=? c1) && (c1 <=? 191)
  else if c0 =? 237 then (128 <=? c1) && (c1 <=? 159)
  else if c0 =? 240 then (144 <=? c1) && (c1 <=? 191)
  else if c0 =? 244 then (128 <=? c1) && (c1 <=? 143)
  else is_continuation c1.

Definition decode_error (errors : errors_mode) (reason : str)
    (rest : result str) : result str :=
  match errors with
  | Strict => Raise (Exception (UnicodeDecodeError reason))
  | Replace =>
      match rest with
      | Ok s => Ok (REPLACEMENT_CHARACTER :: s)
      | Raise e => Raise e
      end
  end.

Definition decoded (c : Z) (rest : result str) : result str :=
  match rest with
  | Ok s => Ok (c :: s)
  | Raise e => Raise e
  end.

Definition bits (c mask : Z) : Z := Z.land c mask.

Fixpoint utf8_decode (errors : errors_mode) (bs : list byte) : result str :=
  let unexpected_end := decode_error errors (lit "unexpected end of data") (Ok []) in
  let invalid_start := decode_error errors (lit "invalid start byte") in
  let invalid_continuation := decode_error errors (lit "invalid continuation byte") in
  match bs with
  | [] => Ok []
  | b0 :: r0 =>
      let c0 := byte_val b0 in
      if c0 <? 128 then decoded c0 (utf8_decode errors r0)
      else if c0 <? 194 then invalid_start (utf8_decode errors r0)
      else if c0 <? 224 then
        match r0 with
        | [] => unexpected_end
        | b1 :: r1 =>
            let c1 := byte_val b1 in
            if is_continuation c1 then
              decoded (Z.lor (Z.shiftl (bits c0 31) 6) (bits c1 63))
                      (utf8_decode errors r1)
            else invalid_continuation (utf8_decode errors r0)
        end
      else if c0 <? 240 then
        match r0 with
        | [] => unexpected_end
        | b1 :: r1 =>
            let c1 := byte_val b1 in
            if second_byte_ok c0 c1 then
              match r1 with
              | [] => unexpected_end
              | b2 :: r2 =>
                  let c2 := byte_val b2 in
                  if is_continuation c2 then
                    decoded (Z.lor (Z.shiftl (bits c0 15) 12)
                               (Z.lor (Z.shiftl (bits c1 63) 6) (bits c2 63)))
                            (utf8_decode errors r2)
                  else invalid_continuation (utf8_decode errors r1)
              end
            else invalid_continuation (utf8_decode errors r0)
        end
      else if c0 <? 245 then
        match r0 with
        | [] => unexpected_end
        | b1 :: r1 =>
            let c1 := byte_val b1 in
            if second_byte_ok c0 c1 then
              match r1 with
              | [] => unexpected_end
              | b2 :: r2 =>
                  let c2 := byte_val b2 in
                  if is_continuation c2 then
                    match r2 with
                    | [] => unexpected_end
                    | b3 :: r3 =>
                        let c3 := byte_val b3 in
                        if is_continuation c3 then
                          decoded (Z.lor (Z.shiftl (bits c0 7) 18)
                                     (Z.lor (Z.shiftl (bits c1 63) 12)
                                        (Z.lor (Z.shiftl (bits c2 63) 6) (bits c3 63))))
                                  (utf8_decode errors r3)
                        else invalid_continuation (utf8_decode errors r2)
                    end
                  else invalid_continuation (utf8_decode errors r1)
              end
            else invalid_continuation (utf8_decode errors r0)
        end
      else invalid_start (utf8_decode errors r0)
  end.

(** ** UTF-8 in the words of the Unicode standard

    What the decoder has to compute, said a second time and without
    its code: the encoding of a scalar value as the standard tabulates
    it, and the conversion of a byte sequence that replaces every
    maximal subpart of an ill-formed subsequence by U+FFFD (Unicode,
    section 3.9, D92 and D93b). The decoder is compared with this. *)

Module Unicode.

(** A Unicode scalar value: a code point that is no surrogate. *)
Definition scalar_value (c : Z) : bool :=
  ((0 <=? c) && (c <=? 55295)) || ((57344 <=? c) && (c <=? 1114111)).

(** The UTF-8 code unit sequence of a scalar value. *)
Definition utf8_encode (c : Z) : list Z :=
  if c <? 128 then [c]
  else if c <? 2048 then [192 + c / 64; 128 + c mod 64]
  else if c <? 65536 then
    [224 + c / 4096; 128 + c / 64 mod 64; 128 + c mod 64]
  else
    [240 + c / 262144; 128 + c / 4096 mod 64; 128 + c / 64 mod 64;
     128 + c mod 64].

(** [a] begins [p]. *)
Definition prefix (a p : list Z) : Prop := exists r, p = a ++ r.

(** A well-formed code unit sequence: the encoding of a scalar
    value. *)
Definition well_formed (l : list Z) : Prop :=
  exists c, scalar_value c = true /\ l = utf8_encode c.

(** An initial subsequence of a well-formed sequence. *)
Definition initial_subsequence (m : list Z) : Prop :=
  exists l, well_formed l /\ prefix m l.

(** What may be replaced at an offset where no well-formed sequence
    begins: an initial subsequence of a well-formed sequence, or a
    subsequence of length one. *)
Definition candidate (m : list Z) : Prop :=
  (m <> [] /\ initial_subsequence m) \/ length m = 1%nat.

(** The maximal subpart at the start of [p]: its longest candidate. *)
Definition maximal_subpart (m p : list Z) : Prop :=
  prefix m p /\ candidate m /\
  forall m', prefix m' p -> candidate m' -> (length m' <= length m)%nat.

(** The conversion with replacement: a well-formed sequence gives
    its scalar value; where none begins, the maximal subpart gives
    U+FFFD. *)
Inductive replaced : list Z -> list Z -> Prop :=
| replaced_end : replaced [] []
| replaced_scalar c r s :
    scalar_value c = true -> replaced r s ->
    replaced (utf8_encode c ++ r) (c :: s)
| replaced_subpart m r s :
    (forall l, well_formed l -> ~ prefix l (m ++ r)) ->
    maximal_subpart m (m ++ r) -> replaced r s ->
    replaced (m ++ r) (REPLACEMENT_CHARACTER :: s).

(** The scalar value a well-formed sequence stands for. *)
Definition code_point (l : list Z) : Z :=
  match l with
  | [b0] => b0
  | [b0; b1] => (b0 - 192) * 64 + (b1 - 128)
  | [b0; b1; b2] => (b0 - 224) * 4096 + (b1 - 128) * 64 + (b2 - 128)
  | [b0; b1; b2; b3] =>
      (b0 - 240) * 262144 + (b1 - 128) * 4096 + (b2 - 128) * 64 + (b3 - 128)
  | _ => 0
  end.

(** The well-formed byte sequences as the standard tabulates them
    (table 3-7). *)
Definition in_table (l : list Z) : Prop :=
  match l with
  | [b0] => 0 <= b0 <= 127
  | [b0; b1] => 194 <= b0 <= 223 /\ 128 <= b1 <= 191
  | [b0; b1; b2] =>
      224 <= b0 <= 239 /\ 128 <= b1 <= 191 /\ 128 <= b2 <= 191 /\
      (b0 = 224 -> 160 <= b1) /\ (b0 = 237 -> b1 <= 159)
  | [b0; b1; b2; b3] =>
      240 <= b0 <= 244 /\ 128 <= b1 <= 191 /\ 128 <= b2 <= 191 /\
      128 <= b3 <= 191 /\
      (b0 = 240 -> 144 <= b1) /\ (b0 = 244 -> b1 <= 143)
  | _ => False
  end.

End Unicode.

(** ** [urllib.parse.urlparse]

    The script reads three attributes of the parse result: [scheme],
    [hostname] and [port]. Reading [port] may raise, so the record holds
    the outcome of reading it. *)

Record ParseResult := {
  scheme : str;
  hostname : option str;
  port : result (option Z)
}.

Module urllib_parse.

(** A model of CPython's [urlsplit] and of the properties [hostname]
    and [port], for network locations that are ASCII and hold no
    bracketed host: the NFKC check of other network locations and the
    validation of what stands between brackets are left out, and
    [lower()] acts on ASCII letters only. The theorems below hold for
    every parser; this one serves to evaluate the resolver on concrete
    host strings. *)

Fixpoint lstrip (s : str) : str :=
  match s with
  | c :: s' => if c <=? 32 then lstrip s' else s
  | [] => []
  end.

Definition remove_unsafe (s : str) : str :=
  filter (fun c => negb (existsb (Z.eqb c) [9; 13; 10])) s.

(** [s.partition(sep)]: the text before the first [sep], whether
    [sep] was found, the text behind it. *)
Fixpoint partition (sep : Z) (s : str) : str * bool * str :=
  match s with
  | [] => ([], false, [])
  | c :: s' =>
      if c =? sep then ([], true, s')
      else let '(a, found, b) := partition sep s' in (c :: a, found, b)
  end.

(** [s.rpartition(sep)[2]] *)
Fixpoint after_last (sep : Z) (s : str) : str :=
  match s with
  | [] => []
  | c :: s' =>
      if existsb (Z.eqb sep) s' then after_last sep s'
      else if c =? sep then s' else s
  end.

Definition is_alpha (c : Z) : bool :=
  ((65 <=? c) && (c <=? 90)) || ((97 <=? c) && (c <=? 122)).

Definition is_digit (c : Z) : bool := (48 <=? c) && (c <=? 57).

Definition scheme_char (c : Z) : bool :=
  is_alpha c || is_digit c || existsb (Z.eqb c) [43; 45; 46].

Definition lower (s : str) : str :=
  map (fun c => if (65 <=? c) && (c <=? 90) then c + 32 else c) s.

Definition split_scheme (url : str) : str * str :=
  let '(before, found, rest) := partition 58 url in
  match before with
  | c :: _ =>
      if found && is_alpha c && forallb scheme_char before
      then (lower before, rest)
      else ([], url)
  | [] => ([], url)
  end.

(** [_splitnetloc(url, 2)[0]]: up to the first of [/], [?], [#]. *)
Fixpoint until_delim (s : str) : str :=
  match s with
  | [] => []
  | c :: s' => if existsb (Z.eqb c) [47; 63; 35] then [] else c :: until_delim s'
  end.

Definition hostinfo (netloc : str) : str * option str :=
  let info := after_last 64 netloc in
  let '(_, have_open_br, bracketed) := partition 91 info in
  let '(host, p) :=
    if have_open_br then
      let '(h, _, behind) := partition 93 bracketed in
      let '(_, _, p) := partition 58 behind in (h, p)
    else
      let '(h, _, p) := partition 58 info in (h, p) in
  (host, match p with [] => None | _ => Some p end).

Definition get_hostname (netloc : str) : option str :=
  match fst (hostinfo netloc) with
  | [] => None
  | h =>
      let '(name, percent, zone) := partition 37 h in
      Some (lower name ++ (if percent then [37] else []) ++ zone)
  end.

Definition int_of_digits (s : str) : Z :=
  fold_left (fun acc c => acc * 10 + (c - 48)) s 0.

Definition get_port (netloc : str) : result (option Z) :=
  match snd (hostinfo netloc) with
  | None => Ok None
  | Some p =>
      if forallb is_digit p then
        let n := int_of_digits p in
        if (0 <=? n) && (n <=? 65535) then Ok (Some n)
        else Raise (Exception (ValueError (lit "Port out of range 0-65535")))
      else Raise (Exception (ValueError
             (lit "Port could not be cast to integer value as '" ++ p ++ lit "'")))
  end.

Definition urlparse (url : str) : result ParseResult :=
  let url := remove_unsafe (lstrip url) in
  let '(sch, rest) := split_scheme url in
  let netloc := if startswith rest (lit "//") then until_delim (skipn 2 rest) else [] in
  let open_br := existsb (Z.eqb 91) netloc in
  let close_br := existsb (Z.eqb 93) netloc in
  if (open_br && negb close_br) || (close_br && negb open_br) then
    Raise (Exception (ValueError (lit "Invalid IPv6 URL")))
  else
    Ok {| scheme := sch; hostname := get_hostname netloc; port := get_port netloc |}.

End urllib_parse.

(** ** Address resolver *)

(** [a or b] where [a] is an optional int: [None] and [0] are falsy. *)
Definition int_or (a : option Z) (b : Z) : Z :=
  match a with
  | Some n => if n =? 0 then b else n
  | None => b
  end.

(** [a or b] where [a] is an optional string: [None] and [""] are falsy. *)
Definition str_or (a : option str) (b : str) : str :=
  match a with
  | Some (c :: s) => c :: s
  | _ => b
  end.

Definition unsupported_scheme (sch : str) : error :=
  ValueError (lit "Unsupported scheme '" ++ sch ++ lit "'. Use ssl:// or tcp://").

Section Resolver.

Variable urlparse : str -> result ParseResult.

Definition parse_host_port (host_arg : str) (port_arg : option Z)
    : result (str * Z * bool) :=
  if contains (lit "://") host_arg then
    match urlparse host_arg with
    | Raise e => Raise e
    | Ok u =>
        if negb (existsb (str_eqb (scheme u)) [lit "ssl"; lit "tcp"]) then
          Raise (Exception (unsupported_scheme (scheme u)))
        else
          let use_tls := str_eqb (scheme u) (lit "ssl") in
          let host := str_or (hostname u) host_arg in
          match port_arg with
          | Some p => Ok (host, p, use_tls)
          | None =>
              match port u with
              | Raise e => Raise e
              | Ok up => Ok (host, int_or up (if use_tls then 8883 else 1883), use_tls)
              end
          end
    end
  else
    (* Bare hostname; default TLS:8883 unless overridden *)
    let p := match port_arg with None => 8883 | Some p => p end in
    Ok (host_arg, p, p =? 8883).

End Resolver.

(** ** The client, the console and the environment *)

Record MQTTMessage := {
  msg_topic : str;
  msg_payload : list byte;
  msg_qos : Z
}.

Inductive tls_version := TLSv1_2.

(** What [build_client] configures on the client it returns. *)
Record client := {
  client_id : str;
  clean_session : bool;
  username_pw : option (str * str);
  tls_minimum_version : option tls_version;
  reconnect_delay : Z * Z
}.

(** What the program does to the outside, in order. *)
Inductive event :=
| Print (line : str)
| NewClient (c : client)
| Connect (host : str) (port_number keepalive : Z)
| Subscribe (topic : str) (qos : Z)
| Disconnect.

(** The userdata dictionary: its only key is ["subs"]. *)
Definition dict := list (string * list (str * Z)).

Fixpoint dict_get (d : dict) (key : string) (default : list (str * Z))
    : list (str * Z) :=
  match d with
  | [] => default
  | (k, v) :: d' => if String.eqb k key then v else dict_get d' key default
  end.

Record state := {
  trace : list event;              (* events so far, oldest first *)
  userdata : option dict;          (* the client's userdata, [None] until set *)
  sigint_installed : bool          (* [handle_sigint] registered for SIGINT *)
}.

Definition initial : state :=
  {| trace := []; userdata := None; sigint_installed := false |}.

(** The text written to the console: [print] ends each line with a
    line feed. *)
Fixpoint console (t : list event) : str :=
  match t with
  | [] => []
  | Print s :: t' => s ++ NL ++ console t'
  | _ :: t' => console t'
  end.

(** What a message from the broker is to the event loop. *)
Inductive broker_event :=
| ConnAck (ts : str) (rc : Z)            (* connection attempt answered *)
| Publish (ts : str) (msg : MQTTMessage).

(** How a blocking call of the client ends. *)
Inductive outcome :=
| Returns
| Raises (e : error)
| Interrupted.                           (* SIGINT arrives during the call *)

Record environment := {
  clock : Z;                               (* [int(time.time())] *)
  connect_outcome : outcome;
  subscribe_error : str -> Z -> option error;
  disconnect_error : option error;
  inbound : list broker_event;             (* handled by [loop_forever] *)
  loop_outcome : outcome
}.

(** ** The monad of effectful code *)

Definition Py (A : Type) : Type := state -> result A * state.

Definition ret {A} (a : A) : Py A := fun st => (Ok a, st).

Definition bind {A B} (c : Py A) (k : A -> Py B) : Py B :=
  fun st =>
    match c st with
    | (Ok a, st') => k a st'
    | (Raise e, st') => (Raise e, st')
    end.

Notation "x <- c ;; k" := (bind c (fun x => k))
  (at level 61, c at next level, right associativity).
Notation "c ;;; k" := (bind c (fun _ => k))
  (at level 61, right associativity).

Definition raise {A} (e : exception) : Py A := fun st => (Raise e, st).

Definition lift {A} (r : result A) : Py A := fun st => (r, st).

(** [try: body / except Exception as e: handler e] *)
Definition try_except {A} (body : Py A) (handler : error -> Py A) : Py A :=
  fun st =>
    match body st with
    | (Raise (Exception e), st') => handler e st'
    | other => other
    end.

(** The state after further events. *)
Definition record (evs : list event) (st : state) : state :=
  {| trace := trace st ++ evs;
     userdata := userdata st;
     sigint_installed := sigint_installed st |}.

Definition emit (ev : event) : Py unit :=
  fun st => (Ok tt, record [ev] st).

Definition print (s : str) : Py unit := emit (Print s).

(** [for x in l: body x] *)
Fixpoint for_each {A} (l : list A) (body : A -> Py unit) : Py unit :=
  match l with
  | [] => ret tt
  | x :: l' => body x ;;; for_each l' body
  end.

Definition user_data_set (d : dict) : Py unit :=
  fun st => (Ok tt, {| trace := trace st;
                       userdata := Some d;
                       sigint_installed := sigint_installed st |}).

Definition signal_sigint : Py unit :=
  fun st => (Ok tt, {| trace := trace st;
                       userdata := userdata st;
                       sigint_installed := true |}).

Definition sys_exit {A} (code : Z) : Py A := raise (SystemExit code).

(** ** Callbacks *)

Section Session.

Variable env : environment.

Definition client_subscribe (topic : str) (qos : Z) : Py unit :=
  match subscribe_error env topic qos with
  | Some e => raise (Exception e)
  | None => emit (Subscribe topic qos)
  end.

Definition client_disconnect : Py unit :=
  match disconnect_error env with
  | Some e => raise (Exception e)
  | None => emit Disconnect
  end.

Definition stamp (ts : str) : str := lit "[" ++ ts ++ lit "] ".

Definition on_connect (ts : str) (data : option dict) (rc : Z) : Py unit :=
  if rc =? 0 then
    print (stamp ts ++ lit "Connected to broker") ;;;
    (* Re-subscribe on reconnect *)
    match data with
    | None =>
        raise (Exception (AttributeError
                 (lit "'NoneType' object has no attribute 'get'")))
    | Some d =>
        let subs := dict_get d "subs" [] in
        for_each subs (fun '(topic, qos) =>
          client_subscribe topic qos ;;;
          print (stamp ts ++ lit "Subscribed to " ++ topic ++
                 lit " (QoS " ++ str_of_int qos ++ lit ")"))
    end
  else
    print (stamp ts ++ lit "Connect failed with rc=" ++ str_of_int rc).

Definition message_info (ts : str) (msg : MQTTMessage) : str :=
  stamp ts ++ msg_topic msg ++ lit " (QoS " ++ str_of_int (msg_qos msg) ++
  lit ", " ++ str_of_int (len (msg_payload msg)) ++ lit " bytes)".

Definition on_message (ts : str) (msg : MQTTMessage) : Py unit :=
  let topic := msg_topic msg in
  let payload := msg_payload msg in
  let info := message_info ts msg in
  try_except
    (if endswith topic (lit "/status") && is_mostly_text payload then
       text <- lift (utf8_decode Replace payload) ;;
       print (info ++ lit ": " ++ text)
     else
       print info ;;;
       print (hexdump payload))
    (fun e => print (stamp ts ++ lit "Error printing message: " ++ error_str e)).

Definition build_client (id : str) (use_tls : bool)
    (username password : option str) : client :=
  {| client_id := id;
     clean_session := true;
     username_pw :=
       match username with
       | Some (c :: u) => Some (c :: u, str_or password [])
       | _ => None
       end;
     tls_minimum_version := if use_tls then Some TLSv1_2 else None;
     reconnect_delay := (1, 60) |}.

Definition handle_sigint : Py unit :=
  print (NL ++ lit "Disconnecting...") ;;;
  try_except client_disconnect (fun _ => ret tt) ;;;
  sys_exit 0.

(** SIGINT during a blocking call: the registered handler runs in the
    main thread; without one Python raises [KeyboardInterrupt]. *)
Definition deliver_sigint : Py unit :=
  fun st => if sigint_installed st then handle_sigint st
            else (Raise KeyboardInterrupt, st).

Definition finish (o : outcome) : Py unit :=
  match o with
  | Returns => ret tt
  | Raises e => raise (Exception e)
  | Interrupted => deliver_sigint
  end.

Definition client_connect (host : str) (p keepalive : Z) : Py unit :=
  emit (Connect host p keepalive) ;;; finish (connect_outcome env).

Definition dispatch (ev : broker_event) : Py unit :=
  fun st =>
    match ev with
    | ConnAck ts rc => on_connect ts (userdata st) rc st
    | Publish ts msg => on_message ts msg st
    end.

(** [client.loop_forever()]: the callbacks run one at a time in
    arrival order; an exception of a callback leaves the loop. *)
Definition loop_forever : Py unit :=
  for_each (inbound env) dispatch ;;; finish (loop_outcome env).

End Session.

(** ** [main] *)

Record Args := {
  arg_host : str;
  arg_port : option Z;
  arg_username : option str;
  arg_password : option str;
  arg_boat_id : str;
  arg_wildcard : bool;
  arg_qos : Z
}.

Module argparse.

(** A model of [ap.parse_args(argv)] for the parser [main] builds,
    after the [argparse] of CPython 3.11: every argument is first
    classified as an option or a value; an option is spelled in
    full, or abbreviated to a prefix that fits one option only, and
    may carry its value behind [=]; an option otherwise takes the
    next argument as its value, if that is not an option itself.
    Arguments that are neither are reported when the command line is
    used up, after the check that [--host] was given; the separator
    [--] and what follows it are such arguments, since the parser has
    no positional argument. A usage error exits with status 2 and
    the help request with status 0.

    Numbers are read as [int()] reads them, with the decimal
    digits of Unicode 14 that CPython 3.11 knows. The theorems below
    hold for every parser; this one serves to run [main] on concrete
    command lines. *)

Definition usage_error {A} : result A := Raise (SystemExit 2).

Definition defaults : Args :=
  {| arg_host := []; arg_port := None;
     arg_username := None; arg_password := None;
     arg_boat_id := lit "sea_serpent_01"; arg_wildcard := false;
     arg_qos := 1 |}.

(** The white space [int()] strips. *)
Definition is_space (c : Z) : bool :=
  ((9 <=? c) && (c <=? 13)) || ((8192 <=? c) && (c <=? 8202)) ||
  existsb (Z.eqb c) [32; 133; 160; 5760; 8232; 8233; 8239; 8287; 12288].

Fixpoint lstrip (s : str) : str :=
  match s with
  | c :: s' => if is_space c then lstrip s' else s
  | [] => []
  end.

Definition strip (s : str) : str := rev (lstrip (rev (lstrip s))).

(** The first code points of the decimal digits of Unicode: each
    script has its ten digits in a row, from zero upwards. *)
Definition decimal_zeros : list Z :=
  [ 48; 1632; 1776; 1984; 2406; 2534; 2662; 2790; 2918; 3046; 3174; 3302;
    3430; 3558; 3664; 3792; 3872; 4160; 4240; 6112; 6160; 6470; 6608; 6784;
    6800; 6992; 7088; 7232; 7248; 42528; 43216; 43264; 43472; 43504; 43600;
    44016; 65296; 66720; 68912; 69734; 69872; 69942; 70096; 70384; 70736;
    70864; 71248; 71360; 71472; 71904; 72016; 72784; 73040; 73120; 92768;
    92864; 93008; 120782; 120792; 120802; 120812; 120822; 123200; 123632;
    125264; 130032 ].

(** The value of a decimal digit. *)
Definition decimal (c : Z) : option Z :=
  match find (fun z => (z <=? c) && (c <=? z + 9)) decimal_zeros with
  | Some z => Some (c - z)
  | None => None
  end.

Definition is_decimal (c : Z) : bool :=
  match decimal c with
  | Some _ => true
  | None => false
  end.

(** The digits of a numeral: an underscore may stand between two
    digits. *)
Fixpoint numeral (s : str) (after_digit : bool) : option (list Z) :=
  match s with
  | [] => if after_digit then Some [] else None
  | c :: s' =>
      match decimal c with
      | Some d => option_map (cons d) (numeral s' true)
      | None =>
          if (c =? 95) && after_digit then
            match s' with
            | d :: _ => if is_decimal d then numeral s' false else None
            | [] => None
            end
          else None
      end
  end.

(** [sys.int_info.default_max_str_digits] *)
Definition max_str_digits : nat := 4300.

Definition digits (s : str) : option Z :=
  match numeral s false with
  | Some ds =>
      if (length ds <=? max_str_digits)%nat
      then Some (fold_left (fun acc d => acc * 10 + d) ds 0)
      else None
  | None => None
  end.

(** [int(s)] *)
Definition parse_int (s : str) : option Z :=
  match strip s with
  | 45 :: d => option_map Z.opp (digits d)
  | 43 :: d => digits d
  | d => digits d
  end.

(** The regular expression [^-\d+$|^-\d*\.\d+$] of argparse: such
    an argument is a value, not an option. *)
Definition negative_number (s : str) : bool :=
  let s := match rev s with 10 :: r => rev r | _ => s end in
  match s with
  | 45 :: d =>
      let '(whole, dot, frac) := urllib_parse.partition 46 d in
      forallb is_decimal d && negb (length d =? 0)%nat ||
      dot && forallb is_decimal whole &&
      forallb is_decimal frac && negb (length frac =? 0)%nat
  | _ => false
  end.

Inductive action :=
| Help | Host | Port | Username | Password | BoatId | Wildcard | Qos.

(** The option strings, in the order the script adds them. *)
Definition option_strings : list (str * action) :=
  [ (lit "-h", Help); (lit "--help", Help); (lit "--host", Host);
    (lit "--port", Port); (lit "--username", Username);
    (lit "--password", Password); (lit "--boat-id", BoatId);
    (lit "--wildcard", Wildcard); (lit "--qos", Qos) ].

Definition lookup (name : str) : option action :=
  match find (fun '(s, _) => str_eqb s name) option_strings with
  | Some (_, a) => Some a
  | None => None
  end.

(** What an argument is: a value; an option, unknown to the parser
    or known, with the option string it stands for and the value
    written in the same argument; or an abbreviation that fits more
    than one option. *)
Inductive parsed :=
| Positional
| Optional (a : option action) (option_string : str) (explicit : option str)
| Ambiguous.

(** [_parse_optional] with [_get_option_tuples] *)
Definition classify (arg : str) : parsed :=
  match arg with
  | [] => Positional
  | c0 :: rest =>
      if negb (c0 =? 45) then Positional
      else
        match lookup arg, rest with
        | Some a, _ => Optional (Some a) arg None
        | None, [] => Positional
        | None, c1 :: _ =>
            let '(name, found, value) := urllib_parse.partition 61 arg in
            let explicit := if found then Some value else None in
            match (if found then lookup name else None) with
            | Some a => Optional (Some a) name explicit
            | None =>
                let tuples :=
                  if c1 =? 45 then
                    flat_map (fun '(s, a) =>
                                if startswith s name then [(a, s, explicit)] else [])
                             option_strings
                  else
                    flat_map (fun '(s, a) =>
                                if str_eqb s (firstn 2 arg)
                                then [(a, s, Some (skipn 2 arg))]
                                else if startswith s arg then [(a, s, None)]
                                else [])
                             option_strings in
                match tuples with
                | [(a, s, e)] => Optional (Some a) s e
                | _ :: _ :: _ => Ambiguous
                | [] =>
                    if negative_number arg then Positional
                    else if existsb (Z.eqb 32) arg then Positional
                    else Optional None arg None
                end
            end
        end
  end.

(** An argument an option can take as its value. *)
Definition is_value (s : str) : bool :=
  match classify s with
  | Positional => negb (str_eqb s (lit "--"))
  | _ => false
  end.

Definition is_ambiguous (s : str) : bool :=
  match classify s with
  | Ambiguous => true
  | _ => false
  end.

(** The action of an option that takes a value. *)
Definition set_option (a : action) (value : str) (ns : Args) : result Args :=
  let with_host v :=
    {| arg_host := v; arg_port := arg_port ns;
       arg_username := arg_username ns; arg_password := arg_password ns;
       arg_boat_id := arg_boat_id ns; arg_wildcard := arg_wildcard ns;
       arg_qos := arg_qos ns |} in
  let with_port v :=
    {| arg_host := arg_host ns; arg_port := Some v;
       arg_username := arg_username ns; arg_password := arg_password ns;
       arg_boat_id := arg_boat_id ns; arg_wildcard := arg_wildcard ns;
       arg_qos := arg_qos ns |} in
  let with_username v :=
    {| arg_host := arg_host ns; arg_port := arg_port ns;
       arg_username := Some v; arg_password := arg_password ns;
       arg_boat_id := arg_boat_id ns; arg_wildcard := arg_wildcard ns;
       arg_qos := arg_qos ns |} in
  let with_password v :=
    {| arg_host := arg_host ns; arg_port := arg_port ns;
       arg_username := arg_username ns; arg_password := Some v;
       arg_boat_id := arg_boat_id ns; arg_wildcard := arg_wildcard ns;
       arg_qos := arg_qos ns |} in
  let with_boat_id v :=
    {| arg_host := arg_host ns; arg_port := arg_port ns;
       arg_username := arg_username ns; arg_password := arg_password ns;
       arg_boat_id := v; arg_wildcard := arg_wildcard ns;
       arg_qos := arg_qos ns |} in
  let with_qos v :=
    {| arg_host := arg_host ns; arg_port := arg_port ns;
       arg_username := arg_username ns; arg_password := arg_password ns;
       arg_boat_id := arg_boat_id ns; arg_wildcard := arg_wildcard ns;
       arg_qos := v |} in
  match a with
  | Host => Ok (with_host value)
  | Port =>
      match parse_int value with
      | Some v => Ok (with_port v)
      | None => usage_error
      end
  | Username => Ok (with_username value)
  | Password => Ok (with_password value)
  | BoatId => Ok (with_boat_id value)
  | Qos =>
      match parse_int value with
      | Some v => if existsb (Z.eqb v) [0; 1; 2] then Ok (with_qos v) else usage_error
      | None => usage_error
      end
  | Help | Wildcard => usage_error
  end.

Definition set_wildcard (ns : Args) : Args :=
  {| arg_host := arg_host ns; arg_port := arg_port ns;
     arg_username := arg_username ns; arg_password := arg_password ns;
     arg_boat_id := arg_boat_id ns; arg_wildcard := true;
     arg_qos := arg_qos ns |}.

Definition is_host (a : action) : bool :=
  match a with
  | Host => true
  | _ => false
  end.

(** The options are taken from left to right. [host_seen] says
    that the required [--host] was given, [extras] that an argument
    was neither an option of the parser nor the value of one. *)
Fixpoint parse (argv : list str) (ns : Args) (host_seen extras : bool)
    : result Args :=
  match argv with
  | [] => if host_seen && negb extras then Ok ns else usage_error
  | arg :: rest =>
      if str_eqb arg (lit "--") then usage_error else
      match classify arg with
      | Positional | Optional None _ _ => parse rest ns host_seen true
      | Ambiguous => usage_error
      | Optional (Some Help) s explicit =>
          match explicit with
          | None => Raise (SystemExit 0)
          | Some e =>
              (* [-hh] is [-h -h] *)
              if str_eqb s (lit "-h") && negb (length e =? 0)%nat &&
                 forallb (Z.eqb 104) e
              then Raise (SystemExit 0) else usage_error
          end
      | Optional (Some Wildcard) _ explicit =>
          match explicit with
          | None => parse rest (set_wildcard ns) host_seen extras
          | Some _ => usage_error
          end
      | Optional (Some a) _ (Some value) =>
          match set_option a value ns with
          | Ok ns' => parse rest ns' (host_seen || is_host a) extras
          | Raise e => Raise e
          end
      | Optional (Some a) _ None =>
          match rest with
          | value :: rest' =>
              if is_value value then
                match set_option a value ns with
                | Ok ns' => parse rest' ns' (host_seen || is_host a) extras
                | Raise e => Raise e
                end
              else usage_error
          | [] => usage_error
          end
      end
  end.

(** The arguments before the separator [--]. *)
Fixpoint before_separator (argv : list str) : list str :=
  match argv with
  | [] => []
  | arg :: rest =>
      if str_eqb arg (lit "--") then [] else arg :: before_separator rest
  end.

(** An ambiguous abbreviation before the separator is an error
    before any option is taken. *)
Definition parse_args (argv : list str) : result Args :=
  if existsb is_ambiguous (before_separator argv) then usage_error
  else parse argv defaults false false.

End argparse.

Section Main.

Variable urlparse : str -> result ParseResult.

(** [ap.parse_args(argv)] for the parser built in [main]: the parsed
    arguments, or [SystemExit] on a usage error. *)
Variable parse_args : list str -> result Args.

Variable env : environment.

(** The loops that fill [subs]. *)
Definition plan_subs (args : Args) : list (str * Z) :=
  let topics := if arg_wildcard args then wildcard_topics
                else topics_for_boat (arg_boat_id args) in
  fold_left (fun subs t => subs ++ [(t, arg_qos args)]) topics [].

Definition main (argv : list str) : Py Z :=
  args <- lift (parse_args argv) ;;
  match parse_host_port urlparse (arg_host args) (arg_port args) with
  | Raise (Exception e) =>
      print (lit "Invalid host: " ++ error_str e) ;;;
      ret 2
  | Raise e => raise e
  | Ok (host, p, use_tls) =>
      let id := lit "rcboat_sniffer_" ++ str_of_int (clock env) in
      let c := build_client id use_tls (arg_username args) (arg_password args) in
      emit (NewClient c) ;;;
      (* Prepare subscriptions and stash in userdata for reconnect *)
      let subs := plan_subs args in
      user_data_set [("subs"%string, subs)] ;;;
      signal_sigint ;;;
      try_except
        (print (lit "Connecting to " ++ host ++ lit ":" ++ str_of_int p ++
                lit " TLS=" ++ str_of_bool use_tls) ;;;
         client_connect env host p 60 ;;;
         for_each subs (fun '(topic, qos) => client_subscribe env topic qos) ;;;
         loop_forever env ;;;
         ret 0)
        (fun e =>
           print (lit "Connection error: " ++ error_str e) ;;;
           ret 1)
  end.

(** [raise SystemExit(main(sys.argv[1:]))]: the exit status of the
    process. An exception other than [SystemExit] that leaves [main]
    ends the process with status 1, [KeyboardInterrupt] with 130. *)
Definition exit_status (r : result Z) : Z :=
  match r with
  | Ok code => code
  | Raise (SystemExit code) => code
  | Raise (Exception _) => 1
  | Raise KeyboardInterrupt => 130
  end.

Definition run (argv : list str) : Z * list event :=
  let '(r, st) := main argv initial in (exit_status r, trace st).

End Main.


(** ** Notions used in the statements and proofs *)

(** The second half of [binary_round_aux]: the rounded mantissa is
    brought back to 53 bits. *)
Definition renorm (m e : Z) : spec_float :=
  let '(mrs, e') := shr_fexp prec emax m e loc_Exact in
  match shr_m mrs with
  | Z0 => S754_zero false
  | Zpos p => if e' <=? emax - prec then S754_finite false p e' else S754_infinity false
  | Zneg _ => S754_nan
  end.

(** The locations at which round-to-nearest-even may go up. *)
Definition roundup (l : location) : Prop :=
  match l with
  | loc_Inexact Eq | loc_Inexact Gt => True
  | _ => False
  end.

(** The rows of a dump: its text cut at the line feeds. *)
Definition dump_rows (b : list byte) : list str := split_on 10 (hexdump b).

(** The bytes of row [j]. *)
Definition row_bytes (b : list byte) (j : nat) : list byte :=
  firstn 16 (skipn (16 * j) b).

Definition recognised (sch : str) : bool :=
  str_eqb sch (lit "ssl") || str_eqb sch (lit "tcp").

Definition bytes_of (l : list Z) : list byte :=
  map (fun z => match Byte.of_N (Z.to_N z) with Some b => b | None => x00 end) l.

(** The lowercase hexadecimal digit of a value below 16. *)
Definition nibble (d : Z) : Z := if d <? 10 then 48 + d else 87 + d.

(** The lines of a dump before they are joined. *)
Definition dump_lines (b : list byte) : list str :=
  map (fun i => hexdump_line 16 i (slice b i (i + 16)))
      (range_step (length b) 16).

(** The client takes every subscription of the list. *)
Definition accepted (env : environment) (subs : list (str * Z)) : bool :=
  forallb (fun '(t, q) => match subscribe_error env t q with
                          | None => true
                          | Some _ => false
                          end) subs.

(** What a successful connection acknowledgement leaves behind: the
    connect line, then for each subscription of the list the request
    and its confirmation line. *)
Definition resubscription (ts : str) (subs : list (str * Z)) : list event :=
  Print (stamp ts ++ lit "Connected to broker") ::
  flat_map (fun '(t, q) =>
              [ Subscribe t q;
                Print (stamp ts ++ lit "Subscribed to " ++ t ++
                       lit " (QoS " ++ str_of_int q ++ lit ")") ]) subs.

Definition connect_failed (ts : str) (rc : Z) : list event :=
  [Print (stamp ts ++ lit "Connect failed with rc=" ++ str_of_int rc)].

(** The text form and the dump form of a message. *)
Definition rendering (ts : str) (msg : MQTTMessage) : list event :=
  if endswith (msg_topic msg) (lit "/status") && is_mostly_text (msg_payload msg)
  then [Print (message_info ts msg ++ lit ": " ++
               match utf8_decode Replace (msg_payload msg) with
               | Ok text => text
               | Raise _ => []
               end)]
  else [Print (message_info ts msg); Print (hexdump (msg_payload msg))].

(** What the callbacks leave behind for one broker event, given the
    subscription list in the userdata. *)
Definition session_events (subs : list (str * Z)) (ev : broker_event)
    : list event :=
  match ev with
  | ConnAck ts rc => if rc =? 0 then resubscription ts subs else connect_failed ts rc
  | Publish ts msg => rendering ts msg
  end.

Definition is_subscribe (ev : event) : bool :=
  match ev with
  | Subscribe _ _ => true
  | _ => false
  end.

(** What the SIGINT handler leaves behind. *)
Definition sigint_events (env : environment) : list event :=
  Print (NL ++ lit "Disconnecting...") ::
  match disconnect_error env with
  | None => [Disconnect]
  | Some _ => []
  end.

(** What [main] has done when it enters its [try] block: the client is
    built, the subscription list is in its userdata and the SIGINT
    handler is registered. *)
Definition prepared (env : environment) (args : Args) (use_tls : bool) : state :=
  {| trace :=
       [NewClient (build_client (lit "rcboat_sniffer_" ++ str_of_int (clock env))
                     use_tls (arg_username args) (arg_password args))];
     userdata := Some [("subs"%string, plan_subs args)];
     sigint_installed := true |}.

Definition connecting (host : str) (p : Z) (use_tls : bool) : list event :=
  [ Print (lit "Connecting to " ++ host ++ lit ":" ++ str_of_int p ++
           lit " TLS=" ++ str_of_bool use_tls);
    Connect host p 60 ].

Definition connection_error (e : error) : list event :=
  [Print (lit "Connection error: " ++ error_str e)].

(** How [main] ends once the client is connected and subscribed. *)
Definition session_end (env : environment) (st : state) : result Z * state :=
  match loop_outcome env with
  | Returns => (Ok 0, st)
  | Raises e => (Ok 1, record (connection_error e) st)
  | Interrupted => (Raise (SystemExit 0), record (sigint_events env) st)
  end.

(** A command line and an environment to run [main] on: the boat [x],
    a broker that acknowledges the connection twice, and SIGINT at the
    end, with a disconnect that fails. *)
Definition sample_argv (host : str) : list str :=
  [lit "--host"; host; lit "--boat-id"; lit "x"].

Definition sample_args (host : str) : Args :=
  {| arg_host := host; arg_port := None;
     arg_username := None; arg_password := None;
     arg_boat_id := lit "x"; arg_wildcard := false; arg_qos := 1 |}.

Definition sample_env : environment :=
  {| clock := 1700000000;
     connect_outcome := Returns;
     subscribe_error := fun _ _ => None;
     disconnect_error := Some (OSError (lit "socket closed"));
     inbound := [ConnAck (lit "T1") 0; ConnAck (lit "T2") 0];
     loop_outcome := Interrupted |}.

(** ** Reading a dump back *)

(** The value of a lowercase hexadecimal digit. *)
Definition hex_digit_value (c : Z) : Z := if c <? 58 then c - 48 else c - 87.

(** The number a hexadecimal numeral denotes. *)
Definition hex_value (s : str) : Z :=
  fold_left (fun acc c => 16 * acc + hex_digit_value c) s 0.

(** The byte two hexadecimal digits denote; no byte for any other text. *)
Definition byte_of_pair (p : str) : list byte :=
  match p with
  | [h; l] =>
      match Byte.of_N (Z.to_N (16 * hex_digit_value h + hex_digit_value l)) with
      | Some b => [b]
      | None => []
      end
  | _ => []
  end.

(** The first field of a row: what stands before the first space. *)
Fixpoint first_field (s : str) : str :=
  match s with
  | [] => []
  | c :: s' => if c =? 32 then [] else c :: first_field s'
  end.

(** A row without its first field: what starts at the first space. *)
Fixpoint skip_field (s : str) : str :=
  match s with
  | [] => []
  | c :: s' => if c =? 32 then s else skip_field s'
  end.

(** The bytes a dump row shows in its hexadecimal column: the 48
    characters behind the offset and its two spaces, read pair by pair. *)
Definition row_payload (row : str) : list byte :=
  flat_map byte_of_pair (split_on 32 (firstn 48 (skipn 2 (skip_field row)))).

(** The payload a dump shows. *)
Definition undump (dump : str) : list byte :=
  flat_map row_payload (split_on 10 dump).

(** What a run leaves behind once it has connected: lines on the
    console and subscriptions of the plan. *)
Definition planned (plan : list (str * Z)) (ev : event) : Prop :=
  match ev with
  | Print _ => True
  | Subscribe t q => In (t, q) plan
  | _ => False
  end.

(** A connection acknowledgement with the success code. *)
Definition acknowledged (ev : broker_event) : bool :=
  match ev with
  | ConnAck _ rc => rc =? 0
  | Publish _ _ => false
  end.

(** * Binary64 division against the threshold 0.85 *)

Lemma digits2_pos_bounds p :
  2 ^ (Zpos (digits2_pos p) - 1) <= Zpos p < 2 ^ Zpos (digits2_pos p).
Proof.
  induction p as [p IH|p IH|]; cbn [digits2_pos].
  - rewrite Pos2Z.inj_succ.
    replace (Z.succ (Zpos (digits2_pos p)) - 1) with (Z.succ (Zpos (digits2_pos p) - 1)) by lia.
    rewrite !Z.pow_succ_r by lia. lia.
  - rewrite Pos2Z.inj_succ.
    replace (Z.succ (Zpos (digits2_pos p)) - 1) with (Z.succ (Zpos (digits2_pos p) - 1)) by lia.
    rewrite !Z.pow_succ_r by lia. lia.
  - cbn. lia.
Qed.

Lemma digits2_pos_unique q d :
  2 ^ (d - 1) <= Zpos q < 2 ^ d -> 0 < d -> Zpos (digits2_pos q) = d.
Proof.
  intros [Hlo Hhi] Hd.
  destruct (digits2_pos_bounds q) as [Hlo' Hhi'].
  assert (H1 : d - 1 < Zpos (digits2_pos q)).
  { apply (Z.pow_lt_mono_r_iff 2); lia. }
  assert (H2 : Zpos (digits2_pos q) - 1 < d).
  { apply (Z.pow_lt_mono_r_iff 2); lia. }
  lia.
Qed.

Lemma binary_round_aux_renorm m e l :
  binary_round_aux prec emax false m e l =
  let '(mrs, e') := shr_fexp prec emax m e l in
  renorm (round_nearest_even (shr_m mrs) (loc_of_shr_record mrs)) e'.
Proof. reflexivity. Qed.

Lemma renorm_53 m e :
  2 ^ 52 <= Zpos m < 2 ^ 53 -> -1074 <= e <= 971 ->
  renorm (Zpos m) e = S754_finite false m e.
Proof.
  intros Hm He. unfold renorm, shr_fexp.
  replace (Zdigits2 (Zpos m)) with 53
    by (symmetry; apply digits2_pos_unique; [exact Hm|lia]).
  replace (fexp prec emax (53 + e) - e) with 0
    by (unfold fexp, emin, prec, emax; lia).
  cbn [shr shr_record_of_loc shr_m].
  destruct (Z.leb_spec e (emax - prec)); [reflexivity|].
  unfold emax, prec in *; lia.
Qed.

Lemma renorm_carry e :
  -1074 <= e <= 970 ->
  renorm (2 ^ 53) e = S754_finite false (2 ^ 52) (e + 1).
Proof.
  intros He. unfold renorm, shr_fexp.
  change (Zdigits2 (2 ^ 53)) with 54.
  replace (fexp prec emax (54 + e) - e) with 1
    by (unfold fexp, emin, prec, emax; lia).
  cbn.
  destruct (Z.leb_spec (e + 1) 971); [reflexivity|lia].
Qed.

(** Rounding a 53-bit mantissa [m] either keeps it or, when [up] allows,
    moves to [m + 1], which may carry into the next binade. *)
Lemma renorm_cases (m : positive) (x e : Z) (up : Prop) :
  2 ^ 52 <= Zpos m < 2 ^ 53 -> -1074 <= e <= 970 ->
  x = Zpos m \/ (up /\ x = Zpos m + 1) ->
  exists r e1,
    renorm x e = S754_finite false r e1 /\
    ((Zpos r = Zpos m /\ e1 = e) \/
     (up /\ Zpos r = Zpos m + 1 /\ Zpos m + 1 < 2 ^ 53 /\ e1 = e) \/
     (up /\ Zpos m + 1 = 2 ^ 53 /\ Zpos r = 2 ^ 52 /\ e1 = e + 1)).
Proof.
  intros Hm He [->|[Hup ->]].
  - exists m, e. split; [apply renorm_53; lia|left; split; reflexivity].
  - destruct (Z.lt_ge_cases (Zpos m + 1) (2 ^ 53)) as [Hlt|Hge].
    + exists (m + 1)%positive, e. split.
      * change (Zpos m + 1) with (Zpos (m + 1)). apply renorm_53; lia.
      * right; left. repeat split; try assumption; lia.
    + replace (Zpos m + 1) with (2 ^ 53) by lia.
      exists (2 ^ 52)%positive, (e + 1). split; [apply renorm_carry; lia|].
      right; right. repeat split; try assumption; try reflexivity; lia.
Qed.

Lemma binary_round_aux_53 q e l :
  2 ^ 52 <= Zpos q < 2 ^ 53 -> -1074 <= e <= 970 ->
  exists m e1,
    binary_round_aux prec emax false (Zpos q) e l = S754_finite false m e1 /\
    ((Zpos m = Zpos q /\ e1 = e) \/
     (roundup l /\ Zpos m = Zpos q + 1 /\ Zpos q + 1 < 2 ^ 53 /\ e1 = e) \/
     (roundup l /\ Zpos q + 1 = 2 ^ 53 /\ Zpos m = 2 ^ 52 /\ e1 = e + 1)).
Proof.
  intros Hq He.
  rewrite binary_round_aux_renorm. unfold shr_fexp.
  replace (Zdigits2 (Zpos q)) with 53
    by (symmetry; apply digits2_pos_unique; [exact Hq|lia]).
  replace (fexp prec emax (53 + e) - e) with 0
    by (unfold fexp, emin, prec, emax; lia).
  cbn [shr].
  apply renorm_cases; [exact Hq|exact He|].
  destruct l as [|[]]; cbn; auto.
  destruct (Pos.eqb_spec q q); destruct q; cbn; auto.
Qed.

Lemma binary_round_aux_54 q e l :
  2 ^ 53 <= Zpos q < 2 ^ 54 -> -1074 <= e <= 969 ->
  exists m e1,
    binary_round_aux prec emax false (Zpos q) e l = S754_finite false m e1 /\
    ((Zpos m = Zpos q / 2 /\ e1 = e + 1) \/
     (Z.odd (Zpos q) = true /\ Zpos m = Zpos q / 2 + 1 /\ Zpos q / 2 + 1 < 2 ^ 53 /\ e1 = e + 1) \/
     (Z.odd (Zpos q) = true /\ Zpos q / 2 + 1 = 2 ^ 53 /\ Zpos m = 2 ^ 52 /\ e1 = e + 2)).
Proof.
  intros Hq He.
  rewrite binary_round_aux_renorm. unfold shr_fexp.
  replace (Zdigits2 (Zpos q)) with 54
    by (symmetry; apply digits2_pos_unique; [exact Hq|lia]).
  replace (fexp prec emax (54 + e) - e) with 1
    by (unfold fexp, emin, prec, emax; lia).
  cbn [shr iter_pos].
  destruct q as [h|h|]; [| |cbn in Hq; lia].
  - (* odd quotient *)
    replace (Zpos h~1 / 2) with (Zpos h) by (rewrite Pos2Z.inj_xI; apply (Z.div_unique _ _ _ 1); lia).
    assert (Hh : 2 ^ 52 <= Zpos h < 2 ^ 53) by lia.
    destruct (renorm_cases h
                (round_nearest_even (shr_m (shr_1 (shr_record_of_loc (Zpos h~1) l)))
                   (loc_of_shr_record (shr_1 (shr_record_of_loc (Zpos h~1) l))))
                (e + 1) (Z.odd (Zpos h~1) = true) Hh ltac:(lia)) as (r & e1 & Hr & Hc).
    { destruct l as [|[]]; cbn; auto; destruct h; cbn; auto. }
    exists r, e1. split; [exact Hr|].
    destruct Hc as [[? ?]|[(? & ? & ? & ?)|(? & ? & ? & ?)]]; [left|right; left|right; right];
      repeat split; try assumption; lia.
  - (* even quotient *)
    replace (Zpos h~0 / 2) with (Zpos h) by (rewrite Pos2Z.inj_xO; apply (Z.div_unique _ _ _ 0); lia).
    assert (Hh : 2 ^ 52 <= Zpos h < 2 ^ 53) by lia.
    destruct (renorm_cases h
                (round_nearest_even (shr_m (shr_1 (shr_record_of_loc (Zpos h~0) l)))
                   (loc_of_shr_record (shr_1 (shr_record_of_loc (Zpos h~0) l))))
                (e + 1) False Hh ltac:(lia)) as (r & e1 & Hr & Hc).
    { destruct l as [|[]]; cbn; auto. }
    exists r, e1. split; [exact Hr|].
    destruct Hc as [[? ?]|[([] & _)|([] & _)]]. left. split; [assumption|lia].
Qed.

Lemma new_location_roundup N r :
  0 < N -> 0 <= r < N -> roundup (new_location N r) -> N <= 2 * r.
Proof.
  intros HN Hr. unfold new_location, new_location_even, new_location_odd.
  destruct (Z.even N); destruct (Z.eqb_spec r 0); cbn [roundup]; try tauto.
  - destruct (Z.compare_spec (2 * r) N); cbn [roundup]; try tauto; lia.
  - destruct (Z.compare_spec (2 * r + 1) N); cbn [roundup]; try tauto; lia.
Qed.

Lemma float_gt_0_85_finite m e :
  float_gt (S754_finite false m e) float_0_85 =
  (-53 <? e) || ((e =? -53) && (7656119366529843 <? Zpos m)).
Proof.
  unfold float_gt, float_0_85, SFltb, SFcompare.
  destruct (Z.compare_spec (-53) e) as [<-|H|H].
  - rewrite Z.ltb_irrefl, Z.eqb_refl. cbn [orb andb].
    unfold Z.ltb. cbn [Z.compare]. unfold Pos.compare.
    destruct (Pos.compare_cont Eq 7656119366529843 m); reflexivity.
  - destruct (Z.ltb_spec (-53) e); [reflexivity|lia].
  - destruct (Z.ltb_spec (-53) e); [lia|].
    destruct (Z.eqb_spec e (-53)); [lia|reflexivity].
Qed.

Lemma int_truediv_gt_0_85 (P N : positive) :
  Zpos P <= Zpos N <= 2 ^ 49 ->
  float_gt (int_truediv (Zpos P) (Zpos N)) float_0_85 = (17 * Zpos N <? 20 * Zpos P).
Proof.
  intros [HPN HN].
  unfold int_truediv, SF_of_int, SFdiv, SFdiv_core_binary.
  cbn [xorb Zdigits2].
  set (dP := Zpos (digits2_pos P)). set (dN := Zpos (digits2_pos N)).
  pose proof (digits2_pos_bounds P) as HbP. pose proof (digits2_pos_bounds N) as HbN.
  fold dP in HbP. fold dN in HbN.
  set (A := 2 ^ (dP - 1)) in *. set (B := 2 ^ (dN - 1)) in *.
  assert (HA : 2 ^ dP = 2 * A).
  { unfold A. rewrite <- Z.pow_succ_r by (unfold dP; lia). f_equal. lia. }
  assert (HB : 2 ^ dN = 2 * B).
  { unfold B. rewrite <- Z.pow_succ_r by (unfold dN; lia). f_equal. lia. }
  assert (HdN : dN <= 50).
  { assert (dN - 1 < 50); [|lia]. apply (Z.pow_lt_mono_r_iff 2); [lia|lia|]. fold B. lia. }
  assert (Hk : dP <= dN).
  { assert (dP - 1 < dN); [|lia]. apply (Z.pow_lt_mono_r_iff 2); [lia|unfold dN; lia|]. fold A. lia. }
  assert (HdP : 1 <= dP) by (unfold dP; lia).
  replace (Z.min (fexp prec emax (dP + 0 - (dN + 0))) (0 - 0)) with (dP - dN - 53)
    by (unfold fexp, emin, prec, emax; lia).
  replace (0 - 0 - (dP - dN - 53)) with (53 + dN - dP) by lia.
  set (s := 53 + dN - dP).
  replace (match s with 0 => Zpos P | Zpos _ => Z.shiftl (Zpos P) s | Zneg _ => 0 end)
    with (Zpos P * 2 ^ s)
    by (rewrite <- Z.shiftl_mul_pow2 by (unfold s; lia); destruct s eqn:Es; [unfold s in Es; lia|reflexivity|unfold s in Es; lia]).
  set (T := 2 ^ s).
  assert (HT : T * A = 2 ^ 53 * B).
  { unfold T, A, B. rewrite <- !Z.pow_add_r by (unfold s; lia). f_equal. unfold s. lia. }
  assert (HTpos : 0 < T) by (apply Z.pow_pos_nonneg; unfold s; lia).
  pose proof (Z_div_mod (Zpos P * T) (Zpos N) ltac:(lia)) as Hdm.
  assert (Hq : Z.div_eucl (Zpos P * T) (Zpos N) = ((Zpos P * T) / Zpos N, (Zpos P * T) mod Zpos N))
    by (unfold Z.div, Z.modulo; destruct Z.div_eucl; reflexivity).
  rewrite Hq in *. clear Hq.
  set (q := Zpos P * T / Zpos N) in *. set (r := (Zpos P * T) mod Zpos N) in *.
  destruct Hdm as [Hdm Hr].
  assert (Hqlo : 2 ^ 52 <= q).
  { apply Z.div_le_lower_bound; [lia|].
    assert (T * A <= T * Zpos P) by (apply Z.mul_le_mono_nonneg_l; lia). lia. }
  assert (Hqhi : q < 2 ^ 54).
  { apply Z.div_lt_upper_bound; [lia|].
    assert (T * Zpos P < T * (2 * A)) by (apply Z.mul_lt_mono_pos_l; lia). lia. }
  assert (Hqp : exists qp, q = Zpos qp) by (exists (Z.to_pos q); rewrite Z2Pos.id; lia).
  destruct Hqp as [qp Hqp].
  cbv beta iota.
  set (e := dP - dN - 53).
  set (l := new_location (Zpos N) r).
  assert (Hl : roundup l -> Zpos N <= 2 * r) by (apply new_location_roundup; lia).
  assert (F1 : dP = dN ->
    (17 * Zpos N < 20 * Zpos P -> 7656119366529843 + 1 <= q) /\
    (20 * Zpos P <= 17 * Zpos N -> q <= 7656119366529843 /\ (q = 7656119366529843 -> 2 * r < Zpos N))).
  { intros Hk0. assert (HT53 : T = 2 ^ 53) by (unfold T, s; f_equal; lia). split.
    - intros H. apply Z.div_le_lower_bound; [lia|]. rewrite HT53. lia.
    - intros H. assert (q < 7656119366529843 + 1)
        by (apply Z.div_lt_upper_bound; [lia|]; rewrite HT53; lia).
      split; [lia|]. intros Hq. rewrite Hq, HT53 in Hdm. lia. }
  assert (F2 : dP = dN - 1 ->
    (17 * Zpos N < 20 * Zpos P -> 2 * 7656119366529843 + 2 <= q) /\
    (20 * Zpos P <= 17 * Zpos N -> q <= 2 * 7656119366529843)).
  { intros Hk1. assert (HT54 : T = 2 ^ 54) by (unfold T, s; f_equal; lia). split.
    - intros H. apply Z.div_le_lower_bound; [lia|]. rewrite HT54. lia.
    - intros H. assert (q < 2 * 7656119366529843 + 1)
        by (apply Z.div_lt_upper_bound; [lia|]; rewrite HT54; lia).
      lia. }
  assert (F3 : dP <= dN - 2 -> 2 * Zpos P <= Zpos N).
  { intros Hk2. assert (2 ^ (dP + 1) <= 2 ^ (dN - 1)) by (apply Z.pow_le_mono_r; lia).
    replace (dP + 1) with (Z.succ dP) in H by lia. rewrite Z.pow_succ_r in H by lia.
    fold B in H. lia. }
  assert (He : e = dP - dN - 53) by reflexivity.
  assert (Hcases : dP = dN \/ dP = dN - 1 \/ dP <= dN - 2) by lia.
  rewrite Hqp. rewrite Hqp in Hqlo, Hqhi, F1, F2.
  clearbody q r e l T s A B dP dN. 
  destruct (Z.lt_ge_cases (Zpos qp) (2 ^ 53)) as [Hq53|Hq54].
  - destruct (binary_round_aux_53 qp e l) as (m & e1 & Hres & Hc); [lia|lia|].
    rewrite Hres, float_gt_0_85_finite.
    destruct (Z.ltb_spec (17 * Zpos N) (20 * Zpos P)) as [Hgt|Hle];
    destruct (Z.ltb_spec (-53) e1); destruct (Z.eqb_spec e1 (-53));
    destruct (Z.ltb_spec 7656119366529843 (Zpos m)); cbn [orb andb]; try reflexivity; exfalso;
    destruct Hc as [[? ?]|[(Hu & ? & ? & ?)|(Hu & ? & ? & ?)]]; try specialize (Hl Hu); lia.
  - destruct (binary_round_aux_54 qp e l) as (m & e1 & Hres & Hc); [lia|lia|].
    rewrite Hres, float_gt_0_85_finite.
    destruct (Z.ltb_spec (17 * Zpos N) (20 * Zpos P)) as [Hgt|Hle];
    destruct (Z.ltb_spec (-53) e1); destruct (Z.eqb_spec e1 (-53));
    destruct (Z.ltb_spec 7656119366529843 (Zpos m)); cbn [orb andb]; try reflexivity; exfalso;
    destruct Hc as [[? ?]|[(Hu & ? & ? & ?)|(Hu & ? & ? & ?)]];
    try (apply Z.odd_spec in Hu; destruct Hu as [h2 Hh2]);
    Z.div_mod_to_equations; lia.
Qed.

(** The literal is the float that dividing 85 by 100 gives, and it lies
    just below 85/100. *)
Example float_0_85_nearest :
  int_truediv 85 100 = float_0_85 /\
  20 * 7656119366529843 < 17 * 2 ^ 53 < 20 * (7656119366529843 + 1).
Proof. split; [vm_compute; reflexivity|lia]. Qed.

(** Dividing the exact integers gives what dividing their floats gives. *)
Example int_truediv_of_floats :
  int_truediv 90 100 =
    SFdiv prec emax (binary_normalize prec emax 90 0 false)
                    (binary_normalize prec emax 100 0 false) /\
  int_truediv 1 3 = S754_finite false 6004799503160661 (-54).
Proof. split; vm_compute; reflexivity. Qed.

(** * Payload classification *)

Lemma sum_ones (l : list byte) (acc : Z) :
  fold_left Z.add (map (fun _ => 1) l) acc = acc + len l.
Proof.
  revert acc. induction l as [|x l IH]; intros acc; cbn [map fold_left].
  - unfold len. cbn. lia.
  - rewrite IH. unfold len. cbn [length]. lia.
Qed.

Lemma count_text_filter (p : list byte) :
  count_text p = len (filter is_text_byte p).
Proof. unfold count_text. rewrite sum_ones. lia. Qed.

Lemma count_text_range (p : list byte) : 0 <= count_text p <= len p.
Proof.
  rewrite count_text_filter. unfold len. split; [lia|].
  apply Nat2Z.inj_le, filter_length_le.
Qed.

Lemma is_text_byte_spec (b : byte) :
  is_text_byte b = true <->
  32 <= byte_val b <= 126 \/ byte_val b = 9 \/ byte_val b = 10 \/ byte_val b = 13.
Proof.
  unfold is_text_byte. cbn [existsb].
  rewrite !orb_true_iff, andb_true_iff, !Z.leb_le, !Z.eqb_eq. intuition lia.
Qed.

(** The float test agrees with the comparison of the exact fraction. *)
Lemma is_mostly_text_ratio (p : list byte) :
  p <> [] -> len p <= 2 ^ 49 ->
  is_mostly_text p = (17 * len p <? 20 * count_text p).
Proof.
  intros Hne Hlen.
  pose proof (count_text_range p) as Hc.
  assert (Hpos : 1 <= len p) by (destruct p; [congruence|unfold len; cbn [length]; lia]).
  assert (His : is_mostly_text p =
            float_gt (int_truediv (count_text p) (Z.max 1 (len p))) float_0_85)
    by (destruct p; [congruence|reflexivity]).
  rewrite His, Z.max_r by lia.
  destruct (count_text p) as [|c|c] eqn:Ec; [|destruct (len p) as [|n|n] eqn:En; try lia|lia].
  - (* no text byte at all: the quotient is zero *)
    destruct (len p) as [|n|n] eqn:En; try lia.
    cbn. reflexivity.
  - apply int_truediv_gt_0_85. lia.
Qed.

(** C3. A payload is classified mostly-text exactly when it is empty or
    the exact fraction of its text bytes (values 32 to 126, or 9, 10,
    13) strictly exceeds 85/100; the binary64 division and comparison of
    the source agree with the exact fraction for every payload of at
    most 2^49 bytes. With 100 bytes, 90 text bytes give true and 80
    give false. *)
Theorem is_mostly_text_threshold (p : list byte) :
  len p <= 2 ^ 49 ->
  (is_mostly_text p = true <->
   p = [] \/ (85 # 100 < count_text p # Pos.of_nat (length p))%Q) /\
  count_text p = len (filter is_text_byte p) /\
  (forall b, is_text_byte b = true <->
     32 <= byte_val b <= 126 \/ byte_val b = 9 \/ byte_val b = 10 \/ byte_val b = 13) /\
  (length p = 100%nat ->
     (count_text p = 90 -> is_mostly_text p = true) /\
     (count_text p = 80 -> is_mostly_text p = false)).
Proof.
  intros Hlen.
  assert (Hratio : p <> [] ->
            (is_mostly_text p = true <->
             (85 # 100 < count_text p # Pos.of_nat (length p))%Q)).
  { intros Hne. rewrite (is_mostly_text_ratio p Hne Hlen), Z.ltb_lt.
    unfold Qlt. cbn [Qnum Qden].
    assert (Hp : Zpos (Pos.of_nat (length p)) = len p).
    { unfold len. destruct p as [|x p]; [congruence|].
      cbn [length]. lia. }
    rewrite Hp. lia. }
  repeat split.
  - intros H. destruct p as [|x p]; [left; reflexivity|right].
    apply Hratio; [discriminate|exact H].
  - intros [->|H]; [reflexivity|].
    destruct p as [|x p]; [reflexivity|]. apply Hratio; [discriminate|exact H].
  - apply count_text_filter.
  - apply is_text_byte_spec.
  - apply is_text_byte_spec.
  - intros Hc. rewrite is_mostly_text_ratio; [|intros ->; discriminate|exact Hlen].
    apply Z.ltb_lt. unfold len. rewrite H. lia.
  - intros Hc. rewrite is_mostly_text_ratio; [|intros ->; discriminate|exact Hlen].
    apply Z.ltb_ge. unfold len. rewrite H. lia.
Qed.

Lemma is_mostly_text_threshold_witness :
  let p := repeat "A"%byte 90 ++ repeat x00 10 in
  len p <= 2 ^ 49 /\ is_mostly_text p = true.
Proof.
  cbv zeta.
  assert (H : len (repeat "A"%byte 90 ++ repeat x00 10) <= 2 ^ 49)
    by (vm_compute; discriminate).
  split; [exact H|].
  apply (proj1 (proj2 (proj2 (proj2 (is_mostly_text_threshold _ H))) eq_refl)).
  reflexivity.
Defined.

(** * Lines of text: [split] against [join] *)

Lemma split_on_nosep sep w : ~ In sep w -> split_on sep w = [w].
Proof.
  induction w as [|c w IH]; cbn [split_on]; intros H; [reflexivity|].
  destruct (Z.eqb_spec c sep) as [->|Hc]; [exfalso; apply H; left; reflexivity|].
  rewrite IH; [reflexivity|]. intros Hin. apply H. right. exact Hin.
Qed.

Lemma split_on_app sep w rest :
  ~ In sep w -> split_on sep (w ++ sep :: rest) = w :: split_on sep rest.
Proof.
  induction w as [|c w IH]; cbn [split_on app]; intros H.
  - rewrite Z.eqb_refl. reflexivity.
  - destruct (Z.eqb_spec c sep) as [->|Hc]; [exfalso; apply H; left; reflexivity|].
    rewrite IH; [reflexivity|]. intros Hin. apply H. right. exact Hin.
Qed.

Lemma join_cons sep p q rest :
  join sep (p :: q :: rest) = p ++ sep ++ join sep (q :: rest).
Proof. reflexivity. Qed.

Lemma split_on_join sep parts :
  parts <> [] -> Forall (fun w => ~ In sep w) parts ->
  split_on sep (join [sep] parts) = parts.
Proof.
  induction parts as [|p rest IH]; [congruence|]. intros _ HF.
  inversion HF as [|? ? Hp Hrest]; subst.
  destruct rest as [|q rest].
  - apply split_on_nosep. exact Hp.
  - rewrite join_cons. change ([sep] ++ join [sep] (q :: rest)) with (sep :: join [sep] (q :: rest)).
    rewrite split_on_app by exact Hp.
    rewrite IH; [reflexivity|discriminate|exact Hrest].
Qed.

(** * The characters of a dump line *)

Lemma lit_cons c s : lit (String c s) = Z.of_N (N_of_ascii c) :: lit s.
Proof. reflexivity. Qed.

Lemma hex_uint_chars d :
  Forall (fun c => 48 <= c <= 102) (lit (HexadecimalString.NilEmpty.string_of_uint d)).
Proof.
  induction d; cbn [HexadecimalString.NilEmpty.string_of_uint];
    try (rewrite lit_cons; constructor; [cbn; lia|assumption]).
  constructor.
Qed.

Lemma hex_digits_chars n : Forall (fun c => 48 <= c <= 102) (hex_digits n).
Proof.
  unfold hex_digits, HexadecimalString.NilZero.string_of_uint.
  destruct (N.to_hex_uint n) eqn:E; try (rewrite <- E; apply hex_uint_chars); try apply hex_uint_chars.
  repeat constructor; cbn; lia.
Qed.

Lemma format_0x_chars W n : Forall (fun c => 48 <= c <= 102) (format_0x W n).
Proof.
  unfold format_0x. apply Forall_app. split; [|apply hex_digits_chars].
  apply Forall_forall. intros c Hc. apply repeat_spec in Hc. lia.
Qed.

Lemma ascii_char_range x : 32 <= ascii_char x <= 126.
Proof.
  unfold ascii_char.
  destruct (Z.leb_spec 32 (byte_val x)); destruct (Z.leb_spec (byte_val x) 126);
    cbn [andb]; lia.
Qed.

Lemma join_chars (P : Z -> Prop) sep parts :
  Forall P sep -> Forall (Forall P) parts -> Forall P (join sep parts).
Proof.
  intros Hsep. induction parts as [|p rest IH]; intros HF; [constructor|].
  inversion HF as [|? ? Hp Hrest]; subst.
  destruct rest as [|q rest]; [exact Hp|].
  rewrite join_cons. repeat (apply Forall_app; split); auto.
Qed.

(** No character of a dump line is a control character. *)
Lemma format_ljust_chars W s :
  Forall (fun c => 32 <= c <= 126) s ->
  Forall (fun c => 32 <= c <= 126) (format_ljust W s).
Proof.
  intros Hs. unfold format_ljust. apply Forall_app. split; [exact Hs|].
  apply Forall_forall. intros c Hc. apply repeat_spec in Hc. lia.
Qed.

Lemma hex_chars_printable s :
  Forall (fun c => 48 <= c <= 102) s -> Forall (fun c => 32 <= c <= 126) s.
Proof. apply Forall_impl. intros; lia. Qed.

Lemma hexdump_line_chars W i chunk :
  Forall (fun c => 32 <= c <= 126) (hexdump_line W i chunk).
Proof.
  assert (Hsp : Forall (fun c => 32 <= c <= 126) (lit "  "))
    by (repeat constructor; cbn; lia).
  unfold hexdump_line.
  apply Forall_app; split; [apply hex_chars_printable, format_0x_chars|].
  apply Forall_app; split; [exact Hsp|].
  apply Forall_app; split; [|apply Forall_app; split; [exact Hsp|]].
  - apply format_ljust_chars, join_chars; [repeat constructor; cbn; lia|].
    apply Forall_forall. intros p Hp. apply in_map_iff in Hp as (x & <- & _).
    apply hex_chars_printable, format_0x_chars.
  - apply Forall_forall. intros c Hc. apply in_map_iff in Hc as (x & <- & _).
    apply ascii_char_range.
Qed.

Lemma hexdump_line_no_newline W i chunk : ~ In 10 (hexdump_line W i chunk).
Proof.
  intros Hin.
  pose proof (hexdump_line_chars W i chunk) as H.
  rewrite Forall_forall in H. specialize (H 10 Hin). lia.
Qed.

(** * The rows of a dump *)

Lemma hexdump_join b : hexdump b = join NL (dump_lines b).
Proof. reflexivity. Qed.

Lemma dump_lines_length b : length (dump_lines b) = ((length b + 15) / 16)%nat.
Proof.
  unfold dump_lines, range_step. rewrite !length_map, length_seq.
  f_equal. lia.
Qed.

Lemma rows_lt (b : list byte) j : (16 * j < length b)%nat <-> (j < (length b + 15) / 16)%nat.
Proof.
  pose proof (Nat.div_mod_eq (length b + 15) 16) as H.
  pose proof (Nat.mod_upper_bound (length b + 15) 16 ltac:(lia)) as H'.
  lia.
Qed.

Lemma dump_lines_nth b j :
  (16 * j < length b)%nat ->
  nth j (dump_lines b) [] = hexdump_line 16 (16 * j) (row_bytes b j).
Proof.
  intros Hj. apply rows_lt in Hj.
  unfold dump_lines, range_step.
  replace (length b + 16 - 1)%nat with (length b + 15)%nat by lia.
  set (f := fun i => hexdump_line 16 i (slice b i (i + 16))).
  set (g := fun k => (k * 16)%nat).
  rewrite (nth_indep _ [] (f (g 0%nat))) by (rewrite !length_map, length_seq; lia).
  rewrite map_nth, map_nth, seq_nth by lia.
  unfold f, g, slice, row_bytes.
  replace ((0 + j) * 16)%nat with (16 * j)%nat by lia.
  replace (16 * j + 16 - 16 * j)%nat with 16%nat by lia.
  reflexivity.
Qed.

Lemma dump_rows_lines b : b <> [] -> dump_rows b = dump_lines b.
Proof.
  intros Hne. unfold dump_rows. rewrite hexdump_join.
  apply split_on_join.
  - intros Hnil. apply (f_equal (@length _)) in Hnil.
    rewrite dump_lines_length in Hnil. cbn [length] in Hnil.
    assert (0 < length b)%nat by (destruct b; [congruence|cbn; lia]).
    pose proof (proj1 (rows_lt b 0) ltac:(lia)). lia.
  - apply Forall_forall. intros w Hw.
    unfold dump_lines in Hw. apply in_map_iff in Hw as (i & <- & _).
    apply hexdump_line_no_newline.
Qed.

Lemma hex_pair_nibbles x :
  hex_pair x = [nibble (byte_val x / 16); nibble (byte_val x mod 16)].
Proof. destruct x; vm_compute; reflexivity. Qed.

Lemma hex_pair_length x : length (hex_pair x) = 2%nat.
Proof. rewrite hex_pair_nibbles. reflexivity. Qed.

Lemma hexpart_length chunk :
  length (join (lit " ") (map hex_pair chunk)) = (3 * length chunk - 1)%nat.
Proof.
  induction chunk as [|x chunk IH]; [reflexivity|].
  destruct chunk as [|y chunk].
  - cbn [map join]. apply hex_pair_length.
  - cbn [map] in *. rewrite join_cons, !length_app, IH, hex_pair_length.
    cbn [length lit list_ascii_of_string map]. lia.
Qed.

Lemma hex_column_length chunk :
  (length chunk <= 16)%nat ->
  length (format_ljust 48 (join (lit " ") (map hex_pair chunk))) = 48%nat.
Proof.
  intros H. unfold format_ljust.
  rewrite length_app, repeat_length, hexpart_length. lia.
Qed.

Lemma row_bytes_length b j :
  length (row_bytes b j) = Nat.min 16 (length b - 16 * j).
Proof. unfold row_bytes. rewrite length_firstn, length_skipn. reflexivity. Qed.

Lemma offset_min_width W n : (W <= length (format_0x W n))%nat.
Proof. unfold format_0x. rewrite length_app, repeat_length. lia. Qed.

Lemma offset_width j :
  (j < 4096)%nat -> length (format_0x 4 (N.of_nat (16 * j))) = 4%nat.
Proof.
  intros Hj.
  assert (H : forallb (fun k => Nat.eqb (length (format_0x 4 (16 * k))) 4)
                (map N.of_nat (seq 0 4096)) = true) by (vm_compute; reflexivity).
  rewrite forallb_forall in H.
  rewrite Nat2N.inj_mul. apply Nat.eqb_eq, H, in_map, in_seq. lia.
Qed.

(** C2, as amended. A dump has one row per 16 bytes. Row [j] is the
    offset [16 * j] in lowercase hexadecimal, padded with zeros to at
    least four digits (exactly four for a payload of at most 65536
    bytes), two spaces, the row's bytes as two lowercase hexadecimal
    digits each, joined by single spaces and padded with spaces to 48
    characters, two spaces, and one character per byte: the byte itself
    when it is in 32..126 and a dot otherwise. The 17 bytes 0x00..0x10
    give the two rows with offsets 0000 and 0010. *)
Theorem hexdump_rows (b : list byte) (j : nat) :
  (16 * j < length b)%nat ->
  let chunk := row_bytes b j in
  let offset := format_0x 4 (N.of_nat (16 * j)) in
  let hexcol := format_ljust 48 (join (lit " ") (map hex_pair chunk)) in
  length (dump_rows b) = ((length b + 15) / 16)%nat /\
  nth j (dump_rows b) [] =
    offset ++ lit "  " ++ hexcol ++ lit "  " ++ map ascii_char chunk /\
  length chunk = Nat.min 16 (length b - 16 * j) /\
  (4 <= length offset)%nat /\
  (len b <= 65536 -> length offset = 4%nat) /\
  length hexcol = 48%nat /\
  (forall x, hex_pair x = [nibble (byte_val x / 16); nibble (byte_val x mod 16)]) /\
  (forall x, ascii_char x =
     if (32 <=? byte_val x) && (byte_val x <=? 126) then byte_val x else 46) /\
  dump_rows (bytes_of [0; 1; 2; 3; 4; 5; 6; 7; 8; 9; 10; 11; 12; 13; 14; 15; 16]) =
    [ lit "0000  00 01 02 03 04 05 06 07 08 09 0a 0b 0c 0d 0e 0f   ................";
      lit "0010  10                                                ." ].
Proof.
  intros Hj chunk offset hexcol.
  assert (Hne : b <> []) by (intros ->; cbn in Hj; lia).
  rewrite (dump_rows_lines b Hne).
  split; [|split; [|split; [|split; [|split; [|split; [|split; [|split]]]]]]].
  - apply dump_lines_length.
  - apply dump_lines_nth. exact Hj.
  - apply row_bytes_length.
  - apply offset_min_width.
  - intros Hb. apply offset_width. unfold len in Hb. lia.
  - apply hex_column_length. unfold chunk. rewrite row_bytes_length. lia.
  - apply hex_pair_nibbles.
  - reflexivity.
  - vm_compute. reflexivity.
Qed.

Lemma hexdump_rows_witness :
  let b := bytes_of [72; 101; 108; 108; 111; 44; 32; 98; 111; 97; 116; 33; 0; 1; 2; 255; 127; 10] in
  (16 * 1 < length b)%nat /\
  nth 1 (dump_rows b) [] =
    lit "0010  7f 0a                                             ..".
Proof.
  cbv zeta.
  assert (H : (16 * 1 < length (bytes_of [72; 101; 108; 108; 111; 44; 32; 98; 111;
                 97; 116; 33; 0; 1; 2; 255; 127; 10]%Z))%nat) by (cbn; lia).
  split; [exact H|].
  rewrite (proj1 (proj2 (hexdump_rows _ 1 H))). reflexivity.
Defined.

(** C2, as stated, fails on a payload of 65537 bytes: the offset of the
    last, one-byte row takes five hexadecimal digits, so its columns
    stand one place to the right of those of the rows before it. *)
Lemma hexdump_offset_five_digits :
  let rows := dump_rows (repeat x00 (N.to_nat 65537)) in
  nth 4096 rows [] =
    lit "10000  00                                                ." /\
  firstn 6 (nth 4095 rows []) = lit "fff0  " /\
  length (format_0x 4 (N.of_nat (16 * 4096))) = 5%nat.
Proof.
  cbv zeta.
  assert (Hne : repeat x00 (N.to_nat 65537) <> []).
  { destruct (Pos2Nat.is_succ 65537) as [n Hn].
    change (N.to_nat 65537) with (Pos.to_nat 65537). rewrite Hn. discriminate. }
  rewrite (dump_rows_lines _ Hne).
  rewrite !dump_lines_nth
    by (rewrite repeat_length; apply Nat.ltb_lt; vm_compute; reflexivity).
  split; [|split]; vm_compute; reflexivity.
Qed.

(** * Rendering of one message *)

Lemma hexdump_empty : hexdump [] = [].
Proof. reflexivity. Qed.

(** * The UTF-8 decoder *)

Lemma decoded_ok c r :
  (exists s, r = Ok s) -> exists s, decoded c r = Ok s.
Proof. intros [s ->]. eexists. reflexivity. Qed.

Lemma decode_error_replace_ok reason r :
  (exists s, r = Ok s) -> exists s, decode_error Replace reason r = Ok s.
Proof. intros [s ->]. eexists. reflexivity. Qed.

(** One unfolding of the decoder and a case split down to its leaves. *)
Ltac decode_cases p :=
  destruct p as [|?b0 ?r0]; [|cbn [utf8_decode]; cbv zeta;
    repeat match goal with
           | |- context [if ?c then _ else _] => destruct c
           | |- context [match ?l with [] => _ | _ :: _ => _ end] =>
               is_var l; destruct l
           end].

Lemma utf8_decode_replace_bounded (n : nat) :
  forall p, (length p <= n)%nat -> exists s, utf8_decode Replace p = Ok s.
Proof.
  induction n as [|n IH]; intros p Hp.
  - destruct p; [eexists; reflexivity|cbn in Hp; lia].
  - decode_cases p; [eexists; reflexivity|..];
      first [apply decoded_ok | apply decode_error_replace_ok];
      first [apply IH; cbn [length] in *; lia | eexists; reflexivity].
Qed.

(** Under [errors="replace"] the decoder returns for every input. *)
Lemma utf8_decode_replace_total p : exists s, utf8_decode Replace p = Ok s.
Proof. apply (utf8_decode_replace_bounded (length p)). lia. Qed.

Lemma decoded_inv c r s :
  decoded c r = Ok s -> exists s', r = Ok s' /\ s = c :: s'.
Proof. destruct r; cbn; [intros [= <-]; eauto|discriminate]. Qed.

Lemma utf8_decode_strict_bounded (n : nat) :
  forall p s, (length p <= n)%nat ->
    utf8_decode Strict p = Ok s -> utf8_decode Replace p = Ok s.
Proof.
  induction n as [|n IH]; intros p s Hp.
  - destruct p; [trivial|cbn in Hp; lia].
  - decode_cases p; [trivial|..]; intros H;
      try discriminate H;
      apply decoded_inv in H as (s' & H & ->);
      (apply IH in H; [rewrite H; reflexivity|cbn [length] in *; lia]).
Qed.

(** Well-formed UTF-8 decodes to the same text in both modes. *)
Lemma utf8_decode_strict_replace p s :
  utf8_decode Strict p = Ok s -> utf8_decode Replace p = Ok s.
Proof. apply (utf8_decode_strict_bounded (length p)). lia. Qed.

Lemma decoded_raise_inv c r e : decoded c r = Raise e -> r = Raise e.
Proof. destruct r; cbn; [discriminate|intros [= <-]; reflexivity]. Qed.

Lemma utf8_decode_invalid_bounded (n : nat) :
  forall p e, (length p <= n)%nat ->
    utf8_decode Strict p = Raise e ->
    exists s, utf8_decode Replace p = Ok s /\ In REPLACEMENT_CHARACTER s.
Proof.
  induction n as [|n IH]; intros p e Hp.
  - destruct p; [discriminate|cbn in Hp; lia].
  - decode_cases p; [discriminate|..]; intros H;
      first [ apply decoded_raise_inv in H;
              (apply IH in H as (s & -> & Hin); [|cbn [length] in *; lia]);
              eexists; (split; [reflexivity|right; exact Hin])
            | match goal with
              | |- context [decode_error Replace _ ?r] =>
                  let s := fresh "s" in let Hs := fresh "Hs" in
                  assert (exists s, r = Ok s) as [s Hs]
                    by first [apply utf8_decode_replace_total | eexists; reflexivity];
                  rewrite Hs; eexists; (split; [reflexivity|left; reflexivity])
              end ].
Qed.

(** Where strict decoding fails, the replacing decoder puts U+FFFD. *)
Lemma utf8_decode_invalid_replaced p e :
  utf8_decode Strict p = Raise e ->
  exists s, utf8_decode Replace p = Ok s /\ In REPLACEMENT_CHARACTER s.
Proof. apply (utf8_decode_invalid_bounded (length p)). lia. Qed.

(** * The decoder against the Unicode standard *)

(** ** The table of well-formed sequences *)

Lemma scalar_value_spec c :
  Unicode.scalar_value c = true <-> 0 <= c <= 55295 \/ 57344 <= c <= 1114111.
Proof.
  unfold Unicode.scalar_value.
  rewrite orb_true_iff, !andb_true_iff, !Z.leb_le. tauto.
Qed.

(** The encoding of a scalar value is in the table, and stands for it. *)
Lemma encode_in_table c :
  Unicode.scalar_value c = true ->
  Unicode.in_table (Unicode.utf8_encode c) /\
  Unicode.code_point (Unicode.utf8_encode c) = c.
Proof.
  intros Hc. apply scalar_value_spec in Hc. unfold Unicode.utf8_encode.
  destruct (Z.ltb_spec c 128); [|destruct (Z.ltb_spec c 2048);
    [|destruct (Z.ltb_spec c 65536)]];
    cbn [Unicode.in_table Unicode.code_point];
    Z.div_mod_to_equations; lia.
Qed.

(** A sequence of the table is the encoding of the scalar value it
    stands for. *)
Lemma table_encode l :
  Unicode.in_table l ->
  Unicode.scalar_value (Unicode.code_point l) = true /\
  l = Unicode.utf8_encode (Unicode.code_point l).
Proof.
  destruct l as [|b0 [|b1 [|b2 [|b3 [|b4 l]]]]];
    cbn [Unicode.in_table Unicode.code_point]; try contradiction; intros H.
  - split; [apply scalar_value_spec; lia|].
    unfold Unicode.utf8_encode. destruct (Z.ltb_spec b0 128); [reflexivity|lia].
  - split; [apply scalar_value_spec; lia|].
    unfold Unicode.utf8_encode.
    destruct (Z.ltb_spec ((b0 - 192) * 64 + (b1 - 128)) 128); [lia|].
    destruct (Z.ltb_spec ((b0 - 192) * 64 + (b1 - 128)) 2048); [|lia].
    f_equal; [|f_equal]; Z.div_mod_to_equations; lia.
  - split; [apply scalar_value_spec; lia|].
    unfold Unicode.utf8_encode.
    set (c := (b0 - 224) * 4096 + (b1 - 128) * 64 + (b2 - 128)).
    assert (Hc : c = (b0 - 224) * 4096 + (b1 - 128) * 64 + (b2 - 128)) by reflexivity.
    clearbody c.
    destruct (Z.ltb_spec c 128); [lia|].
    destruct (Z.ltb_spec c 2048); [lia|].
    destruct (Z.ltb_spec c 65536); [|lia].
    f_equal; [|f_equal; [|f_equal]]; Z.div_mod_to_equations; lia.
  - split; [apply scalar_value_spec; lia|].
    unfold Unicode.utf8_encode.
    set (c := (b0 - 240) * 262144 + (b1 - 128) * 4096 + (b2 - 128) * 64 + (b3 - 128)).
    assert (Hc : c = (b0 - 240) * 262144 + (b1 - 128) * 4096 + (b2 - 128) * 64 +
                     (b3 - 128)) by reflexivity.
    clearbody c.
    destruct (Z.ltb_spec c 128); [lia|].
    destruct (Z.ltb_spec c 2048); [lia|].
    destruct (Z.ltb_spec c 65536); [lia|].
    f_equal; [|f_equal; [|f_equal; [|f_equal]]]; Z.div_mod_to_equations; lia.
Qed.

(** The well-formed sequences are those of the table. *)
Lemma well_formed_table l : Unicode.well_formed l <-> Unicode.in_table l.
Proof.
  split.
  - intros (c & Hc & ->). apply encode_in_table, Hc.
  - intros H. exists (Unicode.code_point l). apply table_encode, H.
Qed.

(** ** Prefixes *)

Lemma prefix_refl (a : list Z) : Unicode.prefix a a.
Proof. exists []. rewrite app_nil_r. reflexivity. Qed.

Lemma prefix_app (a r : list Z) : Unicode.prefix a (a ++ r).
Proof. exists r. reflexivity. Qed.

Lemma prefix_trans (a b c : list Z) :
  Unicode.prefix a b -> Unicode.prefix b c -> Unicode.prefix a c.
Proof. intros [r ->] [t ->]. exists (r ++ t). rewrite app_assoc. reflexivity. Qed.

Lemma prefix_length (a p : list Z) : Unicode.prefix a p -> (length a <= length p)%nat.
Proof. intros [r ->]. rewrite length_app. lia. Qed.

Lemma prefix_firstn (a p : list Z) : Unicode.prefix a p -> a = firstn (length a) p.
Proof.
  intros [r ->]. rewrite firstn_app, Nat.sub_diag, firstn_all, firstn_O, app_nil_r.
  reflexivity.
Qed.

(** Two prefixes of one sequence: the shorter begins the longer. *)
Lemma prefix_comparable (a b p : list Z) :
  Unicode.prefix a p -> Unicode.prefix b p -> (length a <= length b)%nat ->
  Unicode.prefix a b.
Proof.
  intros Ha Hb Hl. rewrite (prefix_firstn a p Ha), (prefix_firstn b p Hb).
  exists (skipn (length a) (firstn (length b) p)).
  rewrite <- (firstn_skipn (length a) (firstn (length b) p)) at 1.
  rewrite firstn_firstn, Nat.min_l by exact Hl. reflexivity.
Qed.

Lemma prefix_same_length (a b p : list Z) :
  Unicode.prefix a p -> Unicode.prefix b p -> length a = length b -> a = b.
Proof.
  intros Ha Hb Hl. rewrite (prefix_firstn a p Ha), (prefix_firstn b p Hb), Hl.
  reflexivity.
Qed.

Lemma prefix_antisym (a b : list Z) :
  Unicode.prefix a b -> Unicode.prefix b a -> a = b.
Proof.
  intros Hab Hba. apply (prefix_same_length a b b Hab (prefix_refl b)).
  apply prefix_length in Hab, Hba. lia.
Qed.

Lemma prefix_cons_inv (x y : Z) (a b : list Z) :
  Unicode.prefix (x :: a) (y :: b) -> x = y /\ Unicode.prefix a b.
Proof. intros [r H]. injection H as -> ->. split; [reflexivity|apply prefix_app]. Qed.

Lemma prefix_nil_inv (a : list Z) : Unicode.prefix a [] -> a = [].
Proof. intros [r H]. symmetry in H. apply app_eq_nil in H. apply H. Qed.

Lemma initial_prefix (a b : list Z) :
  Unicode.prefix a b -> Unicode.initial_subsequence b -> Unicode.initial_subsequence a.
Proof. intros Hab (l & Hl & Hb). exists l. split; [exact Hl|]. eapply prefix_trans; eassumption. Qed.

Lemma well_formed_initial l : Unicode.well_formed l -> Unicode.initial_subsequence l.
Proof. intros H. exists l. split; [exact H|apply prefix_refl]. Qed.

Lemma well_formed_nonempty l : Unicode.well_formed l -> l <> [].
Proof. intros H ->. apply well_formed_table in H. exact H. Qed.

(** No well-formed sequence begins another one. *)
Lemma well_formed_prefix_free l l' :
  Unicode.well_formed l -> Unicode.well_formed l' -> Unicode.prefix l l' -> l = l'.
Proof.
  intros H H' [r ->]. apply well_formed_table in H, H'.
  destruct l as [|b0 [|b1 [|b2 [|b3 [|b4 l]]]]]; cbn [Unicode.in_table] in H;
    try contradiction;
    destruct r as [|x0 [|x1 [|x2 [|x3 r]]]]; cbn [app Unicode.in_table] in H' |- *;
    try reflexivity; try contradiction; exfalso; lia.
Qed.

(** What the table says about the beginnings of well-formed
    sequences. *)
Lemma initial_inv m :
  Unicode.initial_subsequence m ->
  match m with
  | [] => True
  | [x] => 0 <= x <= 127 \/ 194 <= x <= 244
  | [x; y] =>
      194 <= x <= 244 /\ 128 <= y <= 191 /\
      (x = 224 -> 160 <= y) /\ (x = 237 -> y <= 159) /\
      (x = 240 -> 144 <= y) /\ (x = 244 -> y <= 143)
  | [x; y; z] =>
      224 <= x <= 244 /\ 128 <= y <= 191 /\ 128 <= z <= 191 /\
      (x = 224 -> 160 <= y) /\ (x = 237 -> y <= 159) /\
      (x = 240 -> 144 <= y) /\ (x = 244 -> y <= 143)
  | [x; y; z; w] =>
      240 <= x <= 244 /\ 128 <= y <= 191 /\ 128 <= z <= 191 /\ 128 <= w <= 191 /\
      (x = 240 -> 144 <= y) /\ (x = 244 -> y <= 143)
  | _ => False
  end.
Proof.
  intros (l & Hl & r & ->). apply well_formed_table in Hl.
  destruct m as [|x [|y [|z [|w [|v m]]]]]; [exact I|..];
    destruct r as [|r0 [|r1 [|r2 [|r3 r]]]]; cbn [app Unicode.in_table] in Hl;
    try contradiction; lia.
Qed.

Lemma initial_intro l r : Unicode.in_table (l ++ r) -> Unicode.initial_subsequence l.
Proof. intros H. exists (l ++ r). split; [apply well_formed_table, H|apply prefix_app]. Qed.

(** The second byte that may follow a lead byte. *)
Lemma second_byte_ok_spec c0 c1 :
  second_byte_ok c0 c1 = true <->
  128 <= c1 <= 191 /\
  (c0 = 224 -> 160 <= c1) /\ (c0 = 237 -> c1 <= 159) /\
  (c0 = 240 -> 144 <= c1) /\ (c0 = 244 -> c1 <= 143).
Proof.
  unfold second_byte_ok, is_continuation.
  repeat match goal with |- context [if ?c =? ?k then _ else _] =>
           destruct (Z.eqb_spec c k) end;
    rewrite andb_true_iff, !Z.leb_le; lia.
Qed.

Lemma is_continuation_spec c : is_continuation c = true <-> 128 <= c <= 191.
Proof. unfold is_continuation. rewrite andb_true_iff, !Z.leb_le. tauto. Qed.

(** ** Replacing a maximal subpart *)

(** A byte that begins no well-formed sequence is replaced alone. *)
Lemma replaced_single x r s :
  ~ Unicode.initial_subsequence [x] ->
  Unicode.replaced r s ->
  Unicode.replaced (x :: r) (REPLACEMENT_CHARACTER :: s).
Proof.
  intros Hx Hr. apply (Unicode.replaced_subpart [x] r s); [| |exact Hr].
  - intros l Hl Hp. apply Hx.
    destruct l as [|y l]; [destruct (well_formed_nonempty _ Hl eq_refl)|].
    apply prefix_cons_inv in Hp as [-> _].
    apply (initial_prefix [x] (x :: l)); [exists l; reflexivity|].
    apply well_formed_initial, Hl.
  - split; [apply (prefix_app [x])|]. split; [right; reflexivity|].
    intros m' Hp [[Hne Hi]|Hlen]; [|cbn [length]; lia].
    exfalso. apply Hx.
    destruct m' as [|y m']; [congruence|].
    apply prefix_cons_inv in Hp as [-> _].
    apply (initial_prefix [x] (x :: m')); [exists m'; reflexivity|exact Hi].
Qed.

(** A well-formed sequence that begins a proper beginning of one is
    impossible: the table fixes the length by the first byte. *)
Lemma no_short_well_formed m l :
  Unicode.initial_subsequence m -> ~ Unicode.well_formed m ->
  Unicode.well_formed l -> Unicode.prefix l m -> l = m.
Proof.
  intros (l' & Hl' & Hm) Hnw Hl Hp.
  assert (E : l = l')
    by (apply well_formed_prefix_free; [exact Hl|exact Hl'|eapply prefix_trans; eassumption]).
  subst l'. apply prefix_antisym; assumption.
Qed.

(** A beginning of a well-formed sequence that the next byte does not
    continue is replaced as a whole, and the conversion goes on at that
    byte. *)
Lemma replaced_broken m x r s :
  m <> [] -> Unicode.initial_subsequence m -> ~ Unicode.well_formed m ->
  ~ Unicode.initial_subsequence (m ++ [x]) ->
  Unicode.replaced (x :: r) s ->
  Unicode.replaced (m ++ x :: r) (REPLACEMENT_CHARACTER :: s).
Proof.
  intros Hne Hi Hnw Hx Hr.
  pose proof (fun l => no_short_well_formed m l Hi Hnw) as Hshort.
  assert (Hlong : forall a, Unicode.prefix a (m ++ x :: r) ->
            (length m < length a)%nat -> Unicode.prefix (m ++ [x]) a).
  { intros a Ha Hl. apply (prefix_comparable _ _ (m ++ x :: r)).
    - exists r. rewrite <- app_assoc. reflexivity.
    - exact Ha.
    - rewrite length_app. cbn [length]. lia. }
  apply (Unicode.replaced_subpart m (x :: r) s); [| |exact Hr].
  - intros l Hl Hp.
    destruct (Nat.le_gt_cases (length l) (length m)) as [Hle|Hgt].
    + apply Hnw. rewrite <- (Hshort l Hl); [exact Hl|].
      apply (prefix_comparable _ _ (m ++ x :: r) Hp (prefix_app m _) Hle).
    + apply Hx. apply (initial_prefix _ l (Hlong l Hp Hgt)).
      apply well_formed_initial, Hl.
  - split; [apply prefix_app|]. split; [left; split; assumption|].
    intros m' Hp Hc.
    destruct (Nat.le_gt_cases (length m') (length m)) as [Hle|Hgt]; [exact Hle|].
    exfalso. destruct Hc as [[_ Hi']|Hlen].
    + apply Hx. apply (initial_prefix _ m' (Hlong m' Hp Hgt) Hi').
    + destruct m; [congruence|cbn [length] in Hgt; lia].
Qed.

(** The same at the end of the input. *)
Lemma replaced_truncated m :
  m <> [] -> Unicode.initial_subsequence m -> ~ Unicode.well_formed m ->
  Unicode.replaced m [REPLACEMENT_CHARACTER].
Proof.
  intros Hne Hi Hnw.
  pose proof (fun l => no_short_well_formed m l Hi Hnw) as Hshort.
  rewrite <- (app_nil_r m) at 1.
  apply (Unicode.replaced_subpart m [] []); [| |apply Unicode.replaced_end].
  - rewrite app_nil_r. intros l Hl Hp. apply Hnw.
    rewrite <- (Hshort l Hl Hp). exact Hl.
  - rewrite app_nil_r. split; [apply prefix_refl|]. split; [left; split; assumption|].
    intros m' Hp _. apply prefix_length, Hp.
Qed.

(** ** The steps of the decoder *)

Lemma byte_val_nonneg b : 0 <= byte_val b.
Proof. unfold byte_val. lia. Qed.

Lemma bits_mod c k : 0 <= k -> bits c (Z.ones k) = c mod 2 ^ k.
Proof. intros Hk. unfold bits. apply Z.land_ones. exact Hk. Qed.

Lemma bits_nonneg c m : 0 <= m -> 0 <= bits c m.
Proof. intros Hm. unfold bits. apply Z.land_nonneg. right. exact Hm. Qed.

Lemma shifted_bits_nonneg c m k : 0 <= m -> 0 <= k -> 0 <= Z.shiftl (bits c m) k.
Proof. intros Hm Hk. apply Z.shiftl_nonneg, bits_nonneg. exact Hm. Qed.

(** Bits put below a shifted number are added to it. *)
Lemma lor_shiftl_add a b k :
  0 <= a -> 0 <= k -> 0 <= b < 2 ^ k -> Z.lor (Z.shiftl a k) b = a * 2 ^ k + b.
Proof.
  intros Ha Hk Hb.
  assert (Hl : Z.land (Z.shiftl a k) b = 0).
  { apply Z.bits_inj'. intros n Hn. rewrite Z.land_spec, Z.bits_0.
    destruct (Z.lt_ge_cases n k) as [Hlt|Hge].
    - rewrite Z.shiftl_spec_low by exact Hlt. reflexivity.
    - destruct (Z.eq_dec b 0) as [->|Hb0]; [rewrite Z.bits_0; apply andb_false_r|].
      rewrite (Z.bits_above_log2 b n); [apply andb_false_r|lia|].
      apply Z.lt_le_trans with k; [|exact Hge].
      apply Z.log2_lt_pow2; lia. }
  rewrite <- Z.lxor_lor by exact Hl.
  rewrite <- Z.add_nocarry_lxor by exact Hl.
  rewrite Z.shiftl_mul_pow2 by exact Hk. reflexivity.
Qed.

Lemma bits_31 x : 192 <= x <= 223 -> bits x 31 = x - 192.
Proof.
  intros H. change 31 with (Z.ones 5). rewrite bits_mod by lia.
  change (2 ^ 5) with 32. Z.div_mod_to_equations. lia.
Qed.

Lemma bits_15 x : 224 <= x <= 239 -> bits x 15 = x - 224.
Proof.
  intros H. change 15 with (Z.ones 4). rewrite bits_mod by lia.
  change (2 ^ 4) with 16. Z.div_mod_to_equations. lia.
Qed.

Lemma bits_7 x : 240 <= x <= 247 -> bits x 7 = x - 240.
Proof.
  intros H. change 7 with (Z.ones 3). rewrite bits_mod by lia.
  change (2 ^ 3) with 8. Z.div_mod_to_equations. lia.
Qed.

Lemma bits_63 x : 128 <= x <= 191 -> bits x 63 = x - 128.
Proof.
  intros H. change 63 with (Z.ones 6). rewrite bits_mod by lia.
  change (2 ^ 6) with 64. Z.div_mod_to_equations. lia.
Qed.

(** The number the decoder puts together is the scalar value of the
    sequence. *)
Lemma value_2 x y :
  192 <= x <= 223 -> 128 <= y <= 191 ->
  Z.lor (Z.shiftl (bits x 31) 6) (bits y 63) = Unicode.code_point [x; y].
Proof.
  intros Hx Hy. rewrite bits_31, bits_63 by assumption.
  rewrite lor_shiftl_add by (change (2 ^ 6) with 64; lia).
  reflexivity.
Qed.

Lemma value_3 x y z :
  224 <= x <= 239 -> 128 <= y <= 191 -> 128 <= z <= 191 ->
  Z.lor (Z.shiftl (bits x 15) 12)
        (Z.lor (Z.shiftl (bits y 63) 6) (bits z 63)) =
  Unicode.code_point [x; y; z].
Proof.
  intros Hx Hy Hz. rewrite bits_15, !bits_63 by assumption.
  rewrite (lor_shiftl_add (y - 128)) by (change (2 ^ 6) with 64; lia).
  rewrite lor_shiftl_add by (change (2 ^ 6) with 64; change (2 ^ 12) with 4096; lia).
  change (2 ^ 6) with 64. change (2 ^ 12) with 4096.
  cbn [Unicode.code_point]. lia.
Qed.

Lemma value_4 x y z w :
  240 <= x <= 247 -> 128 <= y <= 191 -> 128 <= z <= 191 -> 128 <= w <= 191 ->
  Z.lor (Z.shiftl (bits x 7) 18)
        (Z.lor (Z.shiftl (bits y 63) 12)
               (Z.lor (Z.shiftl (bits z 63) 6) (bits w 63))) =
  Unicode.code_point [x; y; z; w].
Proof.
  intros Hx Hy Hz Hw. rewrite bits_7, !bits_63 by assumption.
  rewrite (lor_shiftl_add (z - 128)) by (change (2 ^ 6) with 64; lia).
  rewrite (lor_shiftl_add (y - 128))
    by (change (2 ^ 6) with 64; change (2 ^ 12) with 4096; lia).
  rewrite lor_shiftl_add
    by (change (2 ^ 6) with 64; change (2 ^ 12) with 4096;
        change (2 ^ 18) with 262144; lia).
  change (2 ^ 6) with 64. change (2 ^ 12) with 4096. change (2 ^ 18) with 262144.
  cbn [Unicode.code_point]. lia.
Qed.

(** A sequence of the table is converted to its scalar value. *)
Lemma replaced_table l r s :
  Unicode.in_table l -> Unicode.replaced r s ->
  Unicode.replaced (l ++ r) (Unicode.code_point l :: s).
Proof.
  intros Hl Hr. destruct (table_encode l Hl) as [Hc He].
  rewrite He at 1. apply Unicode.replaced_scalar; assumption.
Qed.

Lemma decoded_1 x r s :
  0 <= x <= 127 -> Unicode.replaced r s -> Unicode.replaced (x :: r) (x :: s).
Proof. intros Hx Hr. apply (replaced_table [x] r s); [exact Hx|exact Hr]. Qed.

Lemma decoded_2 x y r s :
  194 <= x <= 223 /\ 128 <= y <= 191 ->
  Unicode.replaced r s ->
  Unicode.replaced (x :: y :: r)
    (Z.lor (Z.shiftl (bits x 31) 6) (bits y 63) :: s).
Proof.
  intros H Hr. rewrite value_2 by lia.
  apply (replaced_table [x; y] r s); [exact H|exact Hr].
Qed.

Lemma decoded_3 x y z r s :
  224 <= x <= 239 /\ 128 <= y <= 191 /\ 128 <= z <= 191 /\
  (x = 224 -> 160 <= y) /\ (x = 237 -> y <= 159) ->
  Unicode.replaced r s ->
  Unicode.replaced (x :: y :: z :: r)
    (Z.lor (Z.shiftl (bits x 15) 12)
           (Z.lor (Z.shiftl (bits y 63) 6) (bits z 63)) :: s).
Proof.
  intros H Hr. rewrite value_3 by lia.
  apply (replaced_table [x; y; z] r s); [exact H|exact Hr].
Qed.

Lemma decoded_4 x y z w r s :
  240 <= x <= 244 /\ 128 <= y <= 191 /\ 128 <= z <= 191 /\ 128 <= w <= 191 /\
  (x = 240 -> 144 <= y) /\ (x = 244 -> y <= 143) ->
  Unicode.replaced r s ->
  Unicode.replaced (x :: y :: z :: w :: r)
    (Z.lor (Z.shiftl (bits x 7) 18)
           (Z.lor (Z.shiftl (bits y 63) 12)
                  (Z.lor (Z.shiftl (bits z 63) 6) (bits w 63))) :: s).
Proof.
  intros H Hr. rewrite value_4 by lia.
  apply (replaced_table [x; y; z; w] r s); [exact H|exact Hr].
Qed.

(** The beginnings of well-formed sequences, by their bytes. *)
Lemma initial_lead x : 194 <= x <= 244 -> Unicode.initial_subsequence [x].
Proof.
  intros H.
  destruct (Z.le_gt_cases x 223); [apply (initial_intro [x] [128]); cbn; lia|].
  destruct (Z.eq_dec x 224); [apply (initial_intro [x] [160; 128]); cbn; lia|].
  destruct (Z.le_gt_cases x 239); [apply (initial_intro [x] [128; 128]); cbn; lia|].
  destruct (Z.eq_dec x 240); [apply (initial_intro [x] [144; 128; 128]); cbn; lia|].
  apply (initial_intro [x] [128; 128; 128]); cbn; lia.
Qed.

Lemma initial_pair x y :
  224 <= x <= 244 /\ 128 <= y <= 191 /\
  (x = 224 -> 160 <= y) /\ (x = 237 -> y <= 159) /\
  (x = 240 -> 144 <= y) /\ (x = 244 -> y <= 143) ->
  Unicode.initial_subsequence [x; y].
Proof.
  intros H.
  destruct (Z.le_gt_cases x 239); [apply (initial_intro [x; y] [128]); cbn; lia|].
  apply (initial_intro [x; y] [128; 128]); cbn; lia.
Qed.

Lemma initial_triple x y z :
  240 <= x <= 244 /\ 128 <= y <= 191 /\ 128 <= z <= 191 /\
  (x = 240 -> 144 <= y) /\ (x = 244 -> y <= 143) ->
  Unicode.initial_subsequence [x; y; z].
Proof. intros H. apply (initial_intro [x; y; z] [128]); cbn; lia. Qed.

Lemma not_well_formed l : ~ Unicode.in_table l -> ~ Unicode.well_formed l.
Proof. intros H Hw. apply H, well_formed_table, Hw. Qed.

(** The malformed sequences the decoder meets. *)
Lemma replaced_invalid_start x r s :
  x < 0 \/ 128 <= x <= 193 \/ 245 <= x ->
  Unicode.replaced r s ->
  Unicode.replaced (x :: r) (REPLACEMENT_CHARACTER :: s).
Proof.
  intros Hx Hr. apply replaced_single; [|exact Hr].
  intros Hi. apply initial_inv in Hi. lia.
Qed.

Lemma replaced_broken_1 x y r s :
  194 <= x <= 244 /\
  ~ (128 <= y <= 191 /\
     (x = 224 -> 160 <= y) /\ (x = 237 -> y <= 159) /\
     (x = 240 -> 144 <= y) /\ (x = 244 -> y <= 143)) ->
  Unicode.replaced (y :: r) s ->
  Unicode.replaced (x :: y :: r) (REPLACEMENT_CHARACTER :: s).
Proof.
  intros H Hr. apply (replaced_broken [x] y r s); [discriminate| | | |exact Hr].
  - apply initial_lead. lia.
  - apply not_well_formed. cbn. lia.
  - intros Hi. apply initial_inv in Hi. cbn [app] in Hi. lia.
Qed.

Lemma replaced_broken_2 x y z r s :
  224 <= x <= 244 /\ 128 <= y <= 191 /\
  (x = 224 -> 160 <= y) /\ (x = 237 -> y <= 159) /\
  (x = 240 -> 144 <= y) /\ (x = 244 -> y <= 143) /\
  ~ 128 <= z <= 191 ->
  Unicode.replaced (z :: r) s ->
  Unicode.replaced (x :: y :: z :: r) (REPLACEMENT_CHARACTER :: s).
Proof.
  intros H Hr. apply (replaced_broken [x; y] z r s); [discriminate| | | |exact Hr].
  - apply initial_pair. lia.
  - apply not_well_formed. cbn. lia.
  - intros Hi. apply initial_inv in Hi. cbn [app] in Hi. lia.
Qed.

Lemma replaced_broken_3 x y z w r s :
  240 <= x <= 244 /\ 128 <= y <= 191 /\ 128 <= z <= 191 /\
  (x = 240 -> 144 <= y) /\ (x = 244 -> y <= 143) /\
  ~ 128 <= w <= 191 ->
  Unicode.replaced (w :: r) s ->
  Unicode.replaced (x :: y :: z :: w :: r) (REPLACEMENT_CHARACTER :: s).
Proof.
  intros H Hr. apply (replaced_broken [x; y; z] w r s); [discriminate| | | |exact Hr].
  - apply initial_triple. lia.
  - apply not_well_formed. cbn. lia.
  - intros Hi. apply initial_inv in Hi. cbn [app] in Hi. lia.
Qed.

Lemma replaced_truncated_1 x :
  194 <= x <= 244 -> Unicode.replaced [x] [REPLACEMENT_CHARACTER].
Proof.
  intros H. apply replaced_truncated; [discriminate|apply initial_lead; lia|].
  apply not_well_formed. cbn. lia.
Qed.

Lemma replaced_truncated_2 x y :
  224 <= x <= 244 /\ 128 <= y <= 191 /\
  (x = 224 -> 160 <= y) /\ (x = 237 -> y <= 159) /\
  (x = 240 -> 144 <= y) /\ (x = 244 -> y <= 143) ->
  Unicode.replaced [x; y] [REPLACEMENT_CHARACTER].
Proof.
  intros H. apply replaced_truncated; [discriminate|apply initial_pair; lia|].
  apply not_well_formed. cbn. lia.
Qed.

Lemma replaced_truncated_3 x y z :
  240 <= x <= 244 /\ 128 <= y <= 191 /\ 128 <= z <= 191 /\
  (x = 240 -> 144 <= y) /\ (x = 244 -> y <= 143) ->
  Unicode.replaced [x; y; z] [REPLACEMENT_CHARACTER].
Proof.
  intros H. apply replaced_truncated; [discriminate|apply initial_triple; lia|].
  apply not_well_formed. cbn. lia.
Qed.

(** ** The decoder computes the conversion *)

Lemma decode_error_replace_inv reason r s :
  decode_error Replace reason r = Ok s ->
  exists s', r = Ok s' /\ s = REPLACEMENT_CHARACTER :: s'.
Proof. destruct r; cbn; [intros [= <-]; eauto|discriminate]. Qed.

(** One unfolding of the decoder, with the tests of each leaf kept. *)
Ltac decode_leaves p :=
  destruct p as [|?b0 ?r0]; [|cbn [utf8_decode]; cbv zeta;
    repeat match goal with
           | |- context [if ?c then _ else _] => destruct c eqn:?
           | |- context [match ?l with [] => _ | _ :: _ => _ end] =>
               is_var l; destruct l
           end].

(** The tests of a leaf as inequalities. *)
Ltac leaf_arith :=
  repeat match goal with
         | E : (_ <? _) = true |- _ => apply Z.ltb_lt in E
         | E : (_ <? _) = false |- _ => apply Z.ltb_ge in E
         | E : is_continuation _ = true |- _ => apply is_continuation_spec in E
         | E : is_continuation _ = false |- _ =>
             apply not_true_iff_false in E; rewrite is_continuation_spec in E
         | E : second_byte_ok _ _ = true |- _ => apply second_byte_ok_spec in E
         | E : second_byte_ok _ _ = false |- _ =>
             apply not_true_iff_false in E; rewrite second_byte_ok_spec in E
         end.

Lemma utf8_decode_replaced_bounded (n : nat) :
  forall p s, (length p <= n)%nat ->
    utf8_decode Replace p = Ok s -> Unicode.replaced (map byte_val p) s.
Proof.
  induction n as [|n IH]; intros p s Hp.
  - destruct p; [intros [= <-]; apply Unicode.replaced_end|cbn in Hp; lia].
  - decode_leaves p; [intros [= <-]; apply Unicode.replaced_end|..];
      intros H;
      first [ apply decoded_inv in H as (s' & H & ->)
            | apply decode_error_replace_inv in H as (s' & H & ->) ];
      first [ injection H as <-
            | apply IH in H; [|cbn [length] in *; lia] ];
      pose proof (byte_val_nonneg b0);
      leaf_arith; cbn [map] in *;
      first [ apply decoded_1; [lia|exact H]
            | apply decoded_2; [lia|exact H]
            | apply decoded_3; [lia|exact H]
            | apply decoded_4; [lia|exact H]
            | apply replaced_invalid_start; [lia|exact H]
            | apply replaced_broken_1; [lia|exact H]
            | apply replaced_broken_2; [lia|exact H]
            | apply replaced_broken_3; [lia|exact H]
            | apply replaced_truncated_1; lia
            | apply replaced_truncated_2; lia
            | apply replaced_truncated_3; lia ].
Qed.

(** The text the replacing decoder returns is the conversion of the
    payload in the standard's words. *)
Lemma utf8_decode_replaced p s :
  utf8_decode Replace p = Ok s -> Unicode.replaced (map byte_val p) s.
Proof. apply (utf8_decode_replaced_bounded (length p)). lia. Qed.

(** ** The conversion is a function *)

Lemma encode_well_formed c :
  Unicode.scalar_value c = true -> Unicode.well_formed (Unicode.utf8_encode c).
Proof. intros Hc. exists c. split; [exact Hc|reflexivity]. Qed.

(** Two scalar values with encodings that begin the same input are the
    same, and so is what follows them. *)
Lemma encode_app_inj c c' r r' :
  Unicode.scalar_value c = true -> Unicode.scalar_value c' = true ->
  Unicode.utf8_encode c ++ r = Unicode.utf8_encode c' ++ r' ->
  c = c' /\ r = r'.
Proof.
  intros Hc Hc' E.
  assert (El : Unicode.utf8_encode c = Unicode.utf8_encode c').
  { destruct (Nat.le_ge_cases (length (Unicode.utf8_encode c))
                              (length (Unicode.utf8_encode c'))) as [Hl|Hl].
    - apply well_formed_prefix_free; try (apply encode_well_formed; assumption).
      apply (prefix_comparable _ _ (Unicode.utf8_encode c ++ r));
        [apply prefix_app|rewrite E; apply prefix_app|exact Hl].
    - symmetry.
      apply well_formed_prefix_free; try (apply encode_well_formed; assumption).
      apply (prefix_comparable _ _ (Unicode.utf8_encode c ++ r));
        [rewrite E; apply prefix_app|apply prefix_app|exact Hl]. }
  split.
  - rewrite <- (proj2 (encode_in_table c Hc)), <- (proj2 (encode_in_table c' Hc')), El.
    reflexivity.
  - rewrite El in E. apply app_inv_head in E. exact E.
Qed.

Lemma maximal_subpart_unique m m' p :
  Unicode.maximal_subpart m p -> Unicode.maximal_subpart m' p -> m = m'.
Proof.
  intros (Hp & Hc & Hmax) (Hp' & Hc' & Hmax').
  apply (prefix_same_length m m' p Hp Hp').
  specialize (Hmax m' Hp' Hc'). specialize (Hmax' m Hp Hc). lia.
Qed.

Lemma candidate_nonempty m : Unicode.candidate m -> m <> [].
Proof. intros [[H _]|H]; [exact H|intros ->; discriminate H]. Qed.

(** An input has one conversion only. *)
Lemma replaced_unique p s :
  Unicode.replaced p s -> forall s', Unicode.replaced p s' -> s = s'.
Proof.
  induction 1 as [|c r s Hc Hr IH|m r s Hill Hmax Hr IH]; intros s' H'.
  - inversion H' as [|c' r' t' Hc' Hr' E|m' r' t' Hill' Hmax' Hr' E].
    + reflexivity.
    + exfalso. apply app_eq_nil in E as [E _].
      apply (well_formed_nonempty _ (encode_well_formed c' Hc') E).
    + exfalso. apply app_eq_nil in E as [E _].
      destruct Hmax' as (_ & Hc' & _). apply (candidate_nonempty _ Hc' E).
  - remember (Unicode.utf8_encode c ++ r) as p eqn:Ep.
    destruct H' as [|c' r' t' Hc' Hr'|m' r' t' Hill' Hmax' Hr'].
    + exfalso. symmetry in Ep. apply app_eq_nil in Ep as [E _].
      apply (well_formed_nonempty _ (encode_well_formed c Hc) E).
    + symmetry in Ep. apply encode_app_inj in Ep as [-> ->]; [|assumption..].
      f_equal. apply IH, Hr'.
    + exfalso. apply (Hill' (Unicode.utf8_encode c) (encode_well_formed c Hc)).
      rewrite Ep. apply prefix_app.
  - remember (m ++ r) as p eqn:Ep.
    destruct H' as [|c' r' t' Hc' Hr'|m' r' t' Hill' Hmax' Hr'].
    + exfalso. symmetry in Ep. apply app_eq_nil in Ep as [E _].
      destruct Hmax as (_ & Hc & _). apply (candidate_nonempty _ Hc E).
    + exfalso. apply (Hill (Unicode.utf8_encode c') (encode_well_formed c' Hc')).
      apply prefix_app.
    + assert (Em : m = m').
      { apply (maximal_subpart_unique m m' (m' ++ r')); [exact Hmax|exact Hmax']. }
      subst m'. apply app_inv_head in Ep. subst r'.
      f_equal. apply IH, Hr'.
Qed.

(** A concatenation of encodings is converted to the scalar values
    that were encoded. *)
Lemma replaced_encoded s :
  Forall (fun c => Unicode.scalar_value c = true) s ->
  Unicode.replaced (flat_map Unicode.utf8_encode s) s.
Proof.
  induction 1 as [|c s Hc _ IH]; cbn [flat_map];
    [apply Unicode.replaced_end|apply Unicode.replaced_scalar; assumption].
Qed.

(** A payload is the encoding of its text, or the text holds U+FFFD. *)
Lemma replaced_encoded_or_marked p s :
  Unicode.replaced p s ->
  (Forall (fun c => Unicode.scalar_value c = true) s /\
   p = flat_map Unicode.utf8_encode s) \/
  In REPLACEMENT_CHARACTER s.
Proof.
  induction 1 as [|c r s Hc Hr IH|m r s Hill Hmax Hr IH].
  - left. split; [constructor|reflexivity].
  - destruct IH as [[Hs ->]|Hin]; [left|right; right; exact Hin].
    split; [constructor; assumption|reflexivity].
  - right. left. reflexivity.
Qed.

(** The decoder on well-formed and on malformed input: two and four
    byte sequences, a surrogate, an overlong form, a sequence cut short
    by an ASCII byte and one cut short by the end. *)
Example utf8_decode_cases :
  utf8_decode Replace (bytes_of [195; 169; 240; 159; 152; 128]) = Ok [233; 128512] /\
  utf8_decode Replace (bytes_of [237; 160; 128]) =
    Ok [REPLACEMENT_CHARACTER; REPLACEMENT_CHARACTER; REPLACEMENT_CHARACTER] /\
  utf8_decode Replace (bytes_of [192; 175]) =
    Ok [REPLACEMENT_CHARACTER; REPLACEMENT_CHARACTER] /\
  utf8_decode Replace (bytes_of [240; 144; 128; 65]) = Ok [REPLACEMENT_CHARACTER; 65] /\
  utf8_decode Replace (bytes_of [79; 75; 226; 130]) = Ok [79; 75; REPLACEMENT_CHARACTER] /\
  Unicode.utf8_encode 128512 = [240; 159; 152; 128].
Proof. split; [|split; [|split; [|split; [|split]]]]; vm_compute; reflexivity. Qed.

(** * Rendering of one message *)

Lemma record_record a b st : record b (record a st) = record (a ++ b) st.
Proof. unfold record. cbn [trace userdata sigint_installed]. rewrite app_assoc. reflexivity. Qed.

Lemma record_inj a b st : record a st = record b st -> a = b.
Proof.
  unfold record. intros H. apply (f_equal trace) in H. cbn [trace] in H.
  apply app_inv_head in H. exact H.
Qed.

Lemma on_message_text ts msg st text :
  endswith (msg_topic msg) (lit "/status") && is_mostly_text (msg_payload msg) = true ->
  utf8_decode Replace (msg_payload msg) = Ok text ->
  on_message ts msg st =
    (Ok tt, record [Print (message_info ts msg ++ lit ": " ++ text)] st).
Proof.
  intros Hc Hd. unfold on_message, try_except, bind, lift, print, emit.
  rewrite Hc, Hd. reflexivity.
Qed.

Lemma on_message_dump ts msg st :
  endswith (msg_topic msg) (lit "/status") && is_mostly_text (msg_payload msg) = false ->
  on_message ts msg st =
    (Ok tt, record [Print (message_info ts msg); Print (hexdump (msg_payload msg))] st).
Proof.
  intros Hc. unfold on_message, try_except, bind, lift, print, emit.
  rewrite Hc. rewrite record_record. reflexivity.
Qed.

(** C1. A message is rendered as decoded text exactly when its topic
    ends with "/status" and its payload is mostly text, and as header
    plus hex dump otherwise. The text is the conversion of the payload
    from UTF-8 as the Unicode standard words it: every well-formed
    sequence gives its scalar value, and wherever no well-formed
    sequence begins, the maximal subpart of the ill-formed sequence
    gives one U+FFFD. The conversion exists for every payload and is
    the only one; a payload that encodes scalar values is converted to
    just these, and the text of any other payload holds U+FFFD. The
    text equals the strict decoding where that succeeds. The callback
    never raises. *)
Theorem on_message_render (ts : str) (msg : MQTTMessage) (st : state) :
  let status_text :=
    endswith (msg_topic msg) (lit "/status") && is_mostly_text (msg_payload msg) in
  let info := message_info ts msg in
  let bytes := map byte_val (msg_payload msg) in
  exists text,
    utf8_decode Replace (msg_payload msg) = Ok text /\
    Unicode.replaced bytes text /\
    (forall text', Unicode.replaced bytes text' -> text' = text) /\
    (forall s, Forall (fun c => Unicode.scalar_value c = true) s ->
               bytes = flat_map Unicode.utf8_encode s -> text = s) /\
    ((Forall (fun c => Unicode.scalar_value c = true) text /\
      bytes = flat_map Unicode.utf8_encode text) \/
     In REPLACEMENT_CHARACTER text) /\
    (forall s, utf8_decode Strict (msg_payload msg) = Ok s -> text = s) /\
    (forall e, utf8_decode Strict (msg_payload msg) = Raise e ->
               In REPLACEMENT_CHARACTER text) /\
    on_message ts msg st =
      (Ok tt, record (if status_text
                      then [Print (info ++ lit ": " ++ text)]
                      else [Print info; Print (hexdump (msg_payload msg))]) st) /\
    (on_message ts msg st = (Ok tt, record [Print (info ++ lit ": " ++ text)] st)
     <-> status_text = true).
Proof.
  intros status_text info bytes.
  destruct (utf8_decode_replace_total (msg_payload msg)) as [text Hd].
  pose proof (utf8_decode_replaced _ _ Hd) as Hr. fold bytes in Hr.
  exists text. split; [exact Hd|]. split; [exact Hr|].
  split; [|split; [|split; [|split; [|split; [|split]]]]].
  - intros text' Hr'. apply (replaced_unique bytes text' Hr' text Hr).
  - intros s Hs Hb. apply (replaced_unique bytes text Hr).
    rewrite Hb. apply replaced_encoded, Hs.
  - apply replaced_encoded_or_marked, Hr.
  - intros s Hs. apply utf8_decode_strict_replace in Hs. congruence.
  - intros e He. apply utf8_decode_invalid_replaced in He as (s & Hs & Hin). congruence.
  - destruct status_text eqn:Hc.
    + apply on_message_text; assumption.
    + apply on_message_dump; assumption.
  - split.
    + intros H. destruct status_text eqn:Hc; [reflexivity|].
      rewrite (on_message_dump ts msg st Hc) in H.
      apply (f_equal snd) in H. cbn [snd] in H.
      apply record_inj in H. discriminate H.
    + intros Hc. apply on_message_text; assumption.
Qed.

(** The end-to-end case of the specification: ["OK"] on a status topic
    is one console line that ends in [": OK"]. *)
Example on_message_status_ok :
  let msg := {| msg_topic := lit "boats/x/status";
                msg_payload := bytes_of [79; 75];
                msg_qos := 1 |} in
  console (trace (snd (on_message (lit "2025-01-01 00:00:00") msg initial))) =
    lit "[2025-01-01 00:00:00] boats/x/status (QoS 1, 2 bytes): OK" ++ NL.
Proof. vm_compute. reflexivity. Qed.

(** C10. The dump of the empty payload has no row and is the empty
    string, so an empty message on a topic that does not end with
    "/status" prints its header line and then one empty line. *)
Theorem empty_payload_dump (ts : str) (msg : MQTTMessage) (st : state) :
  msg_payload msg = [] ->
  endswith (msg_topic msg) (lit "/status") = false ->
  hexdump [] = [] /\
  dump_lines [] = [] /\
  on_message ts msg st =
    (Ok tt, record [Print (message_info ts msg); Print []] st) /\
  console [Print (message_info ts msg); Print []] =
    message_info ts msg ++ NL ++ NL.
Proof.
  intros Hp Ht. split; [reflexivity|]. split; [reflexivity|]. split.
  - rewrite on_message_dump by (rewrite Ht; reflexivity).
    rewrite Hp. reflexivity.
  - cbn [console app]. reflexivity.
Qed.

Lemma empty_payload_dump_witness :
  let msg := {| msg_topic := lit "boats/x/from_vehicle";
                msg_payload := [];
                msg_qos := 1 |} in
  msg_payload msg = [] /\
  endswith (msg_topic msg) (lit "/status") = false /\
  console (trace (snd (on_message (lit "T") msg initial))) =
    lit "[T] boats/x/from_vehicle (QoS 1, 0 bytes)" ++ NL ++ NL.
Proof.
  cbv zeta. split; [reflexivity|]. split; [reflexivity|].
  rewrite (proj1 (proj2 (proj2
    (empty_payload_dump (lit "T")
       {| msg_topic := lit "boats/x/from_vehicle"; msg_payload := []; msg_qos := 1 |}
       initial eq_refl eq_refl)))).
  reflexivity.
Defined.

(** * Topic planner *)

(** C6. The topics of a boat and the wildcard topics are the three
    lists of the specification, in the order from_vehicle, to_vehicle,
    status; both are functions of their argument alone. *)
Theorem topic_planner (x : str) :
  topics_for_boat x =
    [ lit "boats/" ++ x ++ lit "/from_vehicle";
      lit "boats/" ++ x ++ lit "/to_vehicle";
      lit "boats/" ++ x ++ lit "/status" ] /\
  wildcard_topics =
    [ lit "boats/+/from_vehicle"; lit "boats/+/to_vehicle"; lit "boats/+/status" ] /\
  topics_for_boat (lit "x") =
    [ lit "boats/x/from_vehicle"; lit "boats/x/to_vehicle"; lit "boats/x/status" ] /\
  wildcard_topics = topics_for_boat (lit "+").
Proof.
  split; [|split; [|split]]; reflexivity.
Qed.

(** * Address resolver *)

Lemma str_eqb_eq a b : str_eqb a b = true <-> a = b.
Proof.
  unfold str_eqb. destruct (list_eq_dec Z.eq_dec a b); split; congruence.
Qed.

Section ResolverFacts.

Variable urlparse : str -> result ParseResult.

(** C5. A host string without "://" is returned as the host; the
    port is the explicit port, or 8883 without one; encryption is on
    exactly when that port is 8883. *)
Theorem bare_hostname (host : str) (port_arg : option Z) :
  contains (lit "://") host = false ->
  exists p tls,
    parse_host_port urlparse host port_arg = Ok (host, p, tls) /\
    p = match port_arg with None => 8883 | Some q => q end /\
    (tls = true <-> p = 8883).
Proof.
  intros Hbare. unfold parse_host_port. rewrite Hbare.
  eexists _, _. split; [reflexivity|]. split; [reflexivity|].
  apply Z.eqb_eq.
Qed.

Lemma url_parser_error (host : str) (port_arg : option Z) (e : exception) :
  contains (lit "://") host = true ->
  urlparse host = Raise e ->
  parse_host_port urlparse host port_arg = Raise e.
Proof. intros Hc Hu. unfold parse_host_port. rewrite Hc, Hu. reflexivity. Qed.

Lemma recognised_existsb sch :
  existsb (str_eqb sch) [lit "ssl"; lit "tcp"] = recognised sch.
Proof. unfold recognised. cbn [existsb]. rewrite orb_false_r. reflexivity. Qed.

(** C4, as amended. For a host string with "://" that the URL parser
    accepts: an unrecognised scheme makes the resolver fail with the
    error that names it, and the resolver returns a triple only for
    ssl and tcp. For these, encryption is on exactly for ssl, and the
    port is the explicit port, else the embedded port when it is
    present and not 0, else 8883 for ssl and 1883 for tcp. The
    embedded port is read only when no explicit port is given: then
    an embedded port the parser rejects makes the resolver fail with
    the parser's error, while with an explicit port the resolver
    returns that port whatever the embedded port is. *)
Theorem url_resolution (host : str) (port_arg : option Z) (u : ParseResult) :
  contains (lit "://") host = true ->
  urlparse host = Ok u ->
  let tls := str_eqb (scheme u) (lit "ssl") in
  let default := if tls then 8883 else 1883 in
  let h := str_or (hostname u) host in
  let outcome := parse_host_port urlparse host port_arg in
  (recognised (scheme u) = false ->
     outcome = Raise (Exception (unsupported_scheme (scheme u))) /\
     error_str (unsupported_scheme (scheme u)) =
       lit "Unsupported scheme '" ++ scheme u ++ lit "'. Use ssl:// or tcp://") /\
  (forall r, outcome = Ok r -> recognised (scheme u) = true) /\
  (recognised (scheme u) = true ->
     (tls = true <-> scheme u = lit "ssl") /\
     (tls = false <-> scheme u = lit "tcp") /\
     match port_arg, port u with
     | Some p, _ => outcome = Ok (h, p, tls)
     | None, Ok (Some n) => outcome = Ok (h, (if n =? 0 then default else n), tls)
     | None, Ok None => outcome = Ok (h, default, tls)
     | None, Raise e => outcome = Raise e
     end).
Proof.
  intros Hc Hu tls default h outcome.
  unfold outcome, parse_host_port. rewrite Hc, Hu, recognised_existsb.
  split; [|split].
  - intros Hr. rewrite Hr. split; reflexivity.
  - intros r. destruct (recognised (scheme u)); [reflexivity|discriminate].
  - intros Hr. rewrite Hr. cbn [negb].
    split; [apply str_eqb_eq|]. split.
    + unfold recognised in Hr. fold tls in Hr.
      split.
      * intros Ht. rewrite Ht in Hr. apply str_eqb_eq. exact Hr.
      * intros Ht. unfold tls. rewrite Ht. reflexivity.
    + destruct port_arg as [p|]; [reflexivity|].
      destruct (port u) as [[n|]|e]; reflexivity.
Qed.

(** C9, as amended. When the parser keeps embedded ports within
    0..65535, a resolver result without an explicit port has its port
    in 1..65535; an explicit port is returned as it is, whatever its
    value. *)
Theorem resolved_port_range :
  (forall s u n, urlparse s = Ok u -> port u = Ok (Some n) -> 0 <= n <= 65535) ->
  forall host port_arg h p tls,
    parse_host_port urlparse host port_arg = Ok (h, p, tls) ->
    match port_arg with
    | None => 1 <= p <= 65535
    | Some q => p = q
    end.
Proof.
  intros Hrange host port_arg h p tls. unfold parse_host_port.
  destruct (contains (lit "://") host).
  - destruct (urlparse host) as [u|e] eqn:Hu; [|discriminate].
    destruct (negb _); [discriminate|].
    destruct port_arg as [q|]; [intros [= _ <- _]; reflexivity|].
    destruct (port u) as [[n|]|e] eqn:Hp; [| |discriminate].
    + specialize (Hrange host u n Hu Hp). intros [= _ <- _].
      unfold int_or. destruct (Z.eqb_spec n 0); [destruct (str_eqb _ _); lia|lia].
    + intros [= _ <- _]. cbn [int_or]. destruct (str_eqb _ _); lia.
  - destruct port_arg as [q|]; intros [= _ <- _]; [reflexivity|lia].
Qed.

End ResolverFacts.

Lemma bare_hostname_witness :
  contains (lit "://") (lit "broker.local") = false /\
  parse_host_port urllib_parse.urlparse (lit "broker.local") (Some 1883) =
    Ok (lit "broker.local", 1883, false).
Proof.
  split; [reflexivity|].
  destruct (bare_hostname urllib_parse.urlparse (lit "broker.local") (Some 1883) eq_refl)
    as (p & tls & H & Hp & Ht).
  rewrite H, Hp. f_equal. f_equal.
  destruct tls; [|reflexivity].
  assert (Hf : p = 8883) by (apply Ht; reflexivity).
  rewrite Hp in Hf. discriminate Hf.
Defined.

Lemma url_resolution_witness :
  contains (lit "://") (lit "ssl://h:9000") = true /\
  parse_host_port urllib_parse.urlparse (lit "ssl://h:9000") None =
    Ok (lit "h", 9000, true).
Proof.
  split; [reflexivity|].
  exact (proj2 (proj2 (proj2 (proj2
    (url_resolution urllib_parse.urlparse (lit "ssl://h:9000") None
       {| scheme := lit "ssl"; hostname := Some (lit "h"); port := Ok (Some 9000) |}
       eq_refl eq_refl)) eq_refl))).
Defined.

(** C4, as stated, fails twice. The embedded port of [ssl://h:0] is
    present, yet the port is the default 8883; and [ws://[h] has the
    unrecognised scheme ws, yet the resolver fails with the parser's
    error, which does not name it. *)
Lemma url_resolution_counterexample :
  (contains (lit "://") (lit "ssl://h:0") = true /\
   urllib_parse.urlparse (lit "ssl://h:0") =
     Ok {| scheme := lit "ssl"; hostname := Some (lit "h"); port := Ok (Some 0) |} /\
   parse_host_port urllib_parse.urlparse (lit "ssl://h:0") None =
     Ok (lit "h", 8883, true)) /\
  (contains (lit "://") (lit "ws://[h") = true /\
   parse_host_port urllib_parse.urlparse (lit "ws://[h") None =
     Raise (Exception (ValueError (lit "Invalid IPv6 URL"))) /\
   unsupported_scheme (lit "ws") <> ValueError (lit "Invalid IPv6 URL")).
Proof.
  split; [split; [|split]|split; [|split]]; try (vm_compute; reflexivity).
  vm_compute. discriminate.
Qed.

Lemma urllib_parse_port_range s u n :
  urllib_parse.urlparse s = Ok u -> port u = Ok (Some n) -> 0 <= n <= 65535.
Proof.
  unfold urllib_parse.urlparse.
  destruct (urllib_parse.split_scheme _) as [sch rest].
  destruct (_ || _); [discriminate|].
  intros [= <-]. cbn [port]. unfold urllib_parse.get_port.
  destruct (snd _) as [p|]; [|discriminate].
  destruct (forallb _ _); [|discriminate].
  destruct (Z.leb_spec 0 (urllib_parse.int_of_digits p));
    destruct (Z.leb_spec (urllib_parse.int_of_digits p) 65535);
    cbn [andb]; try discriminate.
  intros [= <-]. lia.
Qed.

Lemma resolved_port_range_witness :
  parse_host_port urllib_parse.urlparse (lit "tcp://h:1884") None =
    Ok (lit "h", 1884, false) /\
  1 <= 1884 <= 65535.
Proof.
  assert (H : parse_host_port urllib_parse.urlparse (lit "tcp://h:1884") None =
              Ok (lit "h", 1884, false)) by (vm_compute; reflexivity).
  split; [exact H|].
  exact (resolved_port_range urllib_parse.urlparse urllib_parse_port_range
           (lit "tcp://h:1884") None (lit "h") 1884 false H).
Defined.

(** C9, as stated, fails for an explicit port: nothing checks it. *)
Lemma explicit_port_unchecked :
  parse_host_port urllib_parse.urlparse (lit "broker.local") (Some 70000) =
    Ok (lit "broker.local", 70000, false) /\
  ~ 1 <= 70000 <= 65535.
Proof. split; [vm_compute; reflexivity|lia]. Qed.

(** An embedded port out of range fails the resolver only when no
    explicit port is given. *)
Example embedded_port_unread :
  let resolve := parse_host_port urllib_parse.urlparse in
  resolve (lit "ssl://h:70000") (Some 1) = Ok (lit "h", 1, true) /\
  resolve (lit "ssl://h:70000") None =
    Raise (Exception (ValueError (lit "Port out of range 0-65535"))).
Proof. cbv zeta. split; vm_compute; reflexivity. Qed.

(** The resolver cases listed in the specification. *)
Example resolver_cases :
  let resolve := parse_host_port urllib_parse.urlparse in
  resolve (lit "ssl://h") None = Ok (lit "h", 8883, true) /\
  resolve (lit "tcp://h") None = Ok (lit "h", 1883, false) /\
  resolve (lit "ssl://h:9000") None = Ok (lit "h", 9000, true) /\
  resolve (lit "tcp://h:9000") (Some 1234) = Ok (lit "h", 1234, false) /\
  resolve (lit "ws://h") None = Raise (Exception (unsupported_scheme (lit "ws"))) /\
  resolve (lit "h") None = Ok (lit "h", 8883, true) /\
  resolve (lit "h") (Some 1883) = Ok (lit "h", 1883, false).
Proof. cbv zeta. repeat split; vm_compute; reflexivity. Qed.

(** * The session *)

Lemma record_nil st : record [] st = st.
Proof. destruct st. unfold record. cbn. rewrite app_nil_r. reflexivity. Qed.

Lemma accepted_cons env t q subs :
  accepted env ((t, q) :: subs) = true ->
  subscribe_error env t q = None /\ accepted env subs = true.
Proof.
  unfold accepted. cbn [forallb]. intros H. apply andb_true_iff in H as [H1 H2].
  split; [destruct (subscribe_error env t q); [discriminate|reflexivity]|exact H2].
Qed.

Lemma on_connect_success env ts d st :
  accepted env (dict_get d "subs" []) = true ->
  on_connect env ts (Some d) 0 st =
    (Ok tt, record (resubscription ts (dict_get d "subs" [])) st).
Proof.
  intros Ha. unfold on_connect, resubscription. cbn [Z.eqb].
  unfold bind at 1. unfold print at 1, emit.
  set (f := fun '(t, q) =>
              [ Subscribe t q;
                Print (stamp ts ++ lit "Subscribed to " ++ t ++
                       lit " (QoS " ++ str_of_int q ++ lit ")") ]).
  change (Print (stamp ts ++ lit "Connected to broker") :: flat_map f (dict_get d "subs" []))
    with ([Print (stamp ts ++ lit "Connected to broker")] ++ flat_map f (dict_get d "subs" [])).
  rewrite <- record_record.
  generalize (record [Print (stamp ts ++ lit "Connected to broker")] st).
  revert Ha. generalize (dict_get d "subs" []).
  induction l as [|[t q] subs IH]; intros Ha st1; cbn [for_each flat_map].
  - rewrite record_nil. reflexivity.
  - apply accepted_cons in Ha as [Hs Ha].
    unfold bind at 1. unfold bind at 1. unfold client_subscribe. rewrite Hs.
    unfold emit at 1. unfold print at 1, emit at 1.
    rewrite (IH Ha). rewrite !record_record. reflexivity.
Qed.

Lemma on_connect_failure env ts data rc st :
  rc <> 0 -> on_connect env ts data rc st = (Ok tt, record (connect_failed ts rc) st).
Proof.
  intros Hrc. unfold on_connect. destruct (Z.eqb_spec rc 0); [contradiction|].
  reflexivity.
Qed.

Lemma on_message_rendering ts msg st :
  on_message ts msg st = (Ok tt, record (rendering ts msg) st).
Proof.
  unfold on_message, rendering, try_except, bind, lift, print, emit.
  destruct (endswith _ _ && is_mostly_text _).
  - destruct (utf8_decode_replace_total (msg_payload msg)) as [text Hd].
    rewrite Hd. reflexivity.
  - rewrite record_record. reflexivity.
Qed.

(** The callbacks handle the broker's events one after the other; the
    userdata stays as it is. *)
Lemma session_loop env subs evs st :
  userdata st = Some [("subs"%string, subs)] ->
  accepted env subs = true ->
  for_each evs (dispatch env) st =
    (Ok tt, record (flat_map (session_events subs) evs) st).
Proof.
  intros Hu Ha. revert st Hu.
  induction evs as [|ev evs IH]; intros st Hu; cbn [for_each flat_map].
  - rewrite record_nil. reflexivity.
  - unfold bind at 1.
    assert (Hd : dispatch env ev st = (Ok tt, record (session_events subs ev) st)).
    { destruct ev as [ts rc|ts msg]; unfold dispatch; cbn [session_events].
      - rewrite Hu. destruct (Z.eqb_spec rc 0) as [->|Hrc].
        + apply (on_connect_success env ts [("subs"%string, subs)] st Ha).
        + apply on_connect_failure. exact Hrc.
      - apply on_message_rendering. }
    rewrite Hd, IH by exact Hu. rewrite record_record. reflexivity.
Qed.

Lemma plan_subs_map args :
  plan_subs args =
    map (fun t => (t, arg_qos args))
        (if arg_wildcard args then wildcard_topics
         else topics_for_boat (arg_boat_id args)).
Proof.
  unfold plan_subs, wildcard_topics, topics_for_boat.
  destruct (arg_wildcard args); reflexivity.
Qed.

(** The subscriptions [main] issues itself, right after connecting. *)
Lemma subscribe_loop_accepted env subs st :
  accepted env subs = true ->
  for_each subs (fun '(topic, qos) => client_subscribe env topic qos) st =
    (Ok tt, record (map (fun '(t, q) => Subscribe t q) subs) st).
Proof.
  revert st. induction subs as [|[t q] subs IH]; intros st Ha; cbn [for_each map].
  - rewrite record_nil. reflexivity.
  - apply accepted_cons in Ha as [Hs Ha].
    unfold bind at 1. unfold client_subscribe at 1. rewrite Hs.
    unfold emit. rewrite (IH _ Ha), record_record. reflexivity.
Qed.

Lemma subscribe_loop_refused env subs st :
  accepted env subs = false ->
  exists e evs,
    for_each subs (fun '(topic, qos) => client_subscribe env topic qos) st =
      (Raise (Exception e), record evs st).
Proof.
  revert st. induction subs as [|[t q] subs IH]; intros st Ha; [discriminate|].
  cbn [for_each]. unfold bind at 1. unfold client_subscribe at 1.
  unfold accepted in Ha. cbn [forallb] in Ha.
  destruct (subscribe_error env t q) as [e|] eqn:Hs.
  - exists e, []. unfold raise. rewrite record_nil. reflexivity.
  - cbn [andb] in Ha. unfold emit.
    destruct (IH (record [Subscribe t q] st) Ha) as (e & evs & H).
    exists e, ([Subscribe t q] ++ evs). rewrite H, record_record. reflexivity.
Qed.

(** The handler disconnects as well as it can and exits with status 0. *)
Lemma handle_sigint_exit env st :
  handle_sigint env st = (Raise (SystemExit 0), record (sigint_events env) st).
Proof.
  unfold handle_sigint, sigint_events, bind, print, emit, try_except,
    client_disconnect, sys_exit, raise, ret, emit.
  destruct (disconnect_error env); rewrite ?record_record; reflexivity.
Qed.

(** * [main] *)

Section MainFacts.

Variable urlparse : str -> result ParseResult.
Variable parse_args : list str -> result Args.
Variable env : environment.

Lemma main_invalid_host argv args err :
  parse_args argv = Ok args ->
  parse_host_port urlparse (arg_host args) (arg_port args) = Raise (Exception err) ->
  main urlparse parse_args env argv initial =
    (Ok 2, record [Print (lit "Invalid host: " ++ error_str err)] initial).
Proof.
  intros Hargs Hres. unfold main. unfold bind at 1. unfold lift.
  rewrite Hargs, Hres. reflexivity.
Qed.

Lemma main_resolution_raises argv args e :
  parse_args argv = Ok args ->
  parse_host_port urlparse (arg_host args) (arg_port args) = Raise e ->
  (forall err, e <> Exception err) ->
  main urlparse parse_args env argv initial = (Raise e, initial).
Proof.
  intros Hargs Hres He. unfold main. unfold bind at 1. unfold lift.
  rewrite Hargs, Hres. destruct e as [err| |]; [destruct (He err eq_refl)| |]; reflexivity.
Qed.

Lemma main_resolved argv args host p use_tls :
  parse_args argv = Ok args ->
  parse_host_port urlparse (arg_host args) (arg_port args) = Ok (host, p, use_tls) ->
  let st := record (connecting host p use_tls) (prepared env args use_tls) in
  let plan := plan_subs args in
  match connect_outcome env with
  | Raises e =>
      main urlparse parse_args env argv initial =
        (Ok 1, record (connection_error e) st)
  | Interrupted =>
      main urlparse parse_args env argv initial =
        (Raise (SystemExit 0), record (sigint_events env) st)
  | Returns =>
      if accepted env plan then
        main urlparse parse_args env argv initial =
          session_end env (record (map (fun '(t, q) => Subscribe t q) plan ++
                               flat_map (session_events plan) (inbound env)) st)
      else
        exists e evs,
          main urlparse parse_args env argv initial =
            (Ok 1, record (connection_error e) (record evs st))
  end.
Proof.
  intros Hargs Hres st plan.
  assert (Hmain : main urlparse parse_args env argv initial =
    try_except
      (client_connect env host p 60 ;;;
       for_each plan (fun '(topic, qos) => client_subscribe env topic qos) ;;;
       loop_forever env ;;;
       ret 0)
      (fun e => print (lit "Connection error: " ++ error_str e) ;;; ret 1)
      (record [Print (lit "Connecting to " ++ host ++ lit ":" ++ str_of_int p ++
                      lit " TLS=" ++ str_of_bool use_tls)]
              (prepared env args use_tls))).
  { unfold main. unfold bind at 1. unfold lift. rewrite Hargs, Hres. reflexivity. }
  assert (Hconn : forall o, connect_outcome env = o ->
    main urlparse parse_args env argv initial =
    match
      (let (r, st') := finish env o st in
       match r with
       | Ok _ =>
           (for_each plan (fun '(topic, qos) => client_subscribe env topic qos) ;;;
            loop_forever env ;;; ret 0) st'
       | Raise e => (Raise e, st')
       end)
    with
    | (Raise (Exception e), st') =>
        (print (lit "Connection error: " ++ error_str e) ;;; ret 1) st'
    | other => other
    end).
  { intros o Ho. rewrite Hmain.
    unfold try_except, client_connect. unfold bind at 1. unfold bind at 1.
    unfold emit at 1. rewrite record_record, Ho. reflexivity. }
  clear Hmain.
  destruct (connect_outcome env) as [|e|] eqn:Ho.
  - (* connected *)
    destruct (accepted env plan) eqn:Ha.
    + rewrite (Hconn _ eq_refl). cbn [finish]. unfold ret at 1.
      unfold bind at 1.
      match goal with
      | |- context [for_each plan ?f st] => pose (F := f)
      end.
      assert (HF : for_each plan F st =
                   (Ok tt, record (map (fun '(t, q) => Subscribe t q) plan) st))
        by (apply subscribe_loop_accepted; exact Ha).
      unfold F in HF. rewrite HF. clear HF F.
      unfold bind at 1. unfold loop_forever. unfold bind at 1.
      rewrite (session_loop env plan) by (try reflexivity; exact Ha).
      rewrite record_record. unfold session_end.
      destruct (loop_outcome env) as [|e|]; cbn [finish].
      * reflexivity.
      * reflexivity.
      * unfold deliver_sigint. cbn [sigint_installed record].
        rewrite handle_sigint_exit. reflexivity.
    + destruct (subscribe_loop_refused env plan st Ha) as (e & evs & H).
      exists e, evs.
      rewrite (Hconn _ eq_refl). cbn [finish]. unfold ret at 1.
      unfold bind at 1.
      match goal with
      | |- context [for_each plan ?f st] => pose (F := f)
      end.
      assert (HF : for_each plan F st = (Raise (Exception e), record evs st))
        by exact H.
      unfold F in HF. rewrite HF. reflexivity.
  - rewrite (Hconn _ eq_refl). reflexivity.
  - rewrite (Hconn _ eq_refl). cbn [finish].
    unfold deliver_sigint. cbn [sigint_installed record st prepared].
    rewrite handle_sigint_exit. reflexivity.
Qed.

(** C7. The subscription list is made once, from the arguments, and
    stored in the userdata. In a session that reaches the event loop,
    every connection acknowledgement with code 0 issues exactly that
    list again, in order, each subscription followed by its
    confirmation line; a nonzero code prints the connect-failed line
    and subscribes to nothing; no callback changes the userdata. *)
Theorem subscriptions_fixed argv args host p use_tls :
  parse_args argv = Ok args ->
  parse_host_port urlparse (arg_host args) (arg_port args) = Ok (host, p, use_tls) ->
  connect_outcome env = Returns ->
  accepted env (plan_subs args) = true ->
  let plan := plan_subs args in
  plan = map (fun t => (t, arg_qos args))
             (if arg_wildcard args then wildcard_topics
              else topics_for_boat (arg_boat_id args)) /\
  (forall ts st, userdata st = Some [("subs"%string, plan)] ->
     on_connect env ts (userdata st) 0 st =
       (Ok tt, record (resubscription ts plan) st)) /\
  (forall ts rc data st, rc <> 0 ->
     on_connect env ts data rc st = (Ok tt, record (connect_failed ts rc) st) /\
     existsb is_subscribe (connect_failed ts rc) = false) /\
  (forall evs st, userdata st = Some [("subs"%string, plan)] ->
     exists st',
       for_each evs (dispatch env) st = (Ok tt, st') /\
       userdata st' = userdata st /\
       trace st' = trace st ++ flat_map (session_events plan) evs) /\
  exists r st ending,
    main urlparse parse_args env argv initial = (r, st) /\
    userdata st = Some [("subs"%string, plan)] /\
    trace st = trace (prepared env args use_tls) ++ connecting host p use_tls ++
               map (fun '(t, q) => Subscribe t q) plan ++
               flat_map (session_events plan) (inbound env) ++ ending /\
    existsb is_subscribe ending = false.
Proof.
  intros Hargs Hres Hconn Ha plan.
  split; [apply plan_subs_map|]. split; [|split; [|split]].
  - intros ts st Hu. rewrite Hu.
    apply (on_connect_success env ts [("subs"%string, plan)] st Ha).
  - intros ts rc data st Hrc. split; [apply on_connect_failure; exact Hrc|reflexivity].
  - intros evs st Hu. eexists. split; [apply (session_loop env plan evs st Hu Ha)|].
    split; reflexivity.
  - pose proof (main_resolved argv args host p use_tls Hargs Hres) as H.
    cbv zeta in H. rewrite Hconn, Ha in H. unfold plan.
    rewrite H. unfold session_end.
    destruct (loop_outcome env) as [|e|]; eexists _, _, _;
      (split; [reflexivity|]); (split; [reflexivity|]);
      cbn [trace record prepared]; rewrite <- ?app_assoc; cbn [app];
      split.
    + instantiate (1 := []). rewrite app_nil_r. reflexivity.
    + reflexivity.
    + reflexivity.
    + reflexivity.
    + reflexivity.
    + unfold sigint_events. destruct (disconnect_error env); reflexivity.
Qed.

(** C8, as amended. For a command line that argparse accepts: a
    resolver failure gives exit status 2, and the only event is the
    invalid-host line, so nothing is connected; a resolved address
    never gives 2. The status is then 1 when the connect call, one of
    the first subscriptions or the event loop raises an error, and 0
    when the loop returns or SIGINT ends the connect call or the loop;
    the SIGINT handler prints, disconnects with any error of the
    disconnect swallowed, and exits with status 0. *)
Theorem exit_codes argv args :
  parse_args argv = Ok args ->
  let code := fst (run urlparse parse_args env argv) in
  let events := snd (run urlparse parse_args env argv) in
  match parse_host_port urlparse (arg_host args) (arg_port args) with
  | Raise (Exception err) =>
      code = 2 /\ events = [Print (lit "Invalid host: " ++ error_str err)]
  | Raise e => code = exit_status (Raise e) /\ events = []
  | Ok (host, p, use_tls) =>
      code <> 2 /\
      In (Connect host p 60) events /\
      match connect_outcome env with
      | Raises _ => code = 1
      | Interrupted => code = 0 /\ exists before, events = before ++ sigint_events env
      | Returns =>
          if accepted env (plan_subs args) then
            match loop_outcome env with
            | Returns => code = 0
            | Raises _ => code = 1
            | Interrupted =>
                code = 0 /\ exists before, events = before ++ sigint_events env
            end
          else code = 1
      end
  end /\
  (forall st, handle_sigint env st =
                (Raise (SystemExit 0), record (sigint_events env) st)) /\
  sigint_events env =
    Print (NL ++ lit "Disconnecting...") ::
    match disconnect_error env with
    | Some _ => []
    | None => [Disconnect]
    end.
Proof.
  intros Hargs code events.
  split; [|split; [apply handle_sigint_exit|
                   unfold sigint_events; destruct (disconnect_error env); reflexivity]].
  unfold code, events, run. clear code events.
  destruct (parse_host_port urlparse (arg_host args) (arg_port args))
    as [[[host p] use_tls]|e] eqn:Hres.
  - pose proof (main_resolved argv args host p use_tls Hargs Hres) as H.
    cbv zeta in H.
    assert (Hin : forall evs st,
              In (Connect host p 60)
                 (trace (record evs (record (connecting host p use_tls) st)))).
    { intros evs st. cbn [trace record]. rewrite !in_app_iff.
      left. right. right. left. reflexivity. }
    destruct (connect_outcome env) as [|e|].
    + destruct (accepted env (plan_subs args)).
      * rewrite H. unfold session_end.
        destruct (loop_outcome env) as [|e|]; cbn [fst snd exit_status].
        -- split; [discriminate|]. split; [apply Hin|reflexivity].
        -- split; [discriminate|]. split; [|reflexivity].
           rewrite record_record. apply Hin.
        -- split; [discriminate|]. split; [rewrite record_record; apply Hin|].
           split; [reflexivity|]. eexists. cbn [trace record]. reflexivity.
      * destruct H as (e & evs & H). rewrite H. cbn [fst snd exit_status].
        split; [discriminate|]. split; [|reflexivity].
        rewrite record_record. apply Hin.
    + rewrite H. cbn [fst snd exit_status].
      split; [discriminate|]. split; [|reflexivity].
      rewrite <- (record_nil (prepared env args use_tls)).
      rewrite !record_record. cbn [app]. rewrite <- record_record.
      apply (Hin _ (prepared env args use_tls)).
    + rewrite H. cbn [fst snd exit_status].
      split; [discriminate|]. split.
      * rewrite <- (record_nil (prepared env args use_tls)).
        rewrite !record_record. cbn [app]. rewrite <- record_record.
        apply (Hin _ (prepared env args use_tls)).
      * split; [reflexivity|]. eexists. cbn [trace record]. reflexivity.
  - destruct e as [err|c|].
    + rewrite (main_invalid_host argv args err Hargs Hres). split; reflexivity.
    + rewrite (main_resolution_raises argv args _ Hargs Hres) by discriminate.
      split; reflexivity.
    + rewrite (main_resolution_raises argv args _ Hargs Hres) by discriminate.
      split; reflexivity.
Qed.

End MainFacts.

Lemma subscriptions_fixed_witness :
  let args := sample_args (lit "ssl://broker.example") in
  let st := prepared sample_env args true in
  argparse.parse_args (sample_argv (lit "ssl://broker.example")) = Ok args /\
  accepted sample_env (plan_subs args) = true /\
  on_connect sample_env (lit "T2") (userdata st) 0 st =
    (Ok tt, record (resubscription (lit "T2") (plan_subs args)) st).
Proof.
  cbv zeta. split; [reflexivity|]. split; [reflexivity|].
  apply (proj1 (proj2
    (subscriptions_fixed urllib_parse.urlparse argparse.parse_args sample_env
       (sample_argv (lit "ssl://broker.example"))
       (sample_args (lit "ssl://broker.example"))
       (lit "broker.example") 8883 true eq_refl eq_refl eq_refl eq_refl))).
  reflexivity.
Defined.

Lemma exit_codes_witness :
  argparse.parse_args (sample_argv (lit "ws://broker.example")) =
    Ok (sample_args (lit "ws://broker.example")) /\
  fst (run urllib_parse.urlparse argparse.parse_args sample_env
         (sample_argv (lit "ws://broker.example"))) = 2 /\
  fst (run urllib_parse.urlparse argparse.parse_args sample_env
         (sample_argv (lit "ssl://broker.example"))) = 0.
Proof.
  split; [reflexivity|]. split.
  - exact (proj1 (proj1
      (exit_codes urllib_parse.urlparse argparse.parse_args sample_env
         (sample_argv (lit "ws://broker.example"))
         (sample_args (lit "ws://broker.example")) eq_refl))).
  - exact (proj1 (proj2 (proj2 (proj1
      (exit_codes urllib_parse.urlparse argparse.parse_args sample_env
         (sample_argv (lit "ssl://broker.example"))
         (sample_args (lit "ssl://broker.example")) eq_refl))))).
Defined.

(** C8, as stated, fails on the empty command line: argparse misses
    the required [--host] and exits with status 2, although no address
    was resolved and nothing was printed by [main]. *)
Lemma exit_status_2_without_resolution :
  argparse.parse_args [] = Raise (SystemExit 2) /\
  run urllib_parse.urlparse argparse.parse_args sample_env [] = (2, []).
Proof. split; reflexivity. Qed.

(** * What a dump is made of *)

(** X1. A dump holds printable ASCII and line feeds only, whatever the
    payload, and none of its rows is empty. *)
Theorem hexdump_printable (b : list byte) :
  Forall (fun c => 32 <= c <= 126 \/ c = 10) (hexdump b) /\
  (b <> [] -> Forall (fun row => row <> [] /\ ~ In 10 row) (dump_rows b)).
Proof.
  split.
  - rewrite hexdump_join. apply join_chars.
    + constructor; [right; reflexivity|constructor].
    + apply Forall_forall. intros w Hw.
      unfold dump_lines in Hw. apply in_map_iff in Hw as (i & <- & _).
      eapply Forall_impl; [|apply hexdump_line_chars]. cbn. intros c Hc. left. exact Hc.
  - intros Hne. rewrite (dump_rows_lines b Hne).
    apply Forall_forall. intros w Hw.
    unfold dump_lines in Hw. apply in_map_iff in Hw as (i & <- & _).
    split; [|apply hexdump_line_no_newline].
    intros H. apply (f_equal (@length _)) in H.
    unfold hexdump_line in H. rewrite !length_app in H.
    pose proof (offset_min_width 4 (N.of_nat i)). cbn [length] in H. lia.
Qed.

Lemma hexdump_printable_witness :
  bytes_of [27; 91; 50; 74] <> [] /\
  Forall (fun row => row <> [] /\ ~ In 10 row) (dump_rows (bytes_of [27; 91; 50; 74])).
Proof.
  assert (H : bytes_of [27; 91; 50; 74] <> []) by discriminate.
  split; [exact H|]. exact (proj2 (hexdump_printable _) H).
Defined.

(** * Column positions *)

Lemma hexdump_line_split i chunk :
  (length chunk <= 16)%nat ->
  length (format_0x 4 (N.of_nat i)) = 4%nat ->
  firstn 56 (hexdump_line 16 i chunk) =
    format_0x 4 (N.of_nat i) ++ lit "  " ++
    format_ljust 48 (join (lit " ") (map hex_pair chunk)) ++ lit "  " /\
  skipn 56 (hexdump_line 16 i chunk) = map ascii_char chunk.
Proof.
  intros Hc Ho. pose proof (hex_column_length chunk Hc) as Hh.
  unfold hexdump_line. change (16 * 3)%nat with 48%nat.
  set (o := format_0x 4 (N.of_nat i)) in *.
  set (h := format_ljust 48 (join (lit " ") (map hex_pair chunk))) in *.
  assert (Hl : length (o ++ lit "  " ++ h ++ lit "  ") = 56%nat).
  { rewrite !length_app, Ho, Hh. reflexivity. }
  replace (o ++ lit "  " ++ h ++ lit "  " ++ map ascii_char chunk)
    with ((o ++ lit "  " ++ h ++ lit "  ") ++ map ascii_char chunk)
    by (rewrite <- !app_assoc; reflexivity).
  split.
  - rewrite firstn_app, Hl, Nat.sub_diag, firstn_O, app_nil_r.
    rewrite <- Hl at 1. apply firstn_all.
  - rewrite skipn_app, Hl, Nat.sub_diag, skipn_O.
    rewrite <- Hl at 1. rewrite skipn_all. reflexivity.
Qed.

(** X2. In the dump of a payload of at most 65536 bytes every row has its
    ASCII column at position 56: character [56 + k] of row [j] shows
    byte [16 * j + k] of the payload, and the row ends with the last of
    its bytes. *)
Theorem hexdump_ascii_column (b : list byte) (j k : nat) :
  len b <= 65536 ->
  (16 * j + k < length b)%nat -> (k < 16)%nat ->
  let row := nth j (dump_rows b) [] in
  length row = (56 + Nat.min 16 (length b - 16 * j))%nat /\
  skipn 56 row = map ascii_char (row_bytes b j) /\
  nth (56 + k) row 0 = ascii_char (nth (16 * j + k) b x00) /\
  nth 4 row 0 = 32 /\ nth 5 row 0 = 32 /\ nth 54 row 0 = 32 /\ nth 55 row 0 = 32.
Proof.
  intros Hlen Hjk Hk row.
  assert (Hj : (16 * j < length b)%nat) by lia.
  assert (Hne : b <> []) by (intros ->; cbn in Hj; lia).
  assert (Hrow : row = hexdump_line 16 (16 * j) (row_bytes b j)).
  { unfold row. rewrite (dump_rows_lines b Hne). apply dump_lines_nth. exact Hj. }
  assert (Hc : (length (row_bytes b j) <= 16)%nat) by (rewrite row_bytes_length; lia).
  assert (Ho : length (format_0x 4 (N.of_nat (16 * j))) = 4%nat)
    by (apply offset_width; unfold len in Hlen; lia).
  destruct (hexdump_line_split (16 * j) (row_bytes b j) Hc Ho) as [Hf Hs].
  rewrite <- Hrow in Hf, Hs.
  assert (Hsplit : row = firstn 56 row ++ skipn 56 row) by (symmetry; apply firstn_skipn).
  assert (Hfl : length (firstn 56 row) = 56%nat).
  { rewrite Hf, !length_app, Ho, (hex_column_length _ Hc). reflexivity. }
  split; [|split; [exact Hs|split]].
  - rewrite Hsplit, length_app, Hfl, Hs, length_map, row_bytes_length. reflexivity.
  - rewrite Hsplit, app_nth2 by lia. rewrite Hfl, Hs.
    replace (56 + k - 56)%nat with k by lia.
    rewrite (nth_indep _ 0 (ascii_char x00))
      by (rewrite length_map, row_bytes_length; lia).
    rewrite map_nth. f_equal. unfold row_bytes.
    rewrite nth_firstn. destruct (Nat.ltb_spec k 16); [|lia].
    rewrite nth_skipn. reflexivity.
  - assert (Hn : forall n, (n < 56)%nat -> nth n row 0 = nth n (firstn 56 row) 0).
    { intros n Hn. rewrite Hsplit at 1. apply app_nth1. lia. }
    set (h := format_ljust 48 (join (lit " ") (map hex_pair (row_bytes b j)))) in *.
    set (o := format_0x 4 (N.of_nat (16 * j))) in *.
    assert (Hh : length h = 48%nat) by (apply hex_column_length; exact Hc).
    rewrite !Hn, Hf by lia.
    repeat split.
    + rewrite app_nth2 by lia. rewrite Ho. reflexivity.
    + rewrite app_nth2 by lia. rewrite Ho. reflexivity.
    + rewrite app_nth2 by lia. rewrite Ho. cbn [Nat.sub].
      change (lit "  " ++ h ++ lit "  ") with (32 :: 32 :: h ++ lit "  ").
      cbn [nth]. rewrite app_nth2 by lia. rewrite Hh. reflexivity.
    + rewrite app_nth2 by lia. rewrite Ho. cbn [Nat.sub].
      change (lit "  " ++ h ++ lit "  ") with (32 :: 32 :: h ++ lit "  ").
      cbn [nth]. rewrite app_nth2 by lia. rewrite Hh. reflexivity.
Qed.

Lemma hexdump_ascii_column_witness :
  let b := bytes_of [72; 105; 0; 255] in
  len b <= 65536 /\ (16 * 0 + 1 < length b)%nat /\ (1 < 16)%nat /\
  nth (56 + 1) (nth 0 (dump_rows b) []) 0 = 105.
Proof.
  cbv zeta.
  assert (H1 : len (bytes_of [72; 105; 0; 255]) <= 65536) by (vm_compute; discriminate).
  assert (H2 : (16 * 0 + 1 < length (bytes_of [72; 105; 0; 255]%Z))%nat) by (cbn; lia).
  assert (H3 : (1 < 16)%nat) by lia.
  split; [exact H1|]. split; [exact H2|]. split; [exact H3|].
  rewrite (proj1 (proj2 (proj2 (hexdump_ascii_column _ 0 1 H1 H2 H3)))).
  reflexivity.
Defined.

(** * Reading a dump back *)

Lemma skip_field_app a r : ~ In 32 a -> skip_field (a ++ 32 :: r) = 32 :: r.
Proof.
  induction a as [|c a IH]; intros Hn; cbn [app skip_field].
  - reflexivity.
  - destruct (Z.eqb_spec c 32) as [->|_]; [destruct Hn; left; reflexivity|].
    apply IH. intros H. apply Hn. right. exact H.
Qed.

Lemma split_on_spaces (f : str -> list byte) k :
  f [] = [] -> flat_map f (split_on 32 (repeat 32 k)) = [].
Proof.
  intros Hf. induction k as [|k IH]; cbn [repeat split_on flat_map].
  - rewrite Hf. reflexivity.
  - cbn [Z.eqb Pos.eqb flat_map]. rewrite Hf, IH. reflexivity.
Qed.

Lemma split_on_padded (f : str -> list byte) parts k :
  f [] = [] -> Forall (fun w => ~ In 32 w) parts ->
  flat_map f (split_on 32 (join [32] parts ++ repeat 32 k)) = flat_map f parts.
Proof.
  intros Hf Hp. induction Hp as [|p rest Hn Hrest IH].
  - cbn [join app flat_map]. apply split_on_spaces. exact Hf.
  - destruct rest as [|q rest].
    + cbn [join flat_map]. destruct k as [|k]; cbn [repeat].
      * rewrite (app_nil_r p), split_on_nosep by exact Hn. reflexivity.
      * rewrite split_on_app by exact Hn. cbn [flat_map].
        rewrite split_on_spaces by exact Hf. reflexivity.
    + rewrite join_cons. rewrite <- !app_assoc.
      change ([32] ++ join [32] (q :: rest) ++ repeat 32 k)
        with (32 :: (join [32] (q :: rest) ++ repeat 32 k)).
      rewrite split_on_app by exact Hn. cbn [flat_map]. rewrite IH. reflexivity.
Qed.

Lemma byte_of_pair_hex_pair x : byte_of_pair (hex_pair x) = [x].
Proof. destruct x; vm_compute; reflexivity. Qed.

Lemma hex_pair_no_space x : ~ In 32 (hex_pair x).
Proof.
  intros H. pose proof (format_0x_chars 2 (Byte.to_N x)) as Hc.
  rewrite Forall_forall in Hc. apply Hc in H. lia.
Qed.

Lemma offset_no_space W n : ~ In 32 (format_0x W n).
Proof.
  intros H. pose proof (format_0x_chars W n) as Hc.
  rewrite Forall_forall in Hc. apply Hc in H. lia.
Qed.

(** The hexadecimal column of a row holds the bytes of the row. *)
Lemma row_payload_line i chunk :
  (length chunk <= 16)%nat -> row_payload (hexdump_line 16 i chunk) = chunk.
Proof.
  intros Hlen. unfold row_payload, hexdump_line.
  change (16 * 3)%nat with 48%nat.
  assert (Hcol := hex_column_length chunk Hlen).
  set (hexcol := format_ljust 48 (join (lit " ") (map hex_pair chunk))) in *.
  set (rest := lit "  " ++ map ascii_char chunk).
  change (format_0x 4 (N.of_nat i) ++ lit "  " ++ hexcol ++ rest)
    with (format_0x 4 (N.of_nat i) ++ 32 :: (32 :: hexcol ++ rest)).
  rewrite skip_field_app by apply offset_no_space.
  change (skipn 2 (32 :: 32 :: hexcol ++ rest)) with (hexcol ++ rest).
  rewrite firstn_app, Hcol, Nat.sub_diag, firstn_0, app_nil_r.
  rewrite firstn_all2 by lia.
  unfold hexcol. clear Hcol hexcol rest.
  unfold format_ljust. change (lit " ") with [32].
  rewrite split_on_padded.
  - clear Hlen. induction chunk as [|x chunk IH]; cbn [map flat_map]; [reflexivity|].
    rewrite byte_of_pair_hex_pair, IH. reflexivity.
  - reflexivity.
  - apply Forall_forall. intros w Hw. apply in_map_iff in Hw as (x & <- & _).
    apply hex_pair_no_space.
Qed.

Lemma chunks_concat (m : nat) : forall b : list byte,
  (length b <= 16 * m)%nat ->
  flat_map (fun k => firstn 16 (skipn (16 * k) b)) (seq 0 m) = b.
Proof.
  induction m as [|m IH]; intros b Hb.
  - destruct b; [reflexivity|cbn [length] in Hb; lia].
  - cbn [seq flat_map]. rewrite <- seq_shift, flat_map_concat_map, map_map.
    rewrite <- flat_map_concat_map.
    rewrite (flat_map_ext _ (fun k => firstn 16 (skipn (16 * k) (skipn 16 b)))).
    + rewrite IH by (rewrite length_skipn; lia).
      change (16 * 0)%nat with 0%nat. cbn [skipn]. apply firstn_skipn.
    + intros k. rewrite skipn_skipn. f_equal. f_equal. lia.
Qed.

Lemma dump_lines_payload b : flat_map row_payload (dump_lines b) = b.
Proof.
  unfold dump_lines, range_step.
  rewrite flat_map_concat_map, !map_map, <- flat_map_concat_map.
  rewrite (flat_map_ext _ (fun k => firstn 16 (skipn (16 * k) b))).
  - apply chunks_concat.
    pose proof (Nat.div_mod_eq (length b + 16 - 1) 16) as H.
    pose proof (Nat.mod_upper_bound (length b + 16 - 1) 16). lia.
  - intros k. rewrite row_payload_line.
    + unfold slice. f_equal; [lia|f_equal; lia].
    + unfold slice. rewrite length_firstn. lia.
Qed.

(** The payload is read back from its dump. *)
Lemma undump_hexdump b : undump (hexdump b) = b.
Proof.
  destruct b as [|x b]; [reflexivity|].
  unfold undump. fold (dump_rows (x :: b)).
  rewrite dump_rows_lines by discriminate. apply dump_lines_payload.
Qed.

(** X3. The dump loses nothing: two payloads with the same dump are
    the same payload, whatever their length. In particular only the
    empty payload has the empty dump. *)
Theorem hexdump_injective (a b : list byte) :
  (hexdump a = hexdump b -> a = b) /\ (hexdump a = [] <-> a = []).
Proof.
  assert (Hinj : forall c d, hexdump c = hexdump d -> c = d).
  { intros c d H. rewrite <- (undump_hexdump c), <- (undump_hexdump d), H. reflexivity. }
  split; [apply Hinj|]. split.
  - intros H. apply Hinj. rewrite H. reflexivity.
  - intros ->. reflexivity.
Qed.

(** * Offsets *)

Lemma hex_value_acc d acc :
  fold_left (fun a c => 16 * a + hex_digit_value c)
            (lit (HexadecimalString.NilEmpty.string_of_uint d)) (Z.pos acc) =
  Z.pos (Pos.of_hex_uint_acc d acc).
Proof.
  revert acc.
  induction d; intros acc; cbn [HexadecimalString.NilEmpty.string_of_uint];
    [reflexivity|..];
    rewrite lit_cons; cbn [fold_left Pos.of_hex_uint_acc]; rewrite <- IHd;
    f_equal; vm_compute; reflexivity.
Qed.

Lemma hex_value_uint d :
  hex_value (lit (HexadecimalString.NilEmpty.string_of_uint d)) =
  Z.of_N (Pos.of_hex_uint d).
Proof.
  unfold hex_value.
  induction d; cbn [HexadecimalString.NilEmpty.string_of_uint Pos.of_hex_uint];
    [reflexivity|..]; rewrite lit_cons; cbn [fold_left];
    first [exact IHd | apply hex_value_acc].
Qed.

(** The digits of a number denote it. *)
Lemma hex_value_digits n : hex_value (hex_digits n) = Z.of_N n.
Proof.
  unfold hex_digits. destruct n as [|p]; [reflexivity|].
  pose proof (HexadecimalPos.Unsigned.of_to p) as Hp.
  cbn [N.to_hex_uint]. unfold HexadecimalString.NilZero.string_of_uint.
  destruct (Pos.to_hex_uint p) eqn:E; [discriminate Hp|..];
    rewrite hex_value_uint, Hp; reflexivity.
Qed.

Lemma hex_value_zeros k s : hex_value (repeat 48 k ++ s) = hex_value s.
Proof.
  unfold hex_value. rewrite fold_left_app.
  replace (fold_left (fun acc c => 16 * acc + hex_digit_value c) (repeat 48 k) 0)
    with 0; [reflexivity|].
  induction k as [|k IH]; [reflexivity|]. cbn [repeat fold_left]. exact IH.
Qed.

(** A formatted number denotes the number, whatever the padding. *)
Lemma hex_value_format W n : hex_value (format_0x W n) = Z.of_N n.
Proof. unfold format_0x. cbv zeta. rewrite hex_value_zeros. apply hex_value_digits. Qed.

Lemma format_0x_inj W n m : format_0x W n = format_0x W m -> n = m.
Proof.
  intros H. apply (f_equal hex_value) in H. rewrite !hex_value_format in H. lia.
Qed.

Lemma first_field_app a r : ~ In 32 a -> first_field (a ++ 32 :: r) = a.
Proof.
  induction a as [|c a IH]; intros Hn; cbn [app first_field].
  - reflexivity.
  - destruct (Z.eqb_spec c 32) as [->|_]; [destruct Hn; left; reflexivity|].
    f_equal. apply IH. intros H. apply Hn. right. exact H.
Qed.

Lemma first_field_line i chunk :
  first_field (hexdump_line 16 i chunk) = format_0x 4 (N.of_nat i).
Proof.
  unfold hexdump_line. change (lit "  ") with [32; 32].
  change ([32; 32] ++ ?x) with (32 :: 32 :: x).
  apply first_field_app, offset_no_space.
Qed.

Lemma hexdump_line_inj i j c d :
  hexdump_line 16 i c = hexdump_line 16 j d -> i = j.
Proof.
  intros H. apply (f_equal first_field) in H. rewrite !first_field_line in H.
  apply format_0x_inj in H. lia.
Qed.

Lemma dump_lines_nodup b : NoDup (dump_lines b).
Proof.
  unfold dump_lines, range_step.
  rewrite map_map.
  assert (Hgen : forall l : list nat, NoDup l ->
            NoDup (map (fun k => hexdump_line 16 (k * 16)
                                   (slice b (k * 16) (k * 16 + 16))) l)).
  { induction 1 as [|k l Hk _ IH]; cbn [map]; constructor; [|exact IH].
    intros Hin. apply in_map_iff in Hin as (k' & He & Hk').
    apply hexdump_line_inj in He. assert (k' = k) by lia. subst k'. contradiction. }
  apply Hgen, seq_NoDup.
Qed.

(** X4. Every row of a dump starts with the index of its first byte:
    the first field of row [j], read as a hexadecimal number, is
    [16 * j], for payloads of any length. No two rows of a dump are
    the same. *)
Theorem dump_offsets (b : list byte) (j : nat) :
  (16 * j < length b)%nat ->
  hex_value (first_field (nth j (dump_rows b) [])) = Z.of_nat (16 * j) /\
  NoDup (dump_rows b).
Proof.
  intros Hj.
  assert (Hne : b <> []) by (intros ->; cbn [length] in Hj; lia).
  rewrite dump_rows_lines by exact Hne. split.
  - rewrite dump_lines_nth by exact Hj.
    rewrite first_field_line, hex_value_format. lia.
  - apply dump_lines_nodup.
Qed.

Lemma dump_offsets_witness :
  let b := repeat x00 (N.to_nat 70000) in
  hex_value (first_field (nth 4100 (dump_rows b) [])) = 65600.
Proof.
  cbv zeta.
  apply (proj1 (dump_offsets (repeat x00 (N.to_nat 70000)) 4100
                  ltac:(rewrite repeat_length; lia))).
Defined.

(** * Text payloads *)

Lemma utf8_decode_ascii errors p :
  Forall (fun b => byte_val b < 128) p -> utf8_decode errors p = Ok (map byte_val p).
Proof.
  induction 1 as [|b r Hb _ IH]; [reflexivity|].
  cbn [utf8_decode map]. cbv zeta.
  destruct (Z.ltb_spec (byte_val b) 128); [|lia].
  rewrite IH. reflexivity.
Qed.

Lemma count_text_cons x p :
  count_text (x :: p) = (if is_text_byte x then 1 else 0) + count_text p.
Proof.
  rewrite !count_text_filter. cbn [filter].
  destruct (is_text_byte x); unfold len; cbn [length]; lia.
Qed.

Lemma count_text_full p :
  count_text p = len p <-> Forall (fun b => is_text_byte b = true) p.
Proof.
  induction p as [|x p IH].
  - split; [constructor|reflexivity].
  - rewrite count_text_cons. pose proof (count_text_range p) as Hr.
    replace (len (x :: p)) with (1 + len p) by (unfold len; cbn [length]; lia).
    split.
    + intros H. destruct (is_text_byte x) eqn:Hx; [|lia].
      constructor; [exact Hx|]. apply IH. lia.
    + intros H. inversion H as [|? ? Hx Hp]; subst. rewrite Hx.
      apply IH in Hp. lia.
Qed.

Lemma all_text_mostly p :
  len p <= 2 ^ 49 -> Forall (fun b => is_text_byte b = true) p ->
  is_mostly_text p = true.
Proof.
  intros Hlen Hall. destruct p as [|x p]; [reflexivity|].
  rewrite is_mostly_text_ratio by (discriminate || exact Hlen).
  apply count_text_full in Hall. rewrite Hall. apply Z.ltb_lt.
  unfold len. cbn [length]. lia.
Qed.

Lemma console_app (a b : list event) : console (a ++ b) = console a ++ console b.
Proof.
  induction a as [|ev a IH]; [reflexivity|].
  destruct ev; cbn [app console]; rewrite IH, <- ?app_assoc; reflexivity.
Qed.

(** X5. A status message whose payload holds only text bytes (printable
    ASCII, tab, line feed, carriage return) is printed by one call of
    [print]: its text is the header, a colon and a space, and the
    payload as it is, byte for byte. The console receives that text and
    one line feed behind it; the line feeds of the payload are part of
    the text, so such a payload spans more than one console line. *)
Theorem status_text_verbatim (ts : str) (msg : MQTTMessage) (st : state) :
  endswith (msg_topic msg) (lit "/status") = true ->
  Forall (fun b => is_text_byte b = true) (msg_payload msg) ->
  len (msg_payload msg) <= 2 ^ 49 ->
  on_message ts msg st =
    (Ok tt, record [Print (message_info ts msg ++ lit ": " ++
                           map byte_val (msg_payload msg))] st) /\
  console (trace (snd (on_message ts msg st))) =
    console (trace st) ++
    message_info ts msg ++ lit ": " ++ map byte_val (msg_payload msg) ++ NL.
Proof.
  intros Ht Hall Hlen.
  assert (H : on_message ts msg st =
            (Ok tt, record [Print (message_info ts msg ++ lit ": " ++
                                   map byte_val (msg_payload msg))] st)).
  { apply on_message_text.
    - rewrite Ht, all_text_mostly by assumption. reflexivity.
    - apply utf8_decode_ascii. eapply Forall_impl; [|exact Hall].
      intros b Hb. apply is_text_byte_spec in Hb. lia. }
  split; [exact H|].
  rewrite H. cbn [snd record trace]. rewrite console_app.
  cbn [console]. rewrite app_nil_r, <- !app_assoc. reflexivity.
Qed.

Lemma status_text_verbatim_witness :
  let msg := {| msg_topic := lit "boats/sea_serpent_01/status";
                msg_payload := bytes_of [65; 10; 66];
                msg_qos := 0 |} in
  console (trace (snd (on_message (lit "T") msg initial))) =
    lit "[T] boats/sea_serpent_01/status (QoS 0, 3 bytes): A" ++ NL ++ lit "B" ++ NL.
Proof.
  cbv zeta.
  rewrite (proj2 (status_text_verbatim (lit "T")
    {| msg_topic := lit "boats/sea_serpent_01/status";
       msg_payload := bytes_of [65; 10; 66];
       msg_qos := 0 |} initial
    ltac:(vm_compute; reflexivity)
    ltac:(vm_compute; repeat constructor)
    ltac:(vm_compute; discriminate))).
  vm_compute. reflexivity.
Defined.

(** X6. The classification does not look at the order of the bytes: a
    payload and any rearrangement of it are both text or both binary. *)
Theorem mostly_text_permutation (p q : list byte) :
  Permutation p q -> is_mostly_text p = is_mostly_text q.
Proof.
  intros Hp.
  assert (Hc : count_text p = count_text q).
  { induction Hp as [|x p q _ IH|x y p|p q r _ IH1 _ IH2].
    - reflexivity.
    - rewrite !count_text_cons, IH. reflexivity.
    - rewrite !count_text_cons. lia.
    - congruence. }
  assert (Hl : len p = len q) by (unfold len; rewrite (Permutation_length Hp); reflexivity).
  destruct p as [|x p], q as [|y q].
  - reflexivity.
  - apply Permutation_nil in Hp. discriminate Hp.
  - apply Permutation_sym, Permutation_nil in Hp. discriminate Hp.
  - unfold is_mostly_text. rewrite Hc, Hl. reflexivity.
Qed.

Lemma mostly_text_permutation_witness :
  let p := bytes_of [0; 79; 75; 79; 75; 79; 75] in
  Permutation p (rev p) /\ is_mostly_text (rev p) = true.
Proof.
  cbv zeta. split; [apply Permutation_rev|].
  rewrite <- (mostly_text_permutation (bytes_of [0; 79; 75; 79; 75; 79; 75]) _
                (Permutation_rev _)).
  vm_compute. reflexivity.
Defined.

(** X7. How many stray bytes a payload may hold. Up to six bytes the
    payload is text only if every byte is a text byte; a payload of text
    bytes alone is always text; from seven bytes on one byte that is not
    a text byte is tolerated. *)
Theorem mostly_text_stray_bytes (p : list byte) :
  len p <= 2 ^ 49 ->
  ((length p <= 6)%nat ->
     (is_mostly_text p = true <-> Forall (fun b => is_text_byte b = true) p)) /\
  (Forall (fun b => is_text_byte b = true) p -> is_mostly_text p = true) /\
  ((7 <= length p)%nat -> count_text p = len p - 1 -> is_mostly_text p = true).
Proof.
  intros Hlen. split; [|split].
  - intros Hshort. destruct p as [|x p]; [split; [constructor|reflexivity]|].
    rewrite is_mostly_text_ratio by (discriminate || exact Hlen).
    rewrite <- count_text_full, Z.ltb_lt.
    pose proof (count_text_range (x :: p)) as Hr.
    assert (1 <= len (x :: p) <= 6) by (unfold len; cbn [length] in *; lia).
    split; lia.
  - apply all_text_mostly. exact Hlen.
  - intros Hlong Hc. rewrite is_mostly_text_ratio.
    + rewrite Hc. apply Z.ltb_lt. unfold len. lia.
    + intros ->. cbn [length] in Hlong. lia.
    + exact Hlen.
Qed.

Lemma mostly_text_stray_bytes_witness :
  is_mostly_text (bytes_of [79; 75; 0; 79; 75; 33]) = false /\
  is_mostly_text (bytes_of [79; 75; 0; 79; 75; 33; 33]) = true.
Proof.
  assert (H6 : len (bytes_of [79; 75; 0; 79; 75; 33]) <= 2 ^ 49)
    by (vm_compute; discriminate).
  assert (H7 : len (bytes_of [79; 75; 0; 79; 75; 33; 33]) <= 2 ^ 49)
    by (vm_compute; discriminate).
  split.
  - destruct (is_mostly_text (bytes_of [79; 75; 0; 79; 75; 33])) eqn:E; [|reflexivity].
    apply (proj1 (mostly_text_stray_bytes _ H6)) in E.
    + inversion E as [|? ? _ E1]. inversion E1 as [|? ? _ E2].
      inversion E2 as [|? ? E3 _]. discriminate E3.
    + cbn [bytes_of map length]. lia.
  - apply (proj2 (proj2 (mostly_text_stray_bytes _ H7))).
    + cbn [bytes_of map length]. lia.
    + vm_compute. reflexivity.
Defined.

(** * Topics *)

Lemma endswith_app a t suf :
  (length suf <= length t)%nat -> endswith (a ++ t) suf = endswith t suf.
Proof.
  intros Hl. unfold endswith. rewrite length_app.
  replace (length suf <=? length a + length t)%nat with true
    by (symmetry; apply Nat.leb_le; lia).
  replace (length suf <=? length t)%nat with true
    by (symmetry; apply Nat.leb_le; lia).
  rewrite skipn_app.
  rewrite (skipn_all2 a) by lia.
  replace (length a + length t - length suf - length a)%nat
    with (length t - length suf)%nat by lia.
  reflexivity.
Qed.

(** The test [s.endswith(suffix)] holds exactly for the strings that
    are some text followed by the suffix. *)
Lemma endswith_spec s suf : endswith s suf = true <-> exists a, s = a ++ suf.
Proof.
  unfold endswith. rewrite andb_true_iff, Nat.leb_le, str_eqb_eq. split.
  - intros [Hl He]. exists (firstn (length s - length suf) s).
    rewrite <- He at 2. symmetry. apply firstn_skipn.
  - intros [a ->]. rewrite length_app. split; [lia|].
    replace (length a + length suf - length suf)%nat with (length a + 0)%nat by lia.
    rewrite skipn_app, skipn_all2 by lia.
    replace (length a + 0 - length a)%nat with 0%nat by lia. reflexivity.
Qed.

Lemma last_differs (a b s t : str) :
  a ++ s = b ++ t -> rev s <> [] -> hd 0 (rev s) <> hd 0 (rev t) -> rev t <> [] -> False.
Proof.
  intros H Hs Hd Ht. apply (f_equal (@rev Z)) in H. rewrite !rev_app_distr in H.
  destruct (rev s) as [|x rs]; [congruence|]. destruct (rev t) as [|y rt]; [congruence|].
  cbn [app hd] in *. congruence.
Qed.

Lemma topic_suffix_inj (a b s : str) : a ++ s = b ++ s -> a = b.
Proof. apply app_inv_tail. Qed.

(** X8. A topic names its boat: the three topics of a boat are
    different from each other, and no topic belongs to two boats,
    whatever characters the boat ids hold. *)
Theorem boat_topics_distinct (a b t : str) :
  NoDup (topics_for_boat a) /\
  (In t (topics_for_boat a) -> In t (topics_for_boat b) -> a = b).
Proof.
  assert (Hfs : forall x y : str, x ++ lit "/from_vehicle" = y ++ lit "/status" -> False).
  { intros x y H. apply (last_differs _ _ _ _ H); vm_compute; discriminate. }
  assert (Hts : forall x y : str, x ++ lit "/to_vehicle" = y ++ lit "/status" -> False).
  { intros x y H. apply (last_differs _ _ _ _ H); vm_compute; discriminate. }
  assert (Hft : forall x y : str, x ++ lit "/from_vehicle" = y ++ lit "/to_vehicle" -> False).
  { intros x y H.
    change (lit "/from_vehicle") with (lit "/from" ++ lit "_vehicle") in H.
    change (lit "/to_vehicle") with (lit "/to" ++ lit "_vehicle") in H.
    rewrite !app_assoc in H. apply app_inv_tail in H.
    apply (last_differs _ _ _ _ H); vm_compute; discriminate. }
  assert (Hbase : forall x y s : str,
            (lit "boats/" ++ x) ++ s = (lit "boats/" ++ y) ++ s -> x = y).
  { intros x y s H. apply app_inv_tail, app_inv_head in H. exact H. }
  unfold topics_for_boat. split.
  - repeat constructor; cbn [In]; intros H; repeat destruct H as [H|H];
      try contradiction; eauto using eq_sym.
  - cbn [In]. intros Ha Hb.
    repeat destruct Ha as [Ha|Ha]; try contradiction;
      repeat destruct Hb as [Hb|Hb]; try contradiction; subst t;
      eauto using eq_sym.
    all: exfalso; eauto using eq_sym.
Qed.

Lemma boat_topics_distinct_witness :
  topics_for_boat (lit "a/status") <> topics_for_boat (lit "a").
Proof.
  intros H.
  assert (Ha : In (lit "boats/a/status") (topics_for_boat (lit "a")))
    by (right; right; left; reflexivity).
  rewrite <- H in Ha.
  assert (Hb : In (lit "boats/a/status") (topics_for_boat (lit "a")))
    by (right; right; left; reflexivity).
  pose proof (proj2 (boat_topics_distinct (lit "a/status") (lit "a")
                       (lit "boats/a/status")) Ha Hb) as E.
  discriminate E.
Defined.

(** X9. Of the topics of a boat only the status topic ends with
    "/status". A message on the from_vehicle or to_vehicle topic of
    any boat is therefore printed as header and hex dump, whatever its
    payload holds. *)
Theorem vehicle_topics_dumped (boat : str) (ts : str) (msg : MQTTMessage) (st : state) :
  In (msg_topic msg) (topics_for_boat boat) ->
  (endswith (msg_topic msg) (lit "/status") = true <->
   msg_topic msg = lit "boats/" ++ boat ++ lit "/status") /\
  (msg_topic msg <> lit "boats/" ++ boat ++ lit "/status" ->
   on_message ts msg st =
     (Ok tt, record [Print (message_info ts msg);
                     Print (hexdump (msg_payload msg))] st)).
Proof.
  intros Hin.
  assert (He : endswith (msg_topic msg) (lit "/status") = true <->
               msg_topic msg = lit "boats/" ++ boat ++ lit "/status").
  { unfold topics_for_boat in Hin. cbn [In] in Hin.
    destruct Hin as [<-|[<-|[<-|[]]]].
    - rewrite endswith_app by (vm_compute; lia). split; [vm_compute; discriminate|].
      rewrite <- app_assoc. intros H. apply app_inv_head, app_inv_head in H.
      discriminate H.
    - rewrite endswith_app by (vm_compute; lia). split; [vm_compute; discriminate|].
      rewrite <- app_assoc. intros H. apply app_inv_head, app_inv_head in H.
      discriminate H.
    - rewrite endswith_app by (vm_compute; lia). rewrite <- app_assoc.
      split; reflexivity. }
  split; [exact He|].
  intros Hne. apply on_message_dump.
  destruct (endswith (msg_topic msg) (lit "/status")) eqn:E; [|reflexivity].
  destruct Hne. apply He. reflexivity.
Qed.

Lemma vehicle_topics_dumped_witness :
  let msg := {| msg_topic := lit "boats/b1/to_vehicle";
                msg_payload := bytes_of [79; 75];
                msg_qos := 2 |} in
  console (trace (snd (on_message (lit "T") msg initial))) =
    lit "[T] boats/b1/to_vehicle (QoS 2, 2 bytes)" ++ NL ++
    lit "0000  4f 4b                                             OK" ++ NL.
Proof.
  cbv zeta.
  rewrite (proj2 (vehicle_topics_dumped (lit "b1") (lit "T")
    {| msg_topic := lit "boats/b1/to_vehicle";
       msg_payload := bytes_of [79; 75];
       msg_qos := 2 |} initial
    (or_intror (or_introl eq_refl)))).
  - vm_compute. reflexivity.
  - vm_compute. discriminate.
Defined.

(** * ASCII in decoded text *)

Lemma continuation_high c : is_continuation c = true -> (c <? 128) = false.
Proof.
  unfold is_continuation. rewrite andb_true_iff, !Z.leb_le, Z.ltb_ge. lia.
Qed.

Lemma second_byte_high c0 c1 : second_byte_ok c0 c1 = true -> (c1 <? 128) = false.
Proof.
  unfold second_byte_ok, is_continuation.
  repeat match goal with |- context [if ?c then _ else _] => destruct c end;
    rewrite andb_true_iff, !Z.leb_le, Z.ltb_ge; lia.
Qed.

Lemma lor_small a b k :
  0 <= a -> 0 <= b -> 0 <= k -> Z.lor a b < 2 ^ k -> a < 2 ^ k /\ b < 2 ^ k.
Proof.
  intros Ha Hb Hk Hl.
  assert (H0 : 0 <= Z.lor a b) by (apply Z.lor_nonneg; split; assumption).
  assert (Hs : Z.shiftr (Z.lor a b) k = 0)
    by (rewrite Z.shiftr_div_pow2 by exact Hk; apply Z.div_small; lia).
  rewrite Z.shiftr_lor in Hs. apply Z.lor_eq_0_iff in Hs as [Hsa Hsb].
  rewrite Z.shiftr_div_pow2 in Hsa, Hsb by exact Hk.
  assert (Hp : 0 < 2 ^ k) by (apply Z.pow_pos_nonneg; lia).
  split.
  - pose proof (Z.div_mod a (2 ^ k)) as E. pose proof (Z.mod_pos_bound a (2 ^ k) Hp). lia.
  - pose proof (Z.div_mod b (2 ^ k)) as E. pose proof (Z.mod_pos_bound b (2 ^ k) Hp). lia.
Qed.

Lemma lor_high a b :
  0 <= a -> 0 <= b -> 128 <= a \/ 128 <= b -> (Z.lor a b <? 128) = false.
Proof.
  intros Ha Hb H. apply Z.ltb_ge.
  destruct (Z.lt_ge_cases (Z.lor a b) 128) as [Hl|Hl]; [|exact Hl].
  apply (lor_small a b 7 Ha Hb) in Hl; [|lia]. change (2 ^ 7) with 128 in Hl. lia.
Qed.

Lemma two_byte_high c0 c1 :
  (c0 <? 194) = false -> (c0 <? 224) = true ->
  (Z.lor (Z.shiftl (bits c0 31) 6) (bits c1 63) <? 128) = false.
Proof.
  rewrite Z.ltb_ge, Z.ltb_lt. intros H1 H2.
  apply lor_high; [apply shifted_bits_nonneg; lia|apply bits_nonneg; lia|left].
  rewrite Z.shiftl_mul_pow2 by lia. change 31 with (Z.ones 5).
  rewrite bits_mod by lia. change (2 ^ 5) with 32. change (2 ^ 6) with 64.
  pose proof (Z.div_mod c0 32). pose proof (Z.mod_pos_bound c0 32). lia.
Qed.

Lemma three_byte_high c0 c1 c2 :
  (c0 <? 224) = false -> (c0 <? 240) = true -> second_byte_ok c0 c1 = true ->
  (Z.lor (Z.shiftl (bits c0 15) 12)
         (Z.lor (Z.shiftl (bits c1 63) 6) (bits c2 63)) <? 128) = false.
Proof.
  rewrite Z.ltb_ge, Z.ltb_lt. intros H1 H2 H3.
  assert (Hb : 0 <= Z.lor (Z.shiftl (bits c1 63) 6) (bits c2 63))
    by (apply Z.lor_nonneg; split; [apply shifted_bits_nonneg; lia|apply bits_nonneg; lia]).
  apply lor_high; [apply shifted_bits_nonneg; lia|exact Hb|].
  destruct (Z.eq_dec c0 224) as [->|Hne].
  - right. unfold second_byte_ok in H3. cbn [Z.eqb Pos.eqb] in H3.
    apply andb_true_iff in H3 as [Hl Hu]. apply Z.leb_le in Hl, Hu.
    apply Z.ltb_ge. apply lor_high;
      [apply shifted_bits_nonneg; lia|apply bits_nonneg; lia|left].
    rewrite Z.shiftl_mul_pow2 by lia. change 63 with (Z.ones 6).
    rewrite bits_mod by lia. change (2 ^ 6) with 64.
    pose proof (Z.div_mod c1 64). pose proof (Z.mod_pos_bound c1 64). lia.
  - left. rewrite Z.shiftl_mul_pow2 by lia. change 15 with (Z.ones 4).
    rewrite bits_mod by lia. change (2 ^ 4) with 16. change (2 ^ 12) with 4096.
    pose proof (Z.div_mod c0 16). pose proof (Z.mod_pos_bound c0 16). lia.
Qed.

Lemma four_byte_high c0 c1 c2 c3 :
  (c0 <? 240) = false -> (c0 <? 245) = true -> second_byte_ok c0 c1 = true ->
  (Z.lor (Z.shiftl (bits c0 7) 18)
         (Z.lor (Z.shiftl (bits c1 63) 12)
                (Z.lor (Z.shiftl (bits c2 63) 6) (bits c3 63))) <? 128) = false.
Proof.
  rewrite Z.ltb_ge, Z.ltb_lt. intros H1 H2 H3.
  assert (Hc : 0 <= Z.lor (Z.shiftl (bits c2 63) 6) (bits c3 63))
    by (apply Z.lor_nonneg; split; [apply shifted_bits_nonneg; lia|apply bits_nonneg; lia]).
  assert (Hb : 0 <= Z.lor (Z.shiftl (bits c1 63) 12)
                      (Z.lor (Z.shiftl (bits c2 63) 6) (bits c3 63)))
    by (apply Z.lor_nonneg; split; [apply shifted_bits_nonneg; lia|exact Hc]).
  apply lor_high; [apply shifted_bits_nonneg; lia|exact Hb|].
  destruct (Z.eq_dec c0 240) as [->|Hne].
  - right. unfold second_byte_ok in H3. cbn [Z.eqb Pos.eqb] in H3.
    apply andb_true_iff in H3 as [Hl Hu]. apply Z.leb_le in Hl, Hu.
    apply Z.ltb_ge. apply lor_high; [apply shifted_bits_nonneg; lia|exact Hc|left].
    rewrite Z.shiftl_mul_pow2 by lia. change 63 with (Z.ones 6).
    rewrite bits_mod by lia. change (2 ^ 6) with 64. change (2 ^ 12) with 4096.
    pose proof (Z.div_mod c1 64). pose proof (Z.mod_pos_bound c1 64). lia.
  - left. rewrite Z.shiftl_mul_pow2 by lia. change 7 with (Z.ones 3).
    rewrite bits_mod by lia. change (2 ^ 3) with 8. change (2 ^ 18) with 262144.
    pose proof (Z.div_mod c0 8). pose proof (Z.mod_pos_bound c0 8). lia.
Qed.

(** What the tests of a leaf say about the bytes and the code point. *)
Ltac leaf_facts :=
  repeat match goal with
         | E : is_continuation _ = true |- _ => apply continuation_high in E
         | E : second_byte_ok ?c0 ?c1 = true |- _ =>
             lazymatch goal with
             | _ : (c1 <? 128) = false |- _ => fail
             | _ => pose proof (second_byte_high c0 c1 E)
             end
         end.

Lemma utf8_decode_ascii_bounded (n : nat) :
  forall p s, (length p <= n)%nat ->
    utf8_decode Replace p = Ok s ->
    filter (fun c => c <? 128) s =
      map byte_val (filter (fun b => byte_val b <? 128) p) /\
    (length s <= length p)%nat.
Proof.
  induction n as [|n IH]; intros p s Hp.
  - destruct p; [intros [= <-]; split; [reflexivity|cbn [length]; lia]|cbn in Hp; lia].
  - decode_leaves p; [intros [= <-]; split; [reflexivity|cbn [length]; lia]|..];
      intros H;
      first [ apply decoded_inv in H as (s' & H & ->)
            | apply decode_error_replace_inv in H as (s' & H & ->) ];
      first [ injection H as <-
            | apply IH in H as [Hf Hl]; [|cbn [length] in *; lia] ];
      try (pose proof (two_byte_high (byte_val b0) (byte_val b) ltac:(assumption)
                         ltac:(assumption)));
      try (pose proof (three_byte_high (byte_val b0) (byte_val b) (byte_val b1)
                         ltac:(assumption) ltac:(assumption) ltac:(assumption)));
      try (pose proof (four_byte_high (byte_val b0) (byte_val b) (byte_val b1)
                         (byte_val b2)
                         ltac:(assumption) ltac:(assumption) ltac:(assumption)));
      leaf_facts;
      cbn [filter map length] in *;
      change (REPLACEMENT_CHARACTER <? 128) with false; cbv iota;
      repeat match goal with
             | E : (_ <? 128) = _ |- _ => rewrite E in *; clear E
             end;
      cbv iota; cbn [map];
      (split; [first [exact Hf | f_equal; exact Hf | reflexivity]|lia]).
Qed.

(** The replacing decoder keeps the ASCII bytes of its input, in
    order, and makes no other ASCII character. *)
Lemma utf8_decode_keeps_ascii p s :
  utf8_decode Replace p = Ok s ->
  filter (fun c => c <? 128) s =
    map byte_val (filter (fun b => byte_val b <? 128) p) /\
  (length s <= length p)%nat.
Proof. apply (utf8_decode_ascii_bounded (length p)). lia. Qed.

(** X10. A status message that is printed as text keeps every ASCII
    byte of its payload: the ASCII characters of the printed text are
    the ASCII bytes of the payload, in the same order, and whatever
    else the payload holds shows as characters outside ASCII. The text
    has at most as many characters as the payload has bytes. *)
Theorem status_text_keeps_ascii (ts : str) (msg : MQTTMessage) (st : state) :
  endswith (msg_topic msg) (lit "/status") = true ->
  is_mostly_text (msg_payload msg) = true ->
  exists text,
    on_message ts msg st =
      (Ok tt, record [Print (message_info ts msg ++ lit ": " ++ text)] st) /\
    filter (fun c => c <? 128) text =
      map byte_val (filter (fun b => byte_val b <? 128) (msg_payload msg)) /\
    (length text <= length (msg_payload msg))%nat.
Proof.
  intros Ht Hm.
  destruct (utf8_decode_replace_total (msg_payload msg)) as [text Hd].
  exists text. split.
  - apply on_message_text; [rewrite Ht, Hm; reflexivity|exact Hd].
  - apply utf8_decode_keeps_ascii. exact Hd.
Qed.

Lemma status_text_keeps_ascii_witness :
  let msg := {| msg_topic := lit "boats/x/status";
                msg_payload := bytes_of [79; 75; 255; 102; 105; 110; 101];
                msg_qos := 1 |} in
  exists text,
    on_message (lit "T") msg initial =
      (Ok tt, record [Print (message_info (lit "T") msg ++ lit ": " ++ text)] initial) /\
    filter (fun c => c <? 128) text = lit "OKfine" /\
    (length text <= 7)%nat.
Proof.
  cbv zeta.
  apply (status_text_keeps_ascii (lit "T")
           {| msg_topic := lit "boats/x/status";
              msg_payload := bytes_of [79; 75; 255; 102; 105; 110; 101];
              msg_qos := 1 |} initial).
  - vm_compute. reflexivity.
  - vm_compute. reflexivity.
Defined.

(** * Failures of the connect callback *)

Lemma accepted_app env pre post :
  accepted env (pre ++ post) = accepted env pre && accepted env post.
Proof. unfold accepted. apply forallb_app. Qed.

(** A list the client does not take whole splits at the first
    subscription it refuses. *)
Lemma accepted_false_split env subs :
  accepted env subs = false ->
  exists pre t q post e,
    subs = pre ++ (t, q) :: post /\ accepted env pre = true /\
    subscribe_error env t q = Some e.
Proof.
  induction subs as [|[t q] subs IH]; intros Ha; [discriminate|].
  destruct (subscribe_error env t q) as [e|] eqn:Hs.
  - exists [], t, q, subs, e. split; [reflexivity|]. split; [reflexivity|exact Hs].
  - unfold accepted in Ha. cbn [forallb] in Ha. rewrite Hs in Ha. cbn [andb] in Ha.
    destruct (IH Ha) as (pre & t' & q' & post & e & -> & Hp & He).
    exists ((t, q) :: pre), t', q', post, e. split; [reflexivity|]. split; [|exact He].
    unfold accepted. cbn [forallb]. rewrite Hs. exact Hp.
Qed.

Lemma subscribe_loop_split env pre t q post e st :
  accepted env pre = true -> subscribe_error env t q = Some e ->
  for_each (pre ++ (t, q) :: post)
           (fun '(topic, qos) => client_subscribe env topic qos) st =
    (Raise (Exception e), record (map (fun '(t, q) => Subscribe t q) pre) st).
Proof.
  intros Ha He. revert st Ha.
  induction pre as [|[t' q'] pre IH]; intros st Ha; cbn [app for_each map].
  - unfold bind, client_subscribe. rewrite He. unfold raise.
    rewrite record_nil. reflexivity.
  - apply accepted_cons in Ha as [Hs Ha].
    unfold bind at 1. unfold client_subscribe at 1. rewrite Hs. unfold emit.
    rewrite (IH _ Ha), record_record. reflexivity.
Qed.

Lemma resubscribe_loop_split env ts pre t q post e st :
  accepted env pre = true -> subscribe_error env t q = Some e ->
  for_each (pre ++ (t, q) :: post)
    (fun '(topic, qos) =>
       client_subscribe env topic qos ;;;
       print (stamp ts ++ lit "Subscribed to " ++ topic ++
              lit " (QoS " ++ str_of_int qos ++ lit ")")) st =
    (Raise (Exception e),
     record (flat_map (fun '(t, q) =>
               [ Subscribe t q;
                 Print (stamp ts ++ lit "Subscribed to " ++ t ++
                        lit " (QoS " ++ str_of_int q ++ lit ")") ]) pre) st).
Proof.
  intros Ha He. revert st Ha.
  induction pre as [|[t' q'] pre IH]; intros st Ha; cbn [app for_each flat_map].
  - unfold bind, client_subscribe. rewrite He. unfold raise.
    rewrite record_nil. reflexivity.
  - apply accepted_cons in Ha as [Hs Ha].
    unfold bind at 1. unfold bind at 1. unfold client_subscribe at 1. rewrite Hs.
    unfold emit at 1. unfold print at 1, emit at 1.
    rewrite (IH _ Ha), !record_record. reflexivity.
Qed.

(** X11. When the client refuses a subscription during a connection
    acknowledgement, [on_connect] raises the client's error at once:
    the subscriptions before it are made and confirmed, the refused one
    is not confirmed, and the ones behind it are not attempted. *)
Theorem on_connect_refused (env : environment) (ts : str) (d : dict) (st : state)
    (pre post : list (str * Z)) (t : str) (q : Z) (e : error) :
  dict_get d "subs" [] = pre ++ (t, q) :: post ->
  accepted env pre = true ->
  subscribe_error env t q = Some e ->
  on_connect env ts (Some d) 0 st =
    (Raise (Exception e), record (resubscription ts pre) st).
Proof.
  intros Hd Ha He. unfold on_connect, resubscription. cbn [Z.eqb].
  unfold bind at 1. unfold print at 1, emit. rewrite Hd.
  match goal with
  | |- context [for_each _ ?f ?s] => pose (F := f); pose (S0 := s)
  end.
  assert (HF : for_each (pre ++ (t, q) :: post) F S0 = _)
    by (apply (resubscribe_loop_split env ts pre t q post e S0 Ha He)).
  unfold F, S0 in HF. rewrite HF. rewrite record_record. reflexivity.
Qed.

Lemma on_connect_refused_witness :
  let env := {| clock := 0; connect_outcome := Returns;
                subscribe_error := fun t _ =>
                  if endswith t (lit "/status")
                  then Some (OSError (lit "not connected")) else None;
                disconnect_error := None; inbound := []; loop_outcome := Returns |} in
  on_connect env (lit "T")
    (Some [("subs"%string, map (fun t => (t, 1)) (topics_for_boat (lit "x")))]) 0 initial =
  (Raise (Exception (OSError (lit "not connected"))),
   record (resubscription (lit "T")
             [(lit "boats/x/from_vehicle", 1); (lit "boats/x/to_vehicle", 1)]) initial).
Proof.
  cbv zeta.
  apply (on_connect_refused _ (lit "T") _ initial
           [(lit "boats/x/from_vehicle", 1); (lit "boats/x/to_vehicle", 1)] []
           (lit "boats/x/status") 1 (OSError (lit "not connected"))).
  - reflexivity.
  - reflexivity.
  - reflexivity.
Defined.

(** * More on [main] *)

Section MainRuns.

Variable urlparse : str -> result ParseResult.
Variable parse_args : list str -> result Args.
Variable env : environment.

(** [main] up to its [try] block, when the address resolves and the
    connect call returns. *)
Lemma main_connected argv args host p use_tls :
  parse_args argv = Ok args ->
  parse_host_port urlparse (arg_host args) (arg_port args) = Ok (host, p, use_tls) ->
  connect_outcome env = Returns ->
  main urlparse parse_args env argv initial =
    try_except
      (for_each (plan_subs args)
         (fun '(topic, qos) => client_subscribe env topic qos) ;;;
       loop_forever env ;;;
       ret 0)
      (fun e => print (lit "Connection error: " ++ error_str e) ;;; ret 1)
      (record (connecting host p use_tls) (prepared env args use_tls)).
Proof.
  intros Hargs Hres Hconn. unfold main. unfold bind at 1. unfold lift.
  rewrite Hargs, Hres.
  unfold bind at 1. unfold emit at 1.
  unfold bind at 1. unfold user_data_set at 1.
  unfold bind at 1. unfold signal_sigint at 1.
  unfold try_except. unfold bind at 1. unfold print at 1, emit at 1.
  unfold client_connect. unfold bind at 1. unfold bind at 1. unfold emit at 1.
  rewrite Hconn. cbn [finish]. unfold ret at 1.
  rewrite record_record. reflexivity.
Qed.

Lemma main_refused argv args host p use_tls pre t q post e :
  parse_args argv = Ok args ->
  parse_host_port urlparse (arg_host args) (arg_port args) = Ok (host, p, use_tls) ->
  connect_outcome env = Returns ->
  plan_subs args = pre ++ (t, q) :: post ->
  accepted env pre = true ->
  subscribe_error env t q = Some e ->
  main urlparse parse_args env argv initial =
    (Ok 1, record (connecting host p use_tls ++
                   map (fun '(t, q) => Subscribe t q) pre ++
                   connection_error e) (prepared env args use_tls)).
Proof.
  intros Hargs Hres Hconn Hplan Ha He.
  rewrite (main_connected argv args host p use_tls Hargs Hres Hconn).
  unfold try_except. unfold bind at 1. rewrite Hplan.
  match goal with
  | |- context [for_each _ ?f ?s] => pose (F := f); pose (S0 := s)
  end.
  assert (HF : for_each (pre ++ (t, q) :: post) F S0 = _)
    by (apply (subscribe_loop_split env pre t q post e S0 Ha He)).
  unfold F, S0 in HF. rewrite HF.
  unfold bind, print, emit, ret. rewrite !record_record, <- ?app_assoc. reflexivity.
Qed.

(** X12. When the client refuses one of the subscriptions that
    [main] makes right after connecting, the run ends there with exit
    status 1: the subscriptions before the refused one are made, the
    connection error line is printed, and the event loop is never
    entered, whatever the broker has sent. *)
Theorem main_subscription_refused argv args host p use_tls pre t q post e :
  parse_args argv = Ok args ->
  parse_host_port urlparse (arg_host args) (arg_port args) = Ok (host, p, use_tls) ->
  connect_outcome env = Returns ->
  plan_subs args = pre ++ (t, q) :: post ->
  accepted env pre = true ->
  subscribe_error env t q = Some e ->
  run urlparse parse_args env argv =
    (1, NewClient (build_client (lit "rcboat_sniffer_" ++ str_of_int (clock env))
                     use_tls (arg_username args) (arg_password args)) ::
        Print (lit "Connecting to " ++ host ++ lit ":" ++ str_of_int p ++
               lit " TLS=" ++ str_of_bool use_tls) ::
        Connect host p 60 ::
        map (fun '(t, q) => Subscribe t q) pre ++
        [Print (lit "Connection error: " ++ error_str e)]).
Proof.
  intros Hargs Hres Hconn Hplan Ha He. unfold run.
  rewrite (main_refused argv args host p use_tls pre t q post e
             Hargs Hres Hconn Hplan Ha He).
  reflexivity.
Qed.

(** Every event of a session is a line on the console or a
    subscription of the list in the userdata. *)
Lemma session_events_quiet plan subs ev :
  incl subs plan -> Forall (planned plan) (session_events subs ev).
Proof.
  intros Hi. destruct ev as [ts rc|ts msg]; cbn [session_events].
  - destruct (rc =? 0).
    + unfold resubscription. constructor; [exact I|].
      induction subs as [|[t q] subs IH]; cbn [flat_map app]; [constructor|].
      constructor; [apply Hi; left; reflexivity|]. constructor; [exact I|].
      apply IH. intros x Hx. apply Hi. right. exact Hx.
    + repeat constructor.
  - unfold rendering. destruct (_ && _); repeat constructor.
Qed.

Lemma subscribe_events_quiet (plan subs : list (str * Z)) :
  incl subs plan ->
  Forall (planned plan) (map (fun '(t, q) => Subscribe t q) subs).
Proof.
  induction subs as [|[t q] subs IH]; intros Hi; cbn [map]; constructor.
  - apply Hi. left. reflexivity.
  - apply IH. intros x Hx. apply Hi. right. exact Hx.
Qed.

(** The shape of every run that has resolved its address. *)
Lemma main_outcomes argv args host p use_tls :
  parse_args argv = Ok args ->
  parse_host_port urlparse (arg_host args) (arg_port args) = Ok (host, p, use_tls) ->
  exists middle ending,
    snd (run urlparse parse_args env argv) =
      trace (prepared env args use_tls) ++ connecting host p use_tls ++
      middle ++ ending /\
    Forall (planned (plan_subs args)) middle /\
    (ending = [] \/
     ending = [Disconnect] /\ fst (run urlparse parse_args env argv) = 0).
Proof.
  intros Hargs Hres.
  pose proof (main_resolved urlparse parse_args env argv args host p use_tls
                Hargs Hres) as H.
  cbv zeta in H. unfold run.
  assert (Hsig : forall st0 before,
            Forall (planned (plan_subs args)) before ->
            main urlparse parse_args env argv initial =
              (Raise (SystemExit 0),
               record (before ++ sigint_events env)
                 (record (connecting host p use_tls) (prepared env args use_tls))) ->
            st0 = main urlparse parse_args env argv initial ->
            exists middle ending,
              snd (let '(r, st) := st0 in (exit_status r, trace st)) =
                trace (prepared env args use_tls) ++ connecting host p use_tls ++
                middle ++ ending /\
              Forall (planned (plan_subs args)) middle /\
              (ending = [] \/
               ending = [Disconnect] /\
               fst (let '(r, st) := st0 in (exit_status r, trace st)) = 0)).
  { intros st0 before Hq Hm ->. rewrite Hm. cbn [snd fst exit_status].
    unfold sigint_events. destruct (disconnect_error env).
    - exists (before ++ [Print (NL ++ lit "Disconnecting...")]), [].
      split; [|split].
      + cbn [trace record]. rewrite app_nil_r, <- ?app_assoc. reflexivity.
      + apply Forall_app. split; [exact Hq|repeat constructor].
      + left. reflexivity.
    - exists (before ++ [Print (NL ++ lit "Disconnecting...")]), [Disconnect].
      split; [|split].
      + cbn [trace record]. rewrite <- ?app_assoc. reflexivity.
      + apply Forall_app. split; [exact Hq|repeat constructor].
      + right. split; reflexivity. }
  destruct (connect_outcome env) as [|e|] eqn:Hconn.
  - destruct (accepted env (plan_subs args)) eqn:Ha.
    + unfold session_end in H. destruct (loop_outcome env) as [|e|].
      * rewrite H. cbn [snd fst exit_status].
        exists (map (fun '(t, q) => Subscribe t q) (plan_subs args) ++
                flat_map (session_events (plan_subs args)) (inbound env)), [].
        split; [|split].
        -- cbn [trace record]. rewrite app_nil_r, <- ?app_assoc. reflexivity.
        -- apply Forall_app. split; [apply subscribe_events_quiet, incl_refl|].
           apply Forall_flat_map, Forall_forall. intros ev _.
           apply session_events_quiet, incl_refl.
        -- left. reflexivity.
      * rewrite H. cbn [snd fst exit_status].
        exists ((map (fun '(t, q) => Subscribe t q) (plan_subs args) ++
                 flat_map (session_events (plan_subs args)) (inbound env)) ++
                connection_error e), [].
        split; [|split].
        -- cbn [trace record]. rewrite app_nil_r, <- ?app_assoc. reflexivity.
        -- rewrite !Forall_app. split; [split|].
           ++ apply subscribe_events_quiet, incl_refl.
           ++ apply Forall_flat_map, Forall_forall. intros ev _.
              apply session_events_quiet, incl_refl.
           ++ repeat constructor.
        -- left. reflexivity.
      * rewrite record_record in H.
        eapply Hsig; [|exact H|reflexivity].
        apply Forall_app. split; [apply subscribe_events_quiet, incl_refl|].
        apply Forall_flat_map, Forall_forall. intros ev _.
        apply session_events_quiet, incl_refl.
    + clear H. apply accepted_false_split in Ha
        as (pre & t & q & post & e & Hplan & Hpre & He).
      rewrite (main_refused argv args host p use_tls pre t q post e
                 Hargs Hres Hconn Hplan Hpre He).
      cbn [snd fst exit_status].
      exists (map (fun '(t, q) => Subscribe t q) pre ++ connection_error e), [].
      split; [|split].
      * cbn [trace record]. rewrite app_nil_r, <- ?app_assoc. reflexivity.
      * apply Forall_app. split; [|repeat constructor].
        apply subscribe_events_quiet. rewrite Hplan. apply incl_appl, incl_refl.
      * left. reflexivity.
  - rewrite H. cbn [snd fst exit_status]. exists (connection_error e), [].
    split; [|split].
    + cbn [trace record]. rewrite app_nil_r. reflexivity.
    + repeat constructor.
    + left. reflexivity.
  - eapply (Hsig _ []); [constructor|exact H|reflexivity].
Qed.

(** X13. The order of a run that has resolved its address: the
    client is made, the connecting line is printed, the client
    connects once, to the resolved host and port with keepalive 60,
    and everything behind is console output and subscriptions of the
    plan. The client disconnects only as the last thing of a run, and
    such a run exits with status 0. *)
Theorem main_event_order argv args host p use_tls :
  parse_args argv = Ok args ->
  parse_host_port urlparse (arg_host args) (arg_port args) = Ok (host, p, use_tls) ->
  exists c middle ending,
    snd (run urlparse parse_args env argv) =
      NewClient c ::
      Print (lit "Connecting to " ++ host ++ lit ":" ++ str_of_int p ++
             lit " TLS=" ++ str_of_bool use_tls) ::
      Connect host p 60 :: middle ++ ending /\
    Forall (planned (plan_subs args)) middle /\
    (ending = [] \/
     ending = [Disconnect] /\ fst (run urlparse parse_args env argv) = 0).
Proof.
  intros Hargs Hres.
  destruct (main_outcomes argv args host p use_tls Hargs Hres)
    as (middle & ending & Ht & Hq & He).
  eexists _, middle, ending. split; [|split; [exact Hq|exact He]].
  rewrite Ht. reflexivity.
Qed.

(** X14. The client of a run is configured from the arguments and
    the resolved address alone: its id carries the clock, the session
    is clean, reconnects wait between 1 and 60 seconds, TLS 1.2 is the
    floor exactly when the resolver asked for encryption, and
    credentials are set exactly for a user name that is not empty,
    with the empty password when none is given. For a bare host name
    this means encryption exactly on port 8883. *)
Theorem client_configuration argv args host p use_tls :
  parse_args argv = Ok args ->
  parse_host_port urlparse (arg_host args) (arg_port args) = Ok (host, p, use_tls) ->
  exists c rest,
    snd (run urlparse parse_args env argv) = NewClient c :: rest /\
    (forall c', ~ In (NewClient c') rest) /\
    client_id c = lit "rcboat_sniffer_" ++ str_of_int (clock env) /\
    clean_session c = true /\
    reconnect_delay c = (1, 60) /\
    (tls_minimum_version c = Some TLSv1_2 <-> use_tls = true) /\
    (username_pw c = None <->
     arg_username args = None \/ arg_username args = Some []) /\
    (forall u, arg_username args = Some u -> u <> [] ->
       username_pw c =
         Some (u, match arg_password args with Some pw => pw | None => [] end)) /\
    (contains (lit "://") (arg_host args) = false ->
       (tls_minimum_version c = Some TLSv1_2 <-> p = 8883)).
Proof.
  intros Hargs Hres.
  destruct (main_outcomes argv args host p use_tls Hargs Hres)
    as (middle & ending & Ht & Hq & He).
  eexists _, _. split; [rewrite Ht; reflexivity|].
  cbn [client_id clean_session reconnect_delay tls_minimum_version username_pw
       build_client].
  split; [|split; [reflexivity|split; [reflexivity|split; [reflexivity|]]]].
  - intros c' Hin. unfold connecting in Hin. cbn [In app] in Hin.
    destruct Hin as [Hin|[Hin|Hin]]; try discriminate Hin.
    apply in_app_or in Hin as [Hin|Hin].
    + rewrite Forall_forall in Hq. apply (Hq _ Hin).
    + destruct He as [->|[-> _]]; [destruct Hin|].
      destruct Hin as [Hin|[]]. discriminate Hin.
  - split; [|split; [|split]].
    + destruct use_tls; split; congruence.
    + destruct (arg_username args) as [[|ch u]|]; split; intros H;
        try reflexivity; try discriminate H; auto.
      destruct H as [H|H]; discriminate H.
    + intros u Hu Hne. rewrite Hu. destruct u as [|ch u]; [congruence|].
      destruct (arg_password args) as [[|ch' pw]|]; reflexivity.
    + intros Hbare. unfold parse_host_port in Hres. rewrite Hbare in Hres.
      injection Hres as _ Hp Htls. subst p. rewrite <- Htls.
      destruct (Z.eqb_spec (match arg_port args with Some p => p | None => 8883 end) 8883);
        split; congruence.
Qed.

Lemma resubscription_count ts (subs : list (str * Z)) :
  length (filter is_subscribe (resubscription ts subs)) = length subs.
Proof.
  unfold resubscription. cbn [filter is_subscribe].
  induction subs as [|[t q] subs IH]; cbn [flat_map app filter is_subscribe length];
    [reflexivity|]. rewrite IH. reflexivity.
Qed.

Lemma session_events_count subs ev :
  length (filter is_subscribe (session_events subs ev)) =
    if acknowledged ev then length subs else 0%nat.
Proof.
  destruct ev as [ts rc|ts msg]; cbn [session_events acknowledged].
  - destruct (rc =? 0); [apply resubscription_count|reflexivity].
  - unfold rendering. destruct (_ && _); reflexivity.
Qed.

Lemma session_count subs evs :
  length (filter is_subscribe (flat_map (session_events subs) evs)) =
    (length subs * length (filter acknowledged evs))%nat.
Proof.
  induction evs as [|ev evs IH]; cbn [flat_map filter length]; [lia|].
  rewrite filter_app, length_app, IH, session_events_count.
  destruct (acknowledged ev); cbn [length]; lia.
Qed.

Lemma subscribe_events_count (subs : list (str * Z)) :
  length (filter is_subscribe (map (fun '(t, q) => Subscribe t q) subs)) =
    length subs.
Proof.
  induction subs as [|[t q] subs IH]; cbn [map filter is_subscribe length];
    [reflexivity|]. rewrite IH. reflexivity.
Qed.

Lemma plan_subs_length args : length (plan_subs args) = 3%nat.
Proof. rewrite plan_subs_map. destruct (arg_wildcard args); reflexivity. Qed.

(** X15. A run that reaches the event loop requests three
    subscriptions right after connecting and three more for every
    connection acknowledgement with code 0, and none for any other
    event; so the first acknowledgement already brings the count to
    six. *)
Theorem subscription_count argv args host p use_tls :
  parse_args argv = Ok args ->
  parse_host_port urlparse (arg_host args) (arg_port args) = Ok (host, p, use_tls) ->
  connect_outcome env = Returns ->
  accepted env (plan_subs args) = true ->
  length (filter is_subscribe (snd (run urlparse parse_args env argv))) =
    (3 * (1 + length (filter acknowledged (inbound env))))%nat.
Proof.
  intros Hargs Hres Hconn Ha.
  pose proof (main_resolved urlparse parse_args env argv args host p use_tls
                Hargs Hres) as H.
  cbv zeta in H. rewrite Hconn, Ha in H. unfold run. rewrite H.
  assert (Hplan : length (filter is_subscribe
                    (map (fun '(t, q) => Subscribe t q) (plan_subs args))) = 3%nat).
  { rewrite subscribe_events_count. apply plan_subs_length. }
  assert (Hcount : forall ending, filter is_subscribe ending = [] ->
            length (filter is_subscribe
              (trace (record (map (fun '(t, q) => Subscribe t q) (plan_subs args) ++
                              flat_map (session_events (plan_subs args)) (inbound env))
                        (record (connecting host p use_tls)
                                (prepared env args use_tls))) ++ ending)) =
            (3 * (1 + length (filter acknowledged (inbound env))))%nat).
  { intros ending He. cbn [trace record prepared].
    rewrite !filter_app, !length_app, He, Hplan, session_count, plan_subs_length.
    cbn [app filter is_subscribe connecting length]. lia. }
  unfold session_end. destruct (loop_outcome env) as [|e|]; cbn [snd].
  - rewrite <- (app_nil_r (trace _)). apply Hcount. reflexivity.
  - cbn [trace record]. rewrite <- !app_assoc, !app_assoc.
    rewrite <- !app_assoc.
    specialize (Hcount (connection_error e) eq_refl).
    cbn [trace record] in Hcount. rewrite <- !app_assoc in Hcount. exact Hcount.
  - assert (Hs : filter is_subscribe (sigint_events env) = [])
      by (unfold sigint_events; destruct (disconnect_error env); reflexivity).
    specialize (Hcount (sigint_events env) Hs).
    cbn [trace record] in Hcount |- *. rewrite <- !app_assoc in Hcount |- *.
    exact Hcount.
Qed.

End MainRuns.

Lemma main_subscription_refused_witness :
  let env := {| clock := 1700000000; connect_outcome := Returns;
                subscribe_error := fun t _ =>
                  if endswith t (lit "/status")
                  then Some (OSError (lit "not connected")) else None;
                disconnect_error := None;
                inbound := [ConnAck (lit "T1") 0];
                loop_outcome := Returns |} in
  run urllib_parse.urlparse argparse.parse_args env (sample_argv (lit "tcp://h:1884")) =
    (1, [ NewClient (build_client (lit "rcboat_sniffer_1700000000") false None None);
          Print (lit "Connecting to h:1884 TLS=False");
          Connect (lit "h") 1884 60;
          Subscribe (lit "boats/x/from_vehicle") 1;
          Subscribe (lit "boats/x/to_vehicle") 1;
          Print (lit "Connection error: not connected") ]).
Proof.
  cbv zeta.
  rewrite (main_subscription_refused urllib_parse.urlparse argparse.parse_args _
             (sample_argv (lit "tcp://h:1884")) (sample_args (lit "tcp://h:1884"))
             (lit "h") 1884 false
             [(lit "boats/x/from_vehicle", 1); (lit "boats/x/to_vehicle", 1)]
             (lit "boats/x/status") 1 [] (OSError (lit "not connected"))).
  - vm_compute. reflexivity.
  - vm_compute. reflexivity.
  - vm_compute. reflexivity.
  - reflexivity.
  - vm_compute. reflexivity.
  - vm_compute. reflexivity.
  - vm_compute. reflexivity.
Defined.

Lemma main_event_order_witness :
  exists c middle ending,
    snd (run urllib_parse.urlparse argparse.parse_args sample_env
           (sample_argv (lit "ssl://h"))) =
      NewClient c :: Print (lit "Connecting to h:8883 TLS=True") ::
      Connect (lit "h") 8883 60 :: middle ++ ending /\
    Forall (planned (map (fun t => (t, 1)) (topics_for_boat (lit "x")))) middle /\
    (ending = [] \/
     ending = [Disconnect] /\
     fst (run urllib_parse.urlparse argparse.parse_args sample_env
            (sample_argv (lit "ssl://h"))) = 0).
Proof.
  apply (main_event_order urllib_parse.urlparse argparse.parse_args sample_env
           (sample_argv (lit "ssl://h")) (sample_args (lit "ssl://h"))
           (lit "h") 8883 true).
  - vm_compute. reflexivity.
  - vm_compute. reflexivity.
Defined.

Lemma client_configuration_witness :
  let argv := [lit "--host"; lit "broker.local"; lit "--username"; lit "boat"] in
  exists c rest,
    snd (run urllib_parse.urlparse argparse.parse_args sample_env argv) =
      NewClient c :: rest /\
    username_pw c = Some (lit "boat", []) /\
    tls_minimum_version c = Some TLSv1_2.
Proof.
  cbv zeta.
  destruct (client_configuration urllib_parse.urlparse argparse.parse_args sample_env
              [lit "--host"; lit "broker.local"; lit "--username"; lit "boat"]
              {| arg_host := lit "broker.local"; arg_port := None;
                 arg_username := Some (lit "boat"); arg_password := None;
                 arg_boat_id := lit "sea_serpent_01"; arg_wildcard := false;
                 arg_qos := 1 |}
              (lit "broker.local") 8883 true)
    as (c & rest & Hrun & _ & _ & _ & _ & Htls & _ & Hcred & Hbare).
  - vm_compute. reflexivity.
  - vm_compute. reflexivity.
  - exists c, rest. split; [exact Hrun|]. split.
    + apply (Hcred (lit "boat") eq_refl). discriminate.
    + apply Htls. reflexivity.
Defined.

Lemma subscription_count_witness :
  length (filter is_subscribe
            (snd (run urllib_parse.urlparse argparse.parse_args sample_env
                    (sample_argv (lit "ssl://h"))))) = 9%nat.
Proof.
  apply (subscription_count urllib_parse.urlparse argparse.parse_args sample_env
           (sample_argv (lit "ssl://h")) (sample_args (lit "ssl://h"))
           (lit "h") 8883 true).
  - vm_compute. reflexivity.
  - vm_compute. reflexivity.
  - reflexivity.
  - vm_compute. reflexivity.
Defined.

(** * More on the resolver *)

Lemma str_or_nonempty (a : option str) (b : str) : b <> [] -> str_or a b <> [].
Proof. intros Hb. destruct a as [[|c s]|]; cbn [str_or]; (exact Hb || discriminate). Qed.

Lemma str_or_cases (a : option str) (b : str) :
  str_or a b = b \/ a = Some (str_or a b).
Proof. destruct a as [[|c s]|]; cbn [str_or]; auto. Qed.

(** X16. The host the resolver returns is the host argument itself or
    the host name the URL parser found in it, and it is empty only for
    the empty argument: a URL without a host name resolves to the whole
    URL as host. *)
Theorem resolved_host (urlparse : str -> result ParseResult)
    (host_arg : str) (port_arg : option Z) (h : str) (p : Z) (tls : bool) :
  parse_host_port urlparse host_arg port_arg = Ok (h, p, tls) ->
  (h = [] <-> host_arg = []) /\
  (h = host_arg \/
   contains (lit "://") host_arg = true /\
   exists u, urlparse host_arg = Ok u /\ hostname u = Some h).
Proof.
  unfold parse_host_port. destruct (contains (lit "://") host_arg) eqn:Hc.
  - assert (Hne : host_arg <> []) by (intros ->; discriminate Hc).
    destruct (urlparse host_arg) as [u|e]; [|discriminate].
    destruct (negb _); [discriminate|].
    assert (Hh : str_or (hostname u) host_arg = h ->
                 (h = [] <-> host_arg = []) /\
                 (h = host_arg \/ true = true /\
                  exists u0, Ok u = Ok u0 /\ hostname u0 = Some h)).
    { intros <-. split.
      - split; intros H; [destruct (str_or_nonempty _ _ Hne H)|contradiction].
      - destruct (str_or_cases (hostname u) host_arg) as [H|H]; [left; exact H|].
        right. split; [reflexivity|]. exists u. split; [reflexivity|exact H]. }
    destruct port_arg as [q|].
    + intros [= H _ _]. apply Hh, H.
    + destruct (port u) as [up|e]; [|discriminate].
      intros [= H _ _]. apply Hh, H.
  - intros [= <- _ _]. split; [reflexivity|left; reflexivity].
Qed.

Lemma resolved_host_witness :
  parse_host_port urllib_parse.urlparse (lit "ssl://:8883") None =
    Ok (lit "ssl://:8883", 8883, true) /\
  lit "ssl://:8883" <> [].
Proof.
  assert (H : parse_host_port urllib_parse.urlparse (lit "ssl://:8883") None =
              Ok (lit "ssl://:8883", 8883, true)) by (vm_compute; reflexivity).
  split; [exact H|].
  intros E.
  apply (proj1 (resolved_host urllib_parse.urlparse _ None _ 8883 true H)) in E.
  discriminate E.
Defined.

(** * The command line *)

Lemma set_option_qos a value ns ns' :
  argparse.set_option a value ns = Ok ns' ->
  In (arg_qos ns) [0; 1; 2] -> In (arg_qos ns') [0; 1; 2].
Proof.
  unfold argparse.set_option, argparse.usage_error. intros H Hq.
  destruct a; try discriminate H;
    repeat match type of H with
           | (if ?c then _ else _) = _ => destruct c eqn:?
           | match ?o with Some _ => _ | None => _ end = _ => destruct o eqn:?
           end;
    try discriminate H; try (injection H as <-; exact Hq).
  injection H as <-. cbn [arg_qos In].
  match goal with
  | Hv : existsb (Z.eqb ?v) [0; 1; 2] = true |- _ =>
      cbn [existsb] in Hv;
      rewrite !orb_true_iff, !Z.eqb_eq in Hv; intuition (try discriminate; subst; auto)
  end.
Qed.

Lemma argparse_parse_qos (n : nat) : forall argv ns hs ex args,
  (length argv <= n)%nat ->
  In (arg_qos ns) [0; 1; 2] ->
  argparse.parse argv ns hs ex = Ok args -> In (arg_qos args) [0; 1; 2].
Proof.
  induction n as [|n IH]; intros argv ns hs ex args Hlen Hq.
  - destruct argv; [|cbn [length] in Hlen; lia].
    cbn [argparse.parse]. destruct (_ && _); [|discriminate]. intros [= <-]. exact Hq.
  - destruct argv as [|a rest].
    + cbn [argparse.parse]. destruct (_ && _); [|discriminate]. intros [= <-]. exact Hq.
    + cbn [argparse.parse]. cbn [length] in Hlen.
      destruct (str_eqb a (lit "--")); [discriminate|].
      destruct (argparse.classify a) as [|[act|] s [e|]|];
        try discriminate; try (apply IH; [lia|exact Hq]).
      * destruct act; try discriminate;
          try (destruct (_ && _); discriminate);
          destruct (argparse.set_option _ e ns) as [ns'|err] eqn:Hs; try discriminate;
          (apply IH; [lia|apply (set_option_qos _ _ _ _ Hs Hq)]).
      * destruct act; try discriminate;
          try (apply IH; [lia|exact Hq]);
          (destruct rest as [|v rest']; [discriminate|];
           destruct (argparse.is_value v); [|discriminate];
           destruct (argparse.set_option _ v ns) as [ns'|err] eqn:Hs; [|discriminate];
           apply IH; [cbn [length] in Hlen; lia|apply (set_option_qos _ _ _ _ Hs Hq)]).
Qed.

(** The model of the parser keeps [--qos] within its choices. *)
Lemma argparse_choices argv args :
  argparse.parse_args argv = Ok args -> In (arg_qos args) [0; 1; 2].
Proof.
  unfold argparse.parse_args. destruct (existsb _ _); [discriminate|].
  apply (argparse_parse_qos (length argv)); [lia|right; left; reflexivity].
Qed.

(** The forms of a command line: a value behind [=], abbreviated
    options, an abbreviation that fits two options, a QoS outside the
    choices, the help request behind a stray argument, and a stray
    argument alone. *)
Example argparse_forms :
  let with_host h q w p :=
    {| arg_host := h; arg_port := p; arg_username := None; arg_password := None;
       arg_boat_id := lit "sea_serpent_01"; arg_wildcard := w; arg_qos := q |} in
  argparse.parse_args [lit "--host=h"; lit "--qos=2"] =
    Ok (with_host (lit "h") 2 false None) /\
  argparse.parse_args [lit "--ho"; lit "h"; lit "--w"; lit "--po"; lit "1883"] =
    Ok (with_host (lit "h") 1 true (Some 1883)) /\
  argparse.parse_args [lit "--h"; lit "x"] = Raise (SystemExit 2) /\
  argparse.parse_args [lit "--host"; lit "h"; lit "--qos"; lit "3"] =
    Raise (SystemExit 2) /\
  argparse.parse_args [lit "--host"; lit "h"; lit "stray"; lit "-h"] =
    Raise (SystemExit 0) /\
  argparse.parse_args [lit "--host"; lit "h"; lit "stray"] = Raise (SystemExit 2).
Proof.
  cbv zeta. split; [|split; [|split; [|split; [|split]]]]; vm_compute; reflexivity.
Qed.

Section Subscribed.

Variable urlparse : str -> result ParseResult.
Variable parse_args : list str -> result Args.
Variable env : environment.

(** Whatever [main] subscribes to is in its plan. *)
Lemma subscribed_planned argv args t q :
  parse_args argv = Ok args ->
  In (Subscribe t q) (snd (run urlparse parse_args env argv)) ->
  In (t, q) (plan_subs args).
Proof.
  intros Hargs.
  destruct (parse_host_port urlparse (arg_host args) (arg_port args))
    as [[[host p] use_tls]|e] eqn:Hres.
  - destruct (main_outcomes urlparse parse_args env argv args host p use_tls
                Hargs Hres) as (middle & ending & -> & Hq & He).
    cbn [trace prepared connecting app In].
    intros [H|[H|[H|H]]]; try discriminate H.
    apply in_app_or in H as [H|H].
    + rewrite Forall_forall in Hq. apply (Hq _ H).
    + destruct He as [->|[-> _]]; [destruct H|].
      destruct H as [H|[]]. discriminate H.
  - unfold run. destruct e as [err|code|].
    + rewrite (main_invalid_host urlparse parse_args env argv args err Hargs Hres).
      cbn. intros [H|[]]. discriminate H.
    + rewrite (main_resolution_raises urlparse parse_args env argv args _ Hargs Hres)
        by discriminate.
      cbn. intros [].
    + rewrite (main_resolution_raises urlparse parse_args env argv args _ Hargs Hres)
        by discriminate.
      cbn. intros [].
Qed.

(** X17. Whatever the broker does, and whatever parser reads the
    command line, a run subscribes only to the topics of its plan,
    the three topics of the boat or the three wildcard topics with
    --wildcard, and with the QoS of the arguments. With a parser
    that keeps --qos within its choices 0, 1 and 2, as argparse
    does, the QoS of every subscription is 0, 1 or 2. *)
Theorem subscribed_topics :
  (forall argv args, parse_args argv = Ok args -> In (arg_qos args) [0; 1; 2]) ->
  forall argv args t q,
    parse_args argv = Ok args ->
    In (Subscribe t q) (snd (run urlparse parse_args env argv)) ->
    In t (if arg_wildcard args then wildcard_topics
          else topics_for_boat (arg_boat_id args)) /\
    q = arg_qos args /\
    In q [0; 1; 2].
Proof.
  intros Hchoices argv args t q Hargs Hin.
  apply (subscribed_planned argv args t q Hargs) in Hin.
  rewrite plan_subs_map in Hin. apply in_map_iff in Hin as (t' & [= <- <-] & Ht).
  split; [exact Ht|]. split; [reflexivity|].
  apply (Hchoices argv args Hargs).
Qed.

End Subscribed.

Lemma subscribed_topics_witness :
  let argv := [lit "--host=h"; lit "--wild"; lit "--qos"; lit "2"] in
  In (Subscribe (lit "boats/+/status") 2)
     (snd (run urllib_parse.urlparse argparse.parse_args sample_env argv)) /\
  In 2 [0; 1; 2].
Proof.
  cbv zeta.
  assert (H : In (Subscribe (lit "boats/+/status") 2)
                (snd (run urllib_parse.urlparse argparse.parse_args sample_env
                        [lit "--host=h"; lit "--wild"; lit "--qos"; lit "2"]))).
  { vm_compute. right. right. right. right. right. left. reflexivity. }
  split; [exact H|].
  apply (subscribed_topics urllib_parse.urlparse argparse.parse_args sample_env
           argparse_choices
           [lit "--host=h"; lit "--wild"; lit "--qos"; lit "2"]
           {| arg_host := lit "h"; arg_port := None;
              arg_username := None; arg_password := None;
              arg_boat_id := lit "sea_serpent_01"; arg_wildcard := true;
              arg_qos := 2 |}
           (lit "boats/+/status") 2).
  - vm_compute. reflexivity.
  - exact H.
Defined.

